(** * GeminiLive: the real-time voice session of services/gemini.ts

    A shallow embedding of the [GeminiLive] class (PCM framing, playback
    scheduling, transcript accumulation, tool dispatch, connect and
    disconnect) together with the properties of its specification. *)

From Stdlib Require Import ZArith QArith Qround Qabs Qminmax Lqa Lia.
From Stdlib Require Import List ListSet String Ascii Bool Arith.
Import ListNotations.

Set Implicit Arguments.

Open Scope string_scope.
Open Scope list_scope.

(* ================================================================== *)
(** ** JavaScript numbers *)
(* ================================================================== *)

(** A JavaScript number that is finite is a dyadic rational, so it is
    embedded in [Q]; the three non-finite values are kept apart.  Every
    arithmetic operation the audio code performs on samples is exact in
    binary64 (a product with 2^15 of a binary32 value, a quotient by 2^15
    of a 16-bit integer, comparisons), so exact rational arithmetic is
    what the code computes on the values it can hold. *)
Inductive number : Type :=
| NaN
| NegInf
| Fin (q : Q)
| PosInf.

(** [Math.min(a, b)] and [Math.max(a, b)]. *)
Definition Math_min (a b : number) : number :=
  match a, b with
  | NaN, _ | _, NaN => NaN
  | NegInf, _ | _, NegInf => NegInf
  | PosInf, x | x, PosInf => x
  | Fin x, Fin y => Fin (Qmin x y)
  end.

Definition Math_max (a b : number) : number :=
  match a, b with
  | NaN, _ | _, NaN => NaN
  | PosInf, _ | _, PosInf => PosInf
  | NegInf, x | x, NegInf => x
  | Fin x, Fin y => Fin (Qmax x y)
  end.

(** [x * 32768]: a finite sample is scaled exactly, the others absorb. *)
Definition times32768 (x : number) : number :=
  match x with
  | Fin q => Fin (q * 32768)
  | other => other
  end.

(** Truncation toward zero, the integer part taken by [ToInt16]. *)
Definition Qtrunc (q : Q) : Z :=
  if Qle_bool 0 q then Qfloor q else Qceiling q.

(** Two's complement wrap of an integer into the signed 16-bit range. *)
Definition wrap16 (z : Z) : Z := ((z + 32768) mod 65536 - 32768)%Z.

(** The conversion applied when a number is stored in an [Int16Array]. *)
Definition ToInt16 (x : number) : Z :=
  match x with
  | Fin q => wrap16 (Qtrunc q)
  | _ => 0%Z
  end.

(* ================================================================== *)
(** ** Binary strings and base64 ([btoa], [atob]) *)
(* ================================================================== *)

Module Base64.

Open Scope char_scope.

(** [String.fromCharCode] on a byte and [charCodeAt]. *)
Definition fromCharCode (b : Z) : ascii := ascii_of_N (Z.to_N b).
Definition charCodeAt (c : ascii) : Z := Z.of_N (N_of_ascii c).

Definition alphabet : list ascii :=
  list_ascii_of_string
    "ABCDEFGHIJKLMNOPQRSTUVWXYZabcdefghijklmnopqrstuvwxyz0123456789+/".

(** The character of a 6-bit value. *)
Definition b64char (n : Z) : ascii := nth (Z.to_nat n) alphabet "A".

Fixpoint index_of (c : ascii) (l : list ascii) : option Z :=
  match l with
  | [] => None
  | x :: r =>
      if Ascii.eqb c x then Some 0%Z
      else match index_of c r with
           | Some i => Some (Z.succ i)
           | None => None
           end
  end.

(** The 6-bit value of a character, when it is in the alphabet. *)
Definition b64value (c : ascii) : option Z := index_of c alphabet.

(** Groups of three bytes become four characters; a rest of one or two
    bytes is padded with [=]. *)
Fixpoint btoa_groups (bs : list Z) : list ascii :=
  match bs with
  | [] => []
  | [a] => [b64char (a / 4); b64char (a mod 4 * 16); "="; "="]
  | [a; b] =>
      [b64char (a / 4); b64char (a mod 4 * 16 + b / 16);
       b64char (b mod 16 * 4); "="]
  | a :: b :: c :: r =>
      b64char (a / 4) :: b64char (a mod 4 * 16 + b / 16)
      :: b64char (b mod 16 * 4 + c / 64) :: b64char (c mod 64)
      :: btoa_groups r
  end%Z.

(** [btoa(binary)] on a string whose code units are bytes. *)
Definition btoa (binary : string) : string :=
  string_of_list_ascii
    (btoa_groups (map charCodeAt (list_ascii_of_string binary))).

(** ASCII whitespace: TAB, LF, FF, CR and SPACE. *)
Definition is_whitespace (c : ascii) : bool :=
  let n := charCodeAt c in
  ((n =? 9) || (n =? 10) || (n =? 12) || (n =? 13) || (n =? 32))%Z.

(** Removal of one or two trailing [=]. *)
Definition strip_padding (data : list ascii) : list ascii :=
  match rev data with
  | c1 :: c2 :: r =>
      if Ascii.eqb c1 "=" then
        if Ascii.eqb c2 "=" then rev r else rev (c2 :: r)
      else data
  | [c1] => if Ascii.eqb c1 "=" then [] else data
  | [] => data
  end.

Fixpoint sextets (data : list ascii) : option (list Z) :=
  match data with
  | [] => Some []
  | c :: r =>
      match b64value c, sextets r with
      | Some v, Some vs => Some (v :: vs)
      | _, _ => None
      end
  end.

(** Four 6-bit values give three bytes; a rest of three gives two bytes
    and a rest of two gives one, the spare bits being dropped. *)
Fixpoint atob_groups (ss : list Z) : list Z :=
  match ss with
  | s1 :: s2 :: s3 :: s4 :: r =>
      (s1 * 4 + s2 / 16) :: (s2 mod 16 * 16 + s3 / 4)
      :: (s3 mod 4 * 64 + s4) :: atob_groups r
  | [s1; s2; s3] => [s1 * 4 + s2 / 16; s2 mod 16 * 16 + s3 / 4]
  | [s1; s2] => [s1 * 4 + s2 / 16]
  | _ => []
  end%Z.

(** [atob(data)], the forgiving base64 decoder; [None] stands for the
    [InvalidCharacterError] it throws. *)
Definition atob (data : string) : option string :=
  let d0 := filter (fun c => negb (is_whitespace c)) (list_ascii_of_string data) in
  let d1 := if (List.length d0 mod 4 =? 0)%nat then strip_padding d0 else d0 in
  if (List.length d1 mod 4 =? 1)%nat then None
  else match sextets d1 with
       | Some ss => Some (string_of_list_ascii (map fromCharCode (atob_groups ss)))
       | None => None
       end.

End Base64.

(* ================================================================== *)
(** ** PCM framing *)
(* ================================================================== *)

(** [new Uint8Array(int16.buffer)]: each 16-bit element is seen as its
    low byte followed by its high byte. *)
Definition bytes_of_int16 (int16 : list Z) : list Z :=
  flat_map (fun v => [v mod 256; (v / 256) mod 256]%Z) int16.

(** [new Int16Array(bytes.buffer)]: pairs of bytes are read back as
    signed elements; an odd byte length is a [RangeError] ([None]). *)
Definition int16_of_pair (lo hi : Z) : Z :=
  let u := (lo + 256 * hi)%Z in
  if (u <? 32768)%Z then u else (u - 65536)%Z.

Fixpoint int16_of_bytes (bytes : list Z) : option (list Z) :=
  match bytes with
  | [] => Some []
  | [_] => None
  | lo :: hi :: r =>
      match int16_of_bytes r with
      | Some vs => Some (int16_of_pair lo hi :: vs)
      | None => None
      end
  end.

(** The loop [binary += String.fromCharCode(bytes[i])]. *)
Definition binary_of_bytes (bytes : list Z) : string :=
  fold_left (fun binary b => (binary ++ String (Base64.fromCharCode b) EmptyString)%string)
            bytes EmptyString.

(** [GeminiLive.encodeAudio]. *)
Definition encodeAudio (inputData : list number) : string :=
  let int16 :=
    map (fun x => ToInt16 (Math_max (Fin (-32768)) (Math_min (Fin 32767) (times32768 x))))
        inputData in
  let bytes := bytes_of_int16 int16 in
  Base64.btoa (binary_of_bytes bytes).

(** The first half of [GeminiLive.playAudio]: [atob], the copy of the
    code units into a [Uint8Array] and its view as an [Int16Array]. *)
Definition decodeInt16 (base64Data : string) : option (list Z) :=
  match Base64.atob base64Data with
  | None => None
  | Some binaryString =>
      int16_of_bytes (map Base64.charCodeAt (list_ascii_of_string binaryString))
  end.

(** [dataInt16[i] / 32768.0]. *)
Definition sample_of_int16 (v : Z) : number := Fin (inject_Z v / 32768).

(* ================================================================== *)
(** ** Platform objects, callbacks and the session object *)
(* ================================================================== *)

(** Platform objects (audio contexts, media tracks, buffer source nodes,
    live sessions) are known by their identity. *)
Definition Handle := nat.

(** A [MediaStream], by the tracks [getTracks()] returns. *)
Record MediaStream : Type := { getTracks : list Handle }.

(** The promise [ai.live.connect] returns, as seen by a later [then]. *)
Inductive Promise : Type :=
| Pending
| Fulfilled (session : Handle)
| Rejected.

(** An [AudioBuffer] of one channel. *)
Record AudioBuffer : Type := {
  frames : nat;
  sampleRate : Z;
  channelData : list number
}.

(** [buffer.duration], in seconds. *)
Definition duration (b : AudioBuffer) : Q :=
  inject_Z (Z.of_nat (frames b)) / inject_Z (sampleRate b).

(** [createBuffer(numberOfChannels, length, sampleRate)] refuses a
    length of zero with a [NotSupportedError] ([None]). *)
Definition createBuffer (numberOfChannels len : nat) (rate : Z) : option AudioBuffer :=
  match len with
  | O => None
  | S _ => Some {| frames := len; sampleRate := rate;
                   channelData := repeat (Fin 0) len |}
  end.

Definition fill (b : AudioBuffer) (data : list number) : AudioBuffer :=
  {| frames := frames b; sampleRate := sampleRate b; channelData := data |}.

(** The decoding half of [GeminiLive.playAudio] (l.333-345): the sample
    data it writes into the channel of the buffer it creates, each value
    of the [Int16Array] divided by 32768.  There is none when the text
    does not decode, and none when [createBuffer] refuses the length. *)
Definition decodeAudio (base64Data : string) : option (list number) :=
  match decodeInt16 base64Data with
  | None => None
  | Some dataInt16 =>
      match createBuffer 1 (List.length dataInt16) 24000 with
      | None => None
      | Some buffer =>
          Some (channelData (fill buffer (map sample_of_int16 dataInt16)))
      end
  end.

(** What the session does to the outside: the three callbacks given to
    the constructor, and the calls on platform objects and on the SDK. *)
Inductive Effect : Type :=
| onStatusChange (active : bool)
| onTranscriptUpdate (userText modelText : string) (isFinal : bool)
| onImageGenerated (imageData : string)
| track_stop (track : Handle)
| context_close (context : Handle)
| source_start (source : Handle) (buffer : AudioBuffer) (when : Q)
| source_stop (source : Handle)
| live_connect (voiceName : string)
| capture_start (context : Handle) (stream : MediaStream)
| sendRealtimeInput (session : Handle) (mimeType data : string)
| sendToolResponse (session : Handle) (id name result : string)
| console_log (text : string)
| console_error (text : string).

(** The fields of a [GeminiLive] object; [sources] is the [Set] in
    insertion order.  Clock readings and the cursor [nextStartTime] are
    seconds, as rationals: the scheduler compares them, takes their
    maximum and adds a duration to them, and the rounding of that sum in
    binary64 is not modelled. *)
Record GeminiLive : Type := {
  audioContext : option Handle;
  inputAudioContext : option Handle;
  stream : option MediaStream;
  nextStartTime : Q;
  sources : list Handle;
  sessionPromise : option Promise;
  currentInputTranscription : string;
  currentOutputTranscription : string
}.

(** The object the constructor builds. *)
Definition new_GeminiLive : GeminiLive :=
  {| audioContext := None; inputAudioContext := None; stream := None;
     nextStartTime := 0; sources := []; sessionPromise := None;
     currentInputTranscription := ""; currentOutputTranscription := "" |}.

Definition set_audioContext (v : option Handle) (s : GeminiLive) : GeminiLive :=
  {| audioContext := v; inputAudioContext := inputAudioContext s;
     stream := stream s; nextStartTime := nextStartTime s; sources := sources s;
     sessionPromise := sessionPromise s;
     currentInputTranscription := currentInputTranscription s;
     currentOutputTranscription := currentOutputTranscription s |}.

Definition set_inputAudioContext (v : option Handle) (s : GeminiLive) : GeminiLive :=
  {| audioContext := audioContext s; inputAudioContext := v;
     stream := stream s; nextStartTime := nextStartTime s; sources := sources s;
     sessionPromise := sessionPromise s;
     currentInputTranscription := currentInputTranscription s;
     currentOutputTranscription := currentOutputTranscription s |}.

Definition set_stream (v : option MediaStream) (s : GeminiLive) : GeminiLive :=
  {| audioContext := audioContext s; inputAudioContext := inputAudioContext s;
     stream := v; nextStartTime := nextStartTime s; sources := sources s;
     sessionPromise := sessionPromise s;
     currentInputTranscription := currentInputTranscription s;
     currentOutputTranscription := currentOutputTranscription s |}.

Definition set_nextStartTime (v : Q) (s : GeminiLive) : GeminiLive :=
  {| audioContext := audioContext s; inputAudioContext := inputAudioContext s;
     stream := stream s; nextStartTime := v; sources := sources s;
     sessionPromise := sessionPromise s;
     currentInputTranscription := currentInputTranscription s;
     currentOutputTranscription := currentOutputTranscription s |}.

Definition set_sources (v : list Handle) (s : GeminiLive) : GeminiLive :=
  {| audioContext := audioContext s; inputAudioContext := inputAudioContext s;
     stream := stream s; nextStartTime := nextStartTime s; sources := v;
     sessionPromise := sessionPromise s;
     currentInputTranscription := currentInputTranscription s;
     currentOutputTranscription := currentOutputTranscription s |}.

Definition set_sessionPromise (v : option Promise) (s : GeminiLive) : GeminiLive :=
  {| audioContext := audioContext s; inputAudioContext := inputAudioContext s;
     stream := stream s; nextStartTime := nextStartTime s; sources := sources s;
     sessionPromise := v;
     currentInputTranscription := currentInputTranscription s;
     currentOutputTranscription := currentOutputTranscription s |}.

Definition set_currentInputTranscription (v : string) (s : GeminiLive) : GeminiLive :=
  {| audioContext := audioContext s; inputAudioContext := inputAudioContext s;
     stream := stream s; nextStartTime := nextStartTime s; sources := sources s;
     sessionPromise := sessionPromise s;
     currentInputTranscription := v;
     currentOutputTranscription := currentOutputTranscription s |}.

Definition set_currentOutputTranscription (v : string) (s : GeminiLive) : GeminiLive :=
  {| audioContext := audioContext s; inputAudioContext := inputAudioContext s;
     stream := stream s; nextStartTime := nextStartTime s; sources := sources s;
     sessionPromise := sessionPromise s;
     currentInputTranscription := currentInputTranscription s;
     currentOutputTranscription := v |}.

(* ================================================================== *)
(** ** Methods as state transformers that log their effects *)
(* ================================================================== *)

Record Res (A : Type) : Type := { value : A; final : GeminiLive; log : list Effect }.

Definition M (A : Type) : Type := GeminiLive -> Res A.

Definition ret {A : Type} (a : A) : M A :=
  fun this => {| value := a; final := this; log := [] |}.

Definition bind {A B : Type} (m : M A) (k : A -> M B) : M B :=
  fun this =>
    let r1 := m this in
    let r2 := k (value r1) (final r1) in
    {| value := value r2; final := final r2; log := log r1 ++ log r2 |}.

Definition get : M GeminiLive :=
  fun this => {| value := this; final := this; log := [] |}.

Definition modify (f : GeminiLive -> GeminiLive) : M unit :=
  fun this => {| value := tt; final := f this; log := [] |}.

Definition emit (e : Effect) : M unit :=
  fun this => {| value := tt; final := this; log := [e] |}.

Declare Scope js_scope.
Delimit Scope js_scope with js.
Notation "x <- m ;; k" := (bind m (fun x => k))
  (at level 61, m at next level, right associativity) : js_scope.
Notation "m ;; k" := (bind m (fun _ => k))
  (at level 61, right associativity) : js_scope.
Open Scope js_scope.

(** [xs.forEach(f)]. *)
Fixpoint forEach {A : Type} (xs : list A) (f : A -> M unit) : M unit :=
  match xs with
  | [] => ret tt
  | x :: r => f x ;; forEach r f
  end.

(** [promise.then(f)] within one step: [f] runs with the session of a
    fulfilled promise, and never on a rejected one.  On a pending promise
    the platform keeps [f] and runs it if the promise fulfils, which is no
    part of the step that called [then]: nothing is recorded for it
    here. *)
Definition then_ (p : Promise) (f : Handle -> M unit) : M unit :=
  match p with
  | Fulfilled session => f session
  | Pending | Rejected => ret tt
  end.

(** How a call ends: it returns, or throws (an [async] method rejects). *)
Inductive completion : Type :=
| Normal
| Throw (error : string).

(** Truthiness of a string and of an optional string. *)
Definition truthy (s : string) : bool := negb (String.eqb s "").
Definition truthy_opt (s : option string) : bool :=
  match s with Some x => truthy x | None => false end.

(** A value of type [string | undefined] in a template literal or [+=]. *)
Definition js_string (s : option string) : string :=
  match s with Some x => x | None => "undefined" end.

(** Truthiness of a reference that is an object or [null]. *)
Definition not_null {A : Type} (x : option A) : bool :=
  match x with Some _ => true | None => false end.

(* ================================================================== *)
(** ** [generateImage] *)
(* ================================================================== *)

(** The object literals [generateImage] returns. *)
Record ImageGenerationResult : Type := {
  success : bool;
  data : option string;
  mimeType : option string;
  error : option string
}.

(** What [ai.models.generateImages] does with a request: it answers, with
    [generatedImages?.[0]?.image?.imageBytes] present or not, or throws an
    error that has a message or not. *)
Inductive ApiOutcome : Type :=
| Responded (imageBytes : option string)
| Failed (message : option string).

Definition generateImage (outcome : ApiOutcome) : M ImageGenerationResult :=
  match outcome with
  | Responded imageBytes =>
      if truthy_opt imageBytes then
        ret {| success := true; data := imageBytes;
               mimeType := Some "image/jpeg"; error := None |}
      else
        ret {| success := false; data := None; mimeType := None;
               error := Some "No image generated." |}
  | Failed message =>
      emit (console_error "Image Generation Error:") ;;
      ret {| success := false; data := None; mimeType := None;
             error := Some (if truthy_opt message then js_string message
                            else "Failed to generate image.") |}
  end.

(* ================================================================== *)
(** ** Inbound messages *)
(* ================================================================== *)

Record Transcription : Type := { text : option string }.

Record FunctionCall : Type := {
  id : string;
  name : string;
  args : option string   (* the [prompt] of [call.args], when [args] is there *)
}.

Record ToolCall : Type := { functionCalls : option (list FunctionCall) }.

(** A [LiveServerMessage], by the parts [handleMessage] looks at. *)
Record LiveServerMessage : Type := {
  audioData : option string;   (* serverContent?.modelTurn?.parts?.[0]?.inlineData?.data *)
  outputTranscription : option Transcription;
  inputTranscription : option Transcription;
  turnComplete : bool;
  interrupted : bool;
  toolCall : option ToolCall
}.

(** What the platform answers while one message is handled: the reading
    of [audioContext.currentTime] (which the platform never gives
    negative), the node [createBufferSource()] makes, and the outcome of
    the image request of the i-th function call. *)
Record MsgEnv : Type := {
  currentTime : Q;
  createBufferSource : Handle;
  generateImages : nat -> string -> ApiOutcome
}.

(* ================================================================== *)
(** ** The methods of [GeminiLive] *)
(* ================================================================== *)

(** [disconnect()]. *)
Definition disconnect : M unit :=
  emit (onStatusChange false) ;;
  this <- get ;;
  match stream this with
  | Some s =>
      forEach (getTracks s) (fun t => emit (track_stop t)) ;;
      modify (set_stream None)
  | None => ret tt
  end ;;
  this <- get ;;
  match inputAudioContext this with
  | Some c => emit (context_close c) ;; modify (set_inputAudioContext None)
  | None => ret tt
  end ;;
  this <- get ;;
  match audioContext this with
  | Some c => emit (context_close c) ;; modify (set_audioContext None)
  | None => ret tt
  end ;;
  modify (set_sessionPromise None) ;;
  modify (set_currentInputTranscription "") ;;
  modify (set_currentOutputTranscription "").

(** What the platform answers during [connect]: the two [AudioContext]
    constructors, [getUserMedia] and [ai.live.connect] each give their
    object or throw. *)
Record ConnectEnv : Type := {
  newInputContext : string + Handle;
  newOutputContext : string + Handle;
  getUserMedia : string + MediaStream;
  liveConnect : string + Promise
}.

(** The [catch] block of [connect]. *)
Definition connect_catch (e : string) : M completion :=
  emit (console_error "Failed to start live session:") ;;
  disconnect ;;
  ret (Throw e).

(** [connect(voiceName)], run without anything else being called on the
    object while it waits for the microphone; [connectAsync] below has
    the suspension. *)
Definition connect (env : ConnectEnv) (voiceName : string) : M completion :=
  match newInputContext env with
  | inl e => connect_catch e
  | inr ic =>
      modify (set_inputAudioContext (Some ic)) ;;
      match newOutputContext env with
      | inl e => connect_catch e
      | inr oc =>
          modify (set_audioContext (Some oc)) ;;
          match getUserMedia env with
          | inl e => connect_catch e
          | inr s =>
              modify (set_stream (Some s)) ;;
              emit (onStatusChange true) ;;
              match liveConnect env with
              | inl e => connect_catch e
              | inr p =>
                  emit (live_connect voiceName) ;;
                  modify (set_sessionPromise (Some p)) ;;
                  ret Normal
              end
          end
      end
  end.

(** [connect(voiceName)] as the [async] method it is.  It is suspended
    once, at [await getUserMedia] (l.174), with both contexts stored;
    [meanwhile] is what the calls made on the object before the stream is
    there do to its fields.  The log holds the effects of [connect]
    itself. *)
Definition connectAsync (meanwhile : GeminiLive -> GeminiLive) (env : ConnectEnv)
           (voiceName : string) : M completion :=
  match newInputContext env with
  | inl e => connect_catch e
  | inr ic =>
      modify (set_inputAudioContext (Some ic)) ;;
      match newOutputContext env with
      | inl e => connect_catch e
      | inr oc =>
          modify (set_audioContext (Some oc)) ;;
          modify meanwhile ;;
          match getUserMedia env with
          | inl e => connect_catch e
          | inr s =>
              modify (set_stream (Some s)) ;;
              emit (onStatusChange true) ;;
              match liveConnect env with
              | inl e => connect_catch e
              | inr p =>
                  emit (live_connect voiceName) ;;
                  modify (set_sessionPromise (Some p)) ;;
                  ret Normal
              end
          end
      end
  end.

(** [handleOpen()]. *)
Definition handleOpen : M unit :=
  this <- get ;;
  match stream this, inputAudioContext this with
  | Some s, Some c => emit (capture_start c s)
  | _, _ => ret tt
  end.

(** The [onaudioprocess] handler [handleOpen] installs. *)
Definition onaudioprocess (inputData : list number) : M unit :=
  this <- get ;;
  match sessionPromise this with
  | None => ret tt
  | Some p =>
      let base64 := encodeAudio inputData in
      then_ p (fun session =>
        emit (sendRealtimeInput session "audio/pcm;rate=16000" base64))
  end.

(** [stopAudio()]. *)
Definition stopAudio : M unit :=
  this <- get ;;
  forEach (sources this) (fun s => emit (source_stop s)) ;;
  modify (set_sources []).

(** [playAudio(base64Data)]. *)
Definition playAudio (env : MsgEnv) (base64Data : string) : M unit :=
  this <- get ;;
  match audioContext this with
  | None => ret tt
  | Some ctx =>
      match decodeInt16 base64Data with
      | None => emit (console_error "Error playing audio chunk")
      | Some dataInt16 =>
          match createBuffer 1 (List.length dataInt16) 24000 with
          | None => emit (console_error "Error playing audio chunk")
          | Some buffer =>
              let buffer := fill buffer (map sample_of_int16 dataInt16) in
              let source := createBufferSource env in
              modify (set_nextStartTime (Qmax (currentTime env) (nextStartTime this))) ;;
              this <- get ;;
              emit (source_start source buffer (nextStartTime this)) ;;
              modify (set_nextStartTime (nextStartTime this + duration buffer)) ;;
              modify (fun this => set_sources (set_add Nat.eq_dec source (sources this)) this)
          end
      end
  end.

(** The [onended] handler [playAudio] gives a source. *)
Definition onended (source : Handle) : M unit :=
  modify (fun this => set_sources (set_remove Nat.eq_dec source (sources this)) this).

(** The loop of [handleToolCall], from the i-th call on, run without
    anything else being called on the object while an image request is
    under way: each [await generateImage(...)] is resolved on the spot
    with the outcome the platform gives, so [this.sessionPromise] is read
    as it is when the event arrives ([handleToolCall_loopAsync] below has
    the suspensions); [args.prompt] on a call without [args] is a
    [TypeError]. *)
Fixpoint handleToolCall_loop (env : MsgEnv) (i : nat) (calls : list FunctionCall)
  : M completion :=
  match calls with
  | [] => ret Normal
  | call :: rest =>
      if String.eqb (name call) "create_image" then
        match args call with
        | None => ret (Throw "TypeError")
        | Some prompt =>
            result <- generateImage (generateImages env i prompt) ;;
            responseContent <-
              (if success result && truthy_opt (data result) then
                 emit (onImageGenerated (js_string (data result))) ;;
                 ret "Image generated successfully."
               else
                 ret ("Error: " ++ js_string (error result))%string) ;;
            this <- get ;;
            match sessionPromise this with
            | Some p =>
                then_ p (fun session =>
                  emit (sendToolResponse session (id call) (name call) responseContent))
            | None => ret tt
            end ;;
            handleToolCall_loop env (S i) rest
        end
      else handleToolCall_loop env (S i) rest
  end.

(** [handleToolCall(toolCall)]. *)
Definition handleToolCall (env : MsgEnv) (toolCall : ToolCall) : M completion :=
  match functionCalls toolCall with
  | None | Some [] => ret Normal
  | Some calls => handleToolCall_loop env 0 calls
  end.

(** The loop of [handleToolCall] as the [async] method runs it.  It is
    suspended at each [await generateImage(...)] (l.306); [meanwhile i]
    is what the calls made on the object while the request of the i-th
    call is under way do to its fields, and [this.sessionPromise] is read
    after that.  The log holds the effects of the dispatcher itself. *)
Fixpoint handleToolCall_loopAsync (meanwhile : nat -> GeminiLive -> GeminiLive)
         (env : MsgEnv) (i : nat) (calls : list FunctionCall) : M completion :=
  match calls with
  | [] => ret Normal
  | call :: rest =>
      if String.eqb (name call) "create_image" then
        match args call with
        | None => ret (Throw "TypeError")
        | Some prompt =>
            modify (meanwhile i) ;;
            result <- generateImage (generateImages env i prompt) ;;
            responseContent <-
              (if success result && truthy_opt (data result) then
                 emit (onImageGenerated (js_string (data result))) ;;
                 ret "Image generated successfully."
               else
                 ret ("Error: " ++ js_string (error result))%string) ;;
            this <- get ;;
            match sessionPromise this with
            | Some p =>
                then_ p (fun session =>
                  emit (sendToolResponse session (id call) (name call) responseContent))
            | None => ret tt
            end ;;
            handleToolCall_loopAsync meanwhile env (S i) rest
        end
      else handleToolCall_loopAsync meanwhile env (S i) rest
  end.

Definition handleToolCallAsync (meanwhile : nat -> GeminiLive -> GeminiLive)
           (env : MsgEnv) (toolCall : ToolCall) : M completion :=
  match functionCalls toolCall with
  | None | Some [] => ret Normal
  | Some calls => handleToolCall_loopAsync meanwhile env 0 calls
  end.

(** [handleMessage(message)].  The call of [handleToolCall] is not
    awaited: what it throws stays in its own promise. *)
Definition handleMessage (env : MsgEnv) (message : LiveServerMessage) : M unit :=
  this <- get ;;
  (if truthy_opt (audioData message) && not_null (audioContext this)
   then playAudio env (js_string (audioData message))
   else ret tt) ;;
  match outputTranscription message with
  | Some t =>
      modify (fun this => set_currentOutputTranscription
                (currentOutputTranscription this ++ js_string (text t))%string this) ;;
      this <- get ;;
      emit (onTranscriptUpdate (currentInputTranscription this)
                               (currentOutputTranscription this) false)
  | None => ret tt
  end ;;
  match inputTranscription message with
  | Some t =>
      modify (fun this => set_currentInputTranscription
                (currentInputTranscription this ++ js_string (text t))%string this) ;;
      this <- get ;;
      emit (onTranscriptUpdate (currentInputTranscription this)
                               (currentOutputTranscription this) false)
  | None => ret tt
  end ;;
  (if turnComplete message then
     this <- get ;;
     emit (onTranscriptUpdate (currentInputTranscription this)
                              (currentOutputTranscription this) true) ;;
     modify (set_currentInputTranscription "") ;;
     modify (set_currentOutputTranscription "")
   else ret tt) ;;
  (if interrupted message then
     stopAudio ;;
     modify (set_currentOutputTranscription "") ;;
     modify (set_nextStartTime 0)
   else ret tt) ;;
  match toolCall message with
  | Some tc => _ <- handleToolCall env tc ;; ret tt
  | None => ret tt
  end.

(* ================================================================== *)
(** ** Runs of a session *)
(* ================================================================== *)

(** What can happen to a session object: calls of its public methods and
    the handlers the platform and the SDK call back. *)
Inductive Op : Type :=
| Connect (env : ConnectEnv) (voiceName : string)
| Disconnect
| OnOpen
| OnMessage (env : MsgEnv) (message : LiveServerMessage)
| OnClose
| OnError
| OnEnded (source : Handle)
| OnAudioProcess (inputData : list number)
| OnSettled (p : Promise).

Definition step (op : Op) : M unit :=
  match op with
  | Connect env voiceName => _ <- connect env voiceName ;; ret tt
  | Disconnect => disconnect
  | OnOpen => handleOpen
  | OnMessage env message => handleMessage env message
  | OnClose => emit (console_log "Live session closed") ;; disconnect
  | OnError => emit (console_error "Live session error") ;; disconnect
  | OnEnded source => onended source
  | OnAudioProcess inputData => onaudioprocess inputData
  | OnSettled p =>
      modify (fun this =>
        match sessionPromise this with
        | Some Pending => set_sessionPromise (Some p) this
        | _ => this
        end)
  end.

Fixpoint run (ops : list Op) : M unit :=
  match ops with
  | [] => ret tt
  | op :: rest => step op ;; run rest
  end.


(* ================================================================== *)
(** ** Vocabulary of the properties *)
(* ================================================================== *)

(** The unpadded part and the padding of [btoa_groups]. *)
Fixpoint enc_sextets (bs : list Z) : list Z :=
  match bs with
  | [] => []
  | [a] => [a / 4; a mod 4 * 16]
  | [a; b] => [a / 4; a mod 4 * 16 + b / 16; b mod 16 * 4]
  | a :: b :: c :: r =>
      a / 4 :: (a mod 4 * 16 + b / 16) :: (b mod 16 * 4 + c / 64) :: c mod 64
      :: enc_sextets r
  end%Z.

Fixpoint enc_pad (bs : list Z) : list ascii :=
  match bs with
  | [] => []
  | [_] => ["="; "="]%char
  | [_; _] => ["="]%char
  | _ :: _ :: _ :: r => enc_pad r
  end.

Definition is_byte (b : Z) : Prop := (0 <= b < 256)%Z.
Definition is_sextet (s : Z) : Prop := (0 <= s < 64)%Z.
Definition is_int16 (v : Z) : Prop := (-32768 <= v <= 32767)%Z.

(** The 16-bit value [encodeAudio] stores for a sample. *)
Definition quantize (x : number) : Z :=
  ToInt16 (Math_max (Fin (-32768)) (Math_min (Fin 32767) (times32768 x))).

(** A float in [-1, 1]. *)
Definition in_unit_range (x : number) : Prop :=
  match x with
  | Fin q => -1 <= q /\ q <= 1
  | _ => False
  end.

(** Two samples that differ by at most one 16-bit quantum. *)
Definition within_quantum (x y : number) : Prop :=
  match x, y with
  | Fin a, Fin b => Qabs (b - a) <= 1 # 32768
  | _, _ => False
  end.

(** *** Readings of a log *)

(** The arguments of the status callback, in order. *)
Definition statuses (l : list Effect) : list bool :=
  flat_map (fun e => match e with onStatusChange b => [b] | _ => [] end) l.

Definition status_calls (b : bool) (l : list Effect) : nat :=
  count_occ Bool.bool_dec (statuses l) b.

Definition closed_contexts (l : list Effect) : list Handle :=
  flat_map (fun e => match e with context_close c => [c] | _ => [] end) l.

Definition stopped_tracks (l : list Effect) : list Handle :=
  flat_map (fun e => match e with track_stop t => [t] | _ => [] end) l.

Definition stopped_sources (l : list Effect) : list Handle :=
  flat_map (fun e => match e with source_stop s => [s] | _ => [] end) l.

Definition releases (h : Handle) (l : list Effect) : nat :=
  count_occ Nat.eq_dec (closed_contexts l ++ stopped_tracks l) h.

(** The images handed to [onImageGenerated]. *)
Definition images (l : list Effect) : list string :=
  flat_map (fun e => match e with onImageGenerated d => [d] | _ => [] end) l.

(** The tool responses sent: identifier, name and result text. *)
Definition responses (l : list Effect) : list (string * string * string) :=
  flat_map (fun e => match e with
                     | sendToolResponse _ i n r => [(i, n, r)]
                     | _ => []
                     end) l.

(** A scheduled playback unit: its node, start time and duration. *)
Record PlaybackUnit : Type := { unit_source : Handle; unit_start : Q; unit_duration : Q }.

Definition scheduled (l : list Effect) : list PlaybackUnit :=
  flat_map (fun e => match e with
                     | source_start s b w =>
                         [{| unit_source := s; unit_start := w;
                             unit_duration := duration b |}]
                     | _ => []
                     end) l.

(** Each unit starts when the one before it ends. *)
Fixpoint gapless (units : list PlaybackUnit) : Prop :=
  match units with
  | u1 :: r =>
      match r with
      | u2 :: _ => unit_start u2 == unit_start u1 + unit_duration u1
      | [] => True
      end /\ gapless r
  | [] => True
  end.

(** *** Playback *)

(** The buffer [playAudio] builds from a chunk, when it builds one. *)
Definition audio_buffer (base64Data : string) : option AudioBuffer :=
  match decodeInt16 base64Data with
  | Some dataInt16 =>
      match createBuffer 1 (List.length dataInt16) 24000 with
      | Some buffer => Some (fill buffer (map sample_of_int16 dataInt16))
      | None => None
      end
  | None => None
  end.

Definition decodes (chunk : MsgEnv * string) : Prop :=
  audio_buffer (snd chunk) <> None.

(** Chunks enqueued one after the other, each with the platform answers
    of its own moment. *)
Definition enqueue_all (chunks : list (MsgEnv * string)) : M unit :=
  forEach chunks (fun c => playAudio (fst c) (snd c)).

(** The output clock does not overtake the cursor: at each enqueue the
    clock reads no more than [nextStartTime]. *)
Fixpoint keeps_up (chunks : list (MsgEnv * string)) (this : GeminiLive) : Prop :=
  match chunks with
  | [] => True
  | c :: r =>
      currentTime (fst c) <= nextStartTime this /\
      keeps_up r (final (playAudio (fst c) (snd c) this))
  end.

(** *** Messages *)

Definition emptyMessage : LiveServerMessage :=
  {| audioData := None; outputTranscription := None; inputTranscription := None;
     turnComplete := false; interrupted := false; toolCall := None |}.

Definition audioMessage (base64Data : string) : LiveServerMessage :=
  {| audioData := Some base64Data; outputTranscription := None;
     inputTranscription := None; turnComplete := false; interrupted := false;
     toolCall := None |}.

Definition interruptionMessage : LiveServerMessage :=
  {| audioData := None; outputTranscription := None; inputTranscription := None;
     turnComplete := false; interrupted := true; toolCall := None |}.

Definition turnCompleteMessage : LiveServerMessage :=
  {| audioData := None; outputTranscription := None; inputTranscription := None;
     turnComplete := true; interrupted := false; toolCall := None |}.

Definition toolCallMessage (calls : list FunctionCall) : LiveServerMessage :=
  {| audioData := None; outputTranscription := None; inputTranscription := None;
     turnComplete := false; interrupted := false;
     toolCall := Some {| functionCalls := Some calls |} |}.

(** A transcript partial of one direction. *)
Inductive Partial : Type :=
| InputPartial (t : string)
| OutputPartial (t : string).

Definition partialMessage (p : Partial) : LiveServerMessage :=
  match p with
  | InputPartial t =>
      {| audioData := None; outputTranscription := None;
         inputTranscription := Some {| text := Some t |};
         turnComplete := false; interrupted := false; toolCall := None |}
  | OutputPartial t =>
      {| audioData := None; outputTranscription := Some {| text := Some t |};
         inputTranscription := None;
         turnComplete := false; interrupted := false; toolCall := None |}
  end.

(** The texts of one direction, concatenated in arrival order. *)
Fixpoint input_text (ps : list (MsgEnv * Partial)) : string :=
  match ps with
  | [] => ""
  | (_, InputPartial t) :: r => (t ++ input_text r)%string
  | (_, OutputPartial _) :: r => input_text r
  end.

Fixpoint output_text (ps : list (MsgEnv * Partial)) : string :=
  match ps with
  | [] => ""
  | (_, OutputPartial t) :: r => (t ++ output_text r)%string
  | (_, InputPartial _) :: r => output_text r
  end.

Definition partial_ops (ps : list (MsgEnv * Partial)) : list Op :=
  map (fun p => OnMessage (fst p) (partialMessage (snd p))) ps.

(** *** Operations and runs *)

Definition is_open (op : Op) : bool :=
  match op with OnOpen => true | _ => false end.

(** An operation that handles a message carrying the interruption flag. *)
Definition is_interruption (op : Op) : bool :=
  match op with OnMessage _ m => interrupted m | _ => false end.

(** The status callback reports [true] only in, or after, the handling of
    the open confirmation. *)
Definition status_true_only_after_open (ops : list Op) (this : GeminiLive) : Prop :=
  forall pre op post,
    ops = pre ++ op :: post ->
    In (onStatusChange true) (log (step op (final (run pre this)))) ->
    existsb is_open (pre ++ [op]) = true.

(** The step of [connect] that throws first, with what it throws. *)
Inductive fails_with (env : ConnectEnv) (e : string) : Prop :=
| fails_input_context :
    newInputContext env = inl e -> fails_with env e
| fails_output_context : forall ic,
    newInputContext env = inr ic -> newOutputContext env = inl e ->
    fails_with env e
| fails_getUserMedia : forall ic oc,
    newInputContext env = inr ic -> newOutputContext env = inr oc ->
    getUserMedia env = inl e -> fails_with env e
| fails_liveConnect : forall ic oc s,
    newInputContext env = inr ic -> newOutputContext env = inr oc ->
    getUserMedia env = inr s -> liveConnect env = inl e ->
    fails_with env e.

(** A function call for a tool the dispatcher does not know. *)
Definition other_tool (c : FunctionCall) : Prop := name c <> "create_image".

(** *** Sample platforms and states *)

Definition okEnv : ConnectEnv :=
  {| newInputContext := inr 1%nat; newOutputContext := inr 2%nat;
     getUserMedia := inr {| getTracks := [3%nat] |};
     liveConnect := inr Pending |}.

Definition deniedEnv : ConnectEnv :=
  {| newInputContext := inr 1%nat; newOutputContext := inr 2%nat;
     getUserMedia := inl "NotAllowedError"; liveConnect := inr Pending |}.

Definition msgEnv (now : Q) (node : Handle) (o : ApiOutcome) : MsgEnv :=
  {| currentTime := now; createBufferSource := node;
     generateImages := fun _ _ => o |}.

(** A session after [connect] and the open confirmation. *)
Definition connected : GeminiLive :=
  final (run [Connect okEnv "Kore"; OnSettled (Fulfilled 9%nat); OnOpen] new_GeminiLive).

(** The same session with one chunk of one sample scheduled at 1/2 s. *)
Definition playing : GeminiLive :=
  final (handleMessage (msgEnv (1 # 2) 7%nat (Failed None)) (audioMessage "AAA=") connected).

(** Three chunks, of one, three and one samples, with the clock read. *)
Definition chunk1 : MsgEnv * string := (msgEnv (1 # 2) 7%nat (Failed None), "AAA=").
Definition chunk2 : MsgEnv * string := (msgEnv (1 # 4) 8%nat (Failed None), "AAAAAAAA").
Definition chunk3 : MsgEnv * string := (msgEnv (1 # 2) 9%nat (Failed None), "AAA=").

Definition buffer1 : AudioBuffer :=
  {| frames := 1; sampleRate := 24000; channelData := [Fin (0 # 32768)] |}.

(** *** Frame conditions and the claims that fail *)

(** A computation that never moves the playback cursor backwards. *)
Definition cursor_advances {A : Type} (m : M A) : Prop :=
  forall this, nextStartTime this <= nextStartTime (final (m this)).

(** A computation that leaves every field of the object as it was. *)
Definition keeps_object {A : Type} (m : M A) : Prop :=
  forall this, final (m this) = this.

(** A computation that stops no source. *)
Definition stops_nothing {A : Type} (m : M A) : Prop :=
  forall this, stopped_sources (log (m this)) = [].

(** A failure of the transport after [connect] has returned, the promise
    of [ai.live.connect] being rejected, is reported by a status callback
    with [false]. *)
Definition failure_reported (ops : list Op) (this : GeminiLive) : Prop :=
  In (OnSettled Rejected) ops -> In false (statuses (log (run ops this))).

(** Two calls of [disconnect] in succession. *)
Definition disconnect_twice : M unit := disconnect ;; disconnect.

Definition imageCall : FunctionCall :=
  {| id := "call-1"; name := "create_image"; args := Some "a red kite" |}.

(** A [create_image] call that comes without [args]. *)
Definition badCall : FunctionCall :=
  {| id := "call-0"; name := "create_image"; args := None |}.

(** The tool responses sent under an identifier. *)
Definition responses_to (i : string) (l : list Effect)
  : list (string * string * string) :=
  filter (fun r => String.eqb (fst (fst r)) i) (responses l).

(** The tool round trip for every event: the dispatcher does not throw,
    and each [create_image] call of the event that has a prompt gets
    exactly one response under its identifier. *)
Definition every_call_answered (meanwhile : nat -> GeminiLive -> GeminiLive)
           (env : MsgEnv) (calls : list FunctionCall) (this : GeminiLive) : Prop :=
  let r := handleToolCallAsync meanwhile env {| functionCalls := Some calls |} this in
  value r = Normal /\
  forall call prompt,
    In call calls -> name call = "create_image" -> args call = Some prompt ->
    List.length (responses_to (id call) (log r)) = 1%nat.

(** The session handle is held and fulfilled when the event arrives, and
    nothing that is called on the object while an image request is under
    way drops or replaces it. *)
Definition handle_held (session : Handle) (meanwhile : nat -> GeminiLive -> GeminiLive)
           (this : GeminiLive) : Prop :=
  sessionPromise this = Some (Fulfilled session) /\
  forall i s, sessionPromise s = Some (Fulfilled session) ->
              sessionPromise (meanwhile i s) = Some (Fulfilled session).

(** A run with no interruption in it. *)
Definition sampleRun : list Op :=
  [Connect okEnv "Kore"; OnSettled (Fulfilled 9%nat); OnOpen;
   OnMessage (fst chunk1) (audioMessage (snd chunk1));
   OnMessage (fst chunk2) (partialMessage (OutputPartial "Hello"));
   OnEnded 7%nat; Disconnect].

(** A platform on which the image request of every call answers with
    the bytes ["abc"]. *)
Definition imageEnv : MsgEnv := msgEnv 0 8%nat (Responded (Some "abc")).

(* ================================================================== *)
(** ** Vocabulary of the further properties *)
(* ================================================================== *)

(** A text-safe character: one of the base64 alphabet, or the padding. *)
Definition is_base64_char (c : ascii) : Prop :=
  Base64.b64value c <> None \/ c = "="%char.

(** A computation that keeps a property of the object. *)
Definition preserves {A : Type} (P : GeminiLive -> Prop) (m : M A) : Prop :=
  forall this, P this -> P (final (m this)).

(** The calls of the transcript callback, in order. *)
Definition transcript_updates (l : list Effect) : list (string * string * bool) :=
  flat_map (fun e => match e with
                     | onTranscriptUpdate u m f => [(u, m, f)]
                     | _ => []
                     end) l.

(** The audio frames sent: session, MIME type and payload. *)
Definition realtime_inputs (l : list Effect) : list (Handle * string * string) :=
  flat_map (fun e => match e with
                     | sendRealtimeInput s t d => [(s, t, d)]
                     | _ => []
                     end) l.

(** An effect on the transport or on the audio devices: a scheduled
    source, a started capture, a frame or a tool response sent. *)
Definition reaches_out (e : Effect) : bool :=
  match e with
  | source_start _ _ _ | capture_start _ _
  | sendRealtimeInput _ _ _ | sendToolResponse _ _ _ _ => true
  | _ => false
  end.

(** A handler the platform or the SDK calls on the object, or
    [disconnect]: every operation but a call of [connect] and the
    settling of the transport promise. *)
Definition is_handler (op : Op) : bool :=
  match op with Connect _ _ | OnSettled _ => false | _ => true end.

(** A session object that holds no device and no session handle, as
    [disconnect] leaves it. *)
Definition torn_down (this : GeminiLive) : Prop :=
  audioContext this = None /\ inputAudioContext this = None /\
  stream this = None /\ sessionPromise this = None.

(** A computation that, on a torn-down object, leaves it torn down and
    reaches nowhere. *)
Definition silent_at {A : Type} (this : GeminiLive) (m : M A) : Prop :=
  torn_down this ->
  torn_down (final (m this)) /\ existsb reaches_out (log (m this)) = false.

Definition silent {A : Type} (m : M A) : Prop := forall this, silent_at this m.

(** The text a tool response carries when the image was generated. *)
Definition successText : string := "Image generated successfully.".

(** The result text [handleToolCall] sends for an outcome of the image
    request. *)
Definition responseText (o : ApiOutcome) : string :=
  match o with
  | Responded (Some bytes) =>
      if truthy bytes then successText else "Error: No image generated."
  | Responded None => "Error: No image generated."
  | Failed message =>
      ("Error: " ++ (if truthy_opt message then js_string message
                     else "Failed to generate image."))%string
  end.

(** The [create_image] calls of an event, each with its position. *)
Fixpoint image_calls (i : nat) (calls : list FunctionCall) : list (nat * FunctionCall) :=
  match calls with
  | [] => []
  | c :: r =>
      if String.eqb (name c) "create_image" then (i, c) :: image_calls (S i) r
      else image_calls (S i) r
  end.

(** A message that carries an audio chunk and the interruption flag. *)
Definition interruptedAudioMessage (base64Data : string) : LiveServerMessage :=
  {| audioData := Some base64Data; outputTranscription := None;
     inputTranscription := None; turnComplete := false; interrupted := true;
     toolCall := None |}.

(** A computation that never calls the transcript callback. *)
Definition mute {A : Type} (m : M A) : Prop :=
  forall this, transcript_updates (log (m this)) = [].

(** The transcript callbacks that carry [isFinal = true]. *)
Definition final_updates (l : list Effect) : list (string * string * bool) :=
  filter (fun u => snd u) (transcript_updates l).

(** What an object that holds nothing may still be handed: a late open
    confirmation, audio, a tool call, a capture window, the close event. *)
Definition lateEvents : list Op :=
  [OnOpen; OnMessage (fst chunk1) (audioMessage (snd chunk1));
   OnMessage (msgEnv 0 8%nat (Responded (Some "abc"))) (toolCallMessage [imageCall]);
   OnAudioProcess [Fin 0; Fin (1 # 2)]; OnClose].

(** What the loop of [handleToolCall] logs for the [create_image] call
    at a position, given what [this.sessionPromise] holds. *)
Definition call_log (sp : option Promise) (env : MsgEnv) (p : nat * FunctionCall)
  : list Effect :=
  match args (snd p) with
  | None => []
  | Some prompt =>
      let o := generateImages env (fst p) prompt in
      match o with
      | Failed _ => [console_error "Image Generation Error:"]
      | Responded _ => []
      end
      ++ match o with
         | Responded (Some bytes) => if truthy bytes then [onImageGenerated bytes] else []
         | _ => []
         end
      ++ match sp with
         | Some (Fulfilled session) =>
             [sendToolResponse session (id (snd p)) (name (snd p)) (responseText o)]
         | _ => []
         end
  end.

Definition is_image_call (c : FunctionCall) : bool := String.eqb (name c) "create_image".

(** A [create_image] call carries its arguments. *)
Definition has_args (c : FunctionCall) : Prop :=
  name c = "create_image" -> args c <> None.

(** The text [handleToolCall] starts from and always overwrites. *)
Definition placeholderText : string := "Image generation failed.".

(** The result text of a tool response is the success text or an error
    text, and not the placeholder. *)
Definition well_formed_result (r : string * string * string) : Prop :=
  (snd r = successText \/ String.prefix "Error: " (snd r) = true) /\
  snd r <> placeholderText.

(* ================================================================== *)
(** ** The text chat: [initializeChat] and [sendMessage] *)
(* ================================================================== *)

(** What [sendMessage] does to the outside: the calls on the SDK, the
    callback it is given and the console. *)
Inductive ChatEffect : Type :=
| chats_create (session : Handle)
| chat_sendMessage (session : Handle) (message : string)
| chat_onImageGenerated (imageData : string)
| chat_sendToolResponse (session : Handle) (name id result : string)
| chat_console_error (text : string).

(** A response of the chat, by its [text] and [functionCalls]. *)
Record ChatResponse : Type := {
  response_text : option string;
  response_functionCalls : option (list FunctionCall)
}.

(** What the platform answers during one [sendMessage]: [ai.chats.create]
    gives a session or throws; [chatSession.sendMessage] and
    [chatSession.sendToolResponse] answer or throw an error that has a
    message or not; the image request has its outcome; and the engine has
    its text for the [TypeError] of reading [prompt] of [undefined]. *)
Record ChatEnv : Type := {
  chatsCreate : string + Handle;
  sendMessageAnswer : string -> option string + ChatResponse;
  imageOutcome : string -> ApiOutcome;
  sendToolResponseAnswer : string -> string -> string -> option string + ChatResponse;
  typeErrorMessage : string
}.

(** How the promise of [sendMessage] settles. *)
Inductive Settled : Type :=
| Resolves (text : string)
| Rejects (error : string).

Record ChatRun : Type := {
  settled : Settled;
  chatSession : option Handle;   (* the module-level session afterwards *)
  chat_log : list ChatEffect
}.

(** [generateImage] as [sendMessage] sees it: it reads no field of any
    object, so it is run on the object the constructor builds; of its log
    only the console line concerns the chat. *)
Definition imageResult (o : ApiOutcome) : ImageGenerationResult :=
  value (generateImage o new_GeminiLive).

Definition imageConsole (o : ApiOutcome) : list ChatEffect :=
  flat_map (fun e => match e with
                     | console_error t => [chat_console_error t]
                     | _ => []
                     end) (log (generateImage o new_GeminiLive)).

(** The [catch] block of [sendMessage]. *)
Definition chat_catch (session : Handle) (sofar : list ChatEffect)
           (message : option string) : ChatRun :=
  {| settled := Resolves ("Sorry, I encountered an error: " ++ js_string message);
     chatSession := Some session;
     chat_log := sofar ++ [chat_console_error "Chat Error:"] |}.

(** [x || fallback] on an optional string. *)
Definition or_else (x : option string) (fallback : string) : string :=
  if truthy_opt x then js_string x else fallback.

(** The [try] block of [sendMessage], on the session in use. *)
Definition sendMessage_try (env : ChatEnv) (message : string) (session : Handle)
           (sofar : list ChatEffect) : ChatRun :=
  let sent := sofar ++ [chat_sendMessage session message] in
  match sendMessageAnswer env message with
  | inl err => chat_catch session sent err
  | inr response =>
      match response_functionCalls response with
      | Some (call :: _) =>
          if String.eqb (name call) "create_image" then
            match args call with
            | None => chat_catch session sent (Some (typeErrorMessage env))
            | Some prompt =>
                let result := imageResult (imageOutcome env prompt) in
                let generated := sent ++ imageConsole (imageOutcome env prompt) in
                let shown :=
                  if success result && truthy_opt (data result)
                  then generated ++ [chat_onImageGenerated (js_string (data result))]
                  else generated in
                let toolResultContent :=
                  if success result && truthy_opt (data result)
                  then "Image generated successfully and displayed to the user."
                  else ("Error: " ++ js_string (error result))%string in
                let responded :=
                  shown ++ [chat_sendToolResponse session (name call) (id call)
                                                  toolResultContent] in
                match sendToolResponseAnswer env (name call) (id call)
                                             toolResultContent with
                | inl err => chat_catch session responded err
                | inr followUpResponse =>
                    {| settled := Resolves (or_else (response_text followUpResponse)
                                              "Here is the image you requested.");
                       chatSession := Some session;
                       chat_log := responded |}
                end
            end
          else
            {| settled := Resolves (or_else (response_text response) "");
               chatSession := Some session; chat_log := sent |}
      | _ =>
          {| settled := Resolves (or_else (response_text response) "");
             chatSession := Some session; chat_log := sent |}
      end
  end.

(** [sendMessage(message, onImageGenerated)], from the module-level
    session it finds.  [initializeChat] runs when there is none; what
    [ai.chats.create] throws is thrown on, outside the [try] block, and the
    session it gives is an object, so the second test of [chatSession]
    never fails. *)
Definition sendMessage (env : ChatEnv) (message : string)
           (session : option Handle) : ChatRun :=
  match session with
  | Some s => sendMessage_try env message s []
  | None =>
      match chatsCreate env with
      | inl e => {| settled := Rejects e; chatSession := None; chat_log := [] |}
      | inr s => sendMessage_try env message s [chats_create s]
      end
  end.

Definition shown_images (l : list ChatEffect) : list string :=
  flat_map (fun e => match e with chat_onImageGenerated d => [d] | _ => [] end) l.

Definition tool_responses (l : list ChatEffect) : list (string * string * string) :=
  flat_map (fun e => match e with
                     | chat_sendToolResponse _ n i r => [(n, i, r)]
                     | _ => []
                     end) l.

(** A chat platform that asks for one image and shows it. *)
Definition chatEnv : ChatEnv :=
  {| chatsCreate := inr 5%nat;
     sendMessageAnswer := fun _ =>
       inr {| response_text := None;
              response_functionCalls := Some [imageCall; imageCall] |};
     imageOutcome := fun _ => Responded (Some "abc");
     sendToolResponseAnswer := fun _ _ _ =>
       inr {| response_text := Some ""; response_functionCalls := None |};
     typeErrorMessage := "Cannot read properties of undefined (reading 'prompt')" |}.

(** A chat platform whose [sendMessage] throws. *)
Definition brokenChatEnv : ChatEnv :=
  {| chatsCreate := inr 5%nat;
     sendMessageAnswer := fun _ => inl (Some "quota exceeded");
     imageOutcome := fun _ => Failed None;
     sendToolResponseAnswer := fun _ _ _ => inl None;
     typeErrorMessage := "Cannot read properties of undefined (reading 'prompt')" |}.
(* ================================================================== *)
(** ** The application: [App.tsx] *)
(* ================================================================== *)

From Stdlib Require DecimalString.

Module App.

Inductive MessageRole : Type := USER | MODEL | SYSTEM.

Inductive ContentType : Type := TEXT | IMAGE | CODE | ERROR.

Record Message : Type := {
  id : string;
  role : MessageRole;
  type : ContentType;
  content : string;
  timestamp : Z
}.

Definition is_USER (r : MessageRole) : bool :=
  match r with USER => true | _ => false end.

Definition is_MODEL (r : MessageRole) : bool :=
  match r with MODEL => true | _ => false end.

(** [Date.now()] is a whole number of milliseconds; [toString] and the
    template literal print it in decimal. *)
Definition toString (now : Z) : string :=
  DecimalString.NilZero.string_of_int (Z.to_int now).

(** *** The transcript callback of [toggleVoiceMode] *)

(** [newMessages[newMessages.length - 1]], [undefined] on an empty
    array. *)
Fixpoint lastMsg (newMessages : list Message) : option Message :=
  match newMessages with
  | [] => None
  | [m] => Some m
  | _ :: r => lastMsg r
  end.

(** [lastMsg?.id === s]. *)
Definition id_is (s : string) (lastMsg : option Message) : bool :=
  match lastMsg with Some m => String.eqb (id m) s | None => false end.

(** [lastMsg.role === r], for a [lastMsg] that is there. *)
Definition role_is (r : MessageRole -> bool) (lastMsg : option Message) : bool :=
  match lastMsg with Some m => r (role m) | None => false end.

Definition set_content (text : string) (m : Message) : Message :=
  {| id := id m; role := role m; type := type m; content := text;
     timestamp := timestamp m |}.

(** [lastMsg.content = text]: [lastMsg] is the object the array holds
    last, so the array shows the new content there. *)
Fixpoint write_last (text : string) (newMessages : list Message) : list Message :=
  match newMessages with
  | [] => []
  | [m] => [set_content text m]
  | m :: r => m :: write_last text r
  end.

Definition liveBubble (i : string) (r : MessageRole) (text : string) (now : Z)
  : Message :=
  {| id := i; role := r; type := TEXT; content := text; timestamp := now |}.

(** The block [if (userText) { ... }]. *)
Definition handleUserText (userText : string) (now : Z)
           (newMessages : list Message) : list Message :=
  if truthy userText then
    let last := lastMsg newMessages in
    if not_null last && role_is is_USER last && id_is "live-user" last then
      write_last userText newMessages
    else if negb (not_null last) || negb (role_is is_USER last)
            || negb (id_is "live-user" last) then
      if id_is "live-model" last then
        newMessages ++ [liveBubble "live-user" USER userText now]
      else if id_is "live-user" last then
        write_last userText newMessages
      else
        newMessages ++ [liveBubble "live-user" USER userText now]
    else newMessages
  else newMessages.

(** The block [if (modelText) { ... }]. *)
Definition handleModelText (modelText : string) (now : Z)
           (newMessages : list Message) : list Message :=
  if truthy modelText then
    let last := lastMsg newMessages in
    if not_null last && role_is is_MODEL last && id_is "live-model" last then
      write_last modelText newMessages
    else
      newMessages ++ [liveBubble "live-model" MODEL modelText now]
  else newMessages.

(** The function of [newMessages.map] in the final update. *)
Definition finalize (now : Z) (m : Message) : Message :=
  if String.eqb (id m) "live-user" then
    {| id := "final-" ++ toString now ++ "-user"; role := role m; type := type m;
       content := content m; timestamp := timestamp m |}
  else if String.eqb (id m) "live-model" then
    {| id := "final-" ++ toString now ++ "-model"; role := role m; type := type m;
       content := content m; timestamp := timestamp m |}
  else m.

(** The updater the transcript callback hands to [setMessages], by the
    array it returns; [now] is what [Date.now()] shows when it runs. *)
Definition transcriptUpdater (userText modelText : string) (isFinal : bool)
           (now : Z) (prev : list Message) : list Message :=
  let newMessages := handleModelText modelText now
                       (handleUserText userText now prev) in
  if isFinal then map (finalize now) newMessages else newMessages.

(** The message of the image callbacks, from the two readings of
    [Date.now()]. *)
Definition imageMsg (imageData : string) (now1 now2 : Z) : Message :=
  {| id := toString now1 ++ "-img"; role := MODEL; type := IMAGE;
     content := imageData; timestamp := now2 |}.

(** The messages after the transcript callbacks of a session log, the
    [i]-th updater running at [clock i]. *)
Fixpoint showTranscripts (clock : nat -> Z) (i : nat)
         (updates : list (string * string * bool)) (prev : list Message)
  : list Message :=
  match updates with
  | [] => prev
  | (userText, modelText, isFinal) :: r =>
      showTranscripts clock (S i) r
        (transcriptUpdater userText modelText isFinal (clock i) prev)
  end.

(** A bubble that the next update may still rewrite. *)
Definition live (m : Message) : Prop := id m = "live-user" \/ id m = "live-model".

(** What of a message no update of the transcript ever changes. *)
Definition header (m : Message) : string * MessageRole * ContentType * Z :=
  (id m, role m, type m, timestamp m).

(** *** The state of the component *)

Record AppState : Type := {
  messages : list Message;
  inputValue : string;
  isLoading : bool;
  isVoiceActive : bool;
  selectedVoice : string;
  liveClientRef : option GeminiLive
}.

(** *** [handleSendMessage] *)

(** The white space and line terminators [trim] strips, among the code
    units below 256 that a character of the model stands for. *)
Definition isWhiteSpace (c : ascii) : bool :=
  let n := nat_of_ascii c in
  ((9 <=? n) && (n <=? 13) || (n =? 32) || (n =? 160))%nat.

Fixpoint trimStart (s : string) : string :=
  match s with
  | EmptyString => EmptyString
  | String c r => if isWhiteSpace c then trimStart r else s
  end.

Fixpoint trimEnd (s : string) : string :=
  match s with
  | EmptyString => EmptyString
  | String c r =>
      match trimEnd r with
      | EmptyString => if isWhiteSpace c then EmptyString else String c EmptyString
      | r' => String c r'
      end
  end.

Definition trim (s : string) : string := trimEnd (trimStart s).

Definition apology : string :=
  "I apologize, but I encountered an error processing your request.".

(** The messages of [handleImageGenerated], one for each call of the
    callback, each from two readings of the clock. *)
Fixpoint imageMsgs (clock : nat -> Z) (i : nat) (images : list string)
  : list Message :=
  match images with
  | [] => []
  | imageData :: r =>
      imageMsg imageData (clock i) (clock (S i)) :: imageMsgs clock (S (S i)) r
  end.

Record Sent : Type := {
  appState : AppState;
  chat : option ChatRun   (* the run of [sendMessage], when it was called *)
}.

(** [handleSendMessage()], on the chat session the module holds; [clock]
    gives the readings of [Date.now()] in order.  Every [setMessages]
    appends to what it finds. *)
Definition handleSendMessage (env : ChatEnv) (clock : nat -> Z)
           (session : option Handle) (st : AppState) : Sent :=
  if negb (truthy (trim (inputValue st))) || isLoading st then
    {| appState := st; chat := None |}
  else
    let userText := trim (inputValue st) in
    let userMsg := {| id := toString (clock 0%nat); role := USER; type := TEXT;
                      content := userText; timestamp := clock 1%nat |} in
    let run := sendMessage env userText session in
    let shown := imageMsgs clock 2 (shown_images (chat_log run)) in
    let k := (2 + 2 * List.length (shown_images (chat_log run)))%nat in
    let answer :=
      match settled run with
      | Resolves responseText =>
          if truthy responseText && truthy (trim responseText) then
            [{| id := toString (clock k + 1); role := MODEL; type := TEXT;
                content := responseText; timestamp := clock (S k) |}]
          else []
      | Rejects _ =>
          [{| id := toString (clock k); role := MODEL; type := TEXT;
              content := apology; timestamp := clock (S k) |}]
      end in
    {| appState := {| messages := messages st ++ userMsg :: shown ++ answer;
                      inputValue := ""; isLoading := false;
                      isVoiceActive := isVoiceActive st;
                      selectedVoice := selectedVoice st;
                      liveClientRef := liveClientRef st |};
       chat := Some run |}.

(** *** [toggleVoiceMode] *)

(** [isVoiceActive] after the status callbacks of a log:
    [(active) => setIsVoiceActive(active)]. *)
Definition voiceAfter (l : list Effect) (active : bool) : bool :=
  fold_left (fun _ b => b) (statuses l) active.

Record Toggled : Type := {
  toggled : AppState;
  platform : list Effect;     (* what the live client did meanwhile *)
  failure : option string     (* what [connect] threw, reported by [alert] *)
}.

Definition set_voice (active : bool) (client : option GeminiLive) (st : AppState)
  : AppState :=
  {| messages := messages st; inputValue := inputValue st;
     isLoading := isLoading st; isVoiceActive := active;
     selectedVoice := selectedVoice st; liveClientRef := client |}.

(** [toggleVoiceMode()]. *)
Definition toggleVoiceMode (env : ConnectEnv) (st : AppState) : Toggled :=
  if isVoiceActive st then
    match liveClientRef st with
    | Some client =>
        let r := disconnect client in
        {| toggled := set_voice false (Some (final r)) st;
           platform := log r; failure := None |}
    | None =>
        {| toggled := set_voice false None st; platform := []; failure := None |}
    end
  else
    let client := match liveClientRef st with
                  | Some c => c
                  | None => new_GeminiLive
                  end in
    let r := connect env (selectedVoice st) client in
    match value r with
    | Normal =>
        {| toggled := set_voice (voiceAfter (log r) true) (Some (final r)) st;
           platform := log r; failure := None |}
    | Throw e =>
        {| toggled := set_voice false (Some (final r)) st;
           platform := log r ++ [console_error "Failed to start voice:"];
           failure := Some e |}
    end.

(** A state of the component with voice off and text typed in. *)
Definition idle : AppState :=
  {| messages := [ {| id := "init"; role := MODEL; type := TEXT;
                      content := "Hello!"; timestamp := 0 |} ];
     inputValue := "  draw a kite ";
     isLoading := false; isVoiceActive := false; selectedVoice := "Kore";
     liveClientRef := None |}.

End App.

(* ================================================================== *)
(** ** The base64 round trip *)
(* ================================================================== *)

Section Triples.
Variable A : Type.
Variable P : list A -> Prop.
Hypothesis P0 : P [].
Hypothesis P1 : forall a, P [a].
Hypothesis P2 : forall a b, P [a; b].
Hypothesis P3 : forall a b c r, P r -> P (a :: b :: c :: r).

Fixpoint list_ind3 (l : list A) : P l :=
  match l with
  | [] => P0
  | [a] => P1 a
  | [a; b] => P2 a b
  | a :: b :: c :: r => P3 a b c (list_ind3 r)
  end.
End Triples.

Module Base64Facts.
Import Base64.

Ltac euclid := Z.div_mod_to_equations; lia.
Ltac bytes_eq := repeat (apply f_equal2; [euclid|]); reflexivity.

Definition sextet_ok (k : nat) : bool :=
  let n := Z.of_nat k in
  match b64value (b64char n) with
  | Some m => (m =? n)%Z
  | None => false
  end
  && negb (is_whitespace (b64char n))
  && negb (Ascii.eqb (b64char n) "=").

Lemma sextet_table : forallb sextet_ok (seq 0 64) = true.
Proof. vm_compute. reflexivity. Qed.

Lemma sextet_ok_all (n : Z) : is_sextet n -> sextet_ok (Z.to_nat n) = true.
Proof.
  intros [H0 H1].
  apply (proj1 (forallb_forall sextet_ok (seq 0 64)) sextet_table).
  apply in_seq. lia.
Qed.

Lemma b64value_b64char (n : Z) : is_sextet n -> b64value (b64char n) = Some n.
Proof.
  intros H. pose proof (sextet_ok_all H) as K. unfold sextet_ok in K.
  rewrite Z2Nat.id in K by (destruct H; lia).
  apply andb_prop in K. destruct K as [K _].
  apply andb_prop in K. destruct K as [K _].
  destruct (b64value (b64char n)) as [m|]; [|discriminate].
  apply Z.eqb_eq in K. now subst.
Qed.

Lemma b64char_not_whitespace (n : Z) : is_sextet n -> is_whitespace (b64char n) = false.
Proof.
  intros H. pose proof (sextet_ok_all H) as K. unfold sextet_ok in K.
  rewrite Z2Nat.id in K by (destruct H; lia).
  apply andb_prop in K. destruct K as [K _].
  apply andb_prop in K. destruct K as [_ K].
  now apply negb_true_iff in K.
Qed.

Lemma b64char_not_pad (n : Z) : is_sextet n -> Ascii.eqb (b64char n) "=" = false.
Proof.
  intros H. pose proof (sextet_ok_all H) as K. unfold sextet_ok in K.
  rewrite Z2Nat.id in K by (destruct H; lia).
  apply andb_prop in K. destruct K as [_ K].
  now apply negb_true_iff in K.
Qed.

Lemma charCodeAt_byte (c : ascii) : is_byte (charCodeAt c).
Proof.
  unfold is_byte, charCodeAt. pose proof (N_ascii_bounded c). lia.
Qed.

Lemma charCodeAt_fromCharCode (b : Z) : is_byte b -> charCodeAt (fromCharCode b) = b.
Proof.
  intros [H0 H1]. unfold charCodeAt, fromCharCode.
  rewrite N_ascii_embedding by lia. lia.
Qed.

Lemma fromCharCode_charCodeAt (c : ascii) : fromCharCode (charCodeAt c) = c.
Proof.
  unfold charCodeAt, fromCharCode. rewrite N2Z.id. apply ascii_N_embedding.
Qed.

Lemma btoa_groups_split (bs : list Z) :
  btoa_groups bs = map b64char (enc_sextets bs) ++ enc_pad bs.
Proof.
  induction bs as [| a | a b | a b c r IH] using list_ind3; try reflexivity.
  cbn [btoa_groups enc_sextets enc_pad map app]. now rewrite IH.
Qed.

Lemma enc_sextets_range (bs : list Z) :
  Forall is_byte bs -> Forall is_sextet (enc_sextets bs).
Proof.
  unfold is_byte, is_sextet.
  induction bs as [| a | a b | a b c r IH] using list_ind3; intros H;
    cbn [enc_sextets].
  - constructor.
  - inversion_clear H as [|? ? Ha _].
    repeat constructor; Z.div_mod_to_equations; lia.
  - inversion_clear H as [|? ? Ha H']. inversion_clear H' as [|? ? Hb _].
    repeat constructor; Z.div_mod_to_equations; lia.
  - inversion_clear H as [|? ? Ha H']. inversion_clear H' as [|? ? Hb H''].
    inversion_clear H'' as [|? ? Hc Hr].
    repeat (constructor; [Z.div_mod_to_equations; lia|]). now apply IH.
Qed.

Lemma atob_groups_enc (bs : list Z) :
  Forall is_byte bs -> atob_groups (enc_sextets bs) = bs.
Proof.
  unfold is_byte.
  induction bs as [| a | a b | a b c r IH] using list_ind3; intros H;
    cbn [enc_sextets atob_groups].
  - reflexivity.
  - inversion_clear H as [|? ? Ha _].
    bytes_eq.
  - inversion_clear H as [|? ? Ha H']. inversion_clear H' as [|? ? Hb _].
    bytes_eq.
  - inversion_clear H as [|? ? Ha H']. inversion_clear H' as [|? ? Hb H''].
    inversion_clear H'' as [|? ? Hc Hr].
    rewrite (IH Hr). bytes_eq.
Qed.

Lemma sextets_map_b64char (ss : list Z) :
  Forall is_sextet ss -> sextets (map b64char ss) = Some ss.
Proof.
  induction 1 as [| s ss Hs _ IH]; cbn [map sextets]; [reflexivity|].
  now rewrite (b64value_b64char Hs), IH.
Qed.

Lemma mod4_step (n : nat) : (S (S (S (S n))) mod 4 = n mod 4)%nat.
Proof.
  replace (S (S (S (S n)))) with (n + 1 * 4)%nat by lia.
  apply Nat.Div0.mod_add.
Qed.

Lemma enc_length (bs : list Z) :
  (List.length (enc_sextets bs ) mod 4 <> 1)%nat /\
  ((List.length (enc_sextets bs) + List.length (enc_pad bs)) mod 4 = 0)%nat.
Proof.
  induction bs as [| a | a b | a b c r IH] using list_ind3;
    try (split; [discriminate | reflexivity]).
  cbn [enc_sextets enc_pad List.length Nat.add]. now rewrite !mod4_step.
Qed.

Lemma enc_pad_cases (bs : list Z) :
  enc_pad bs = [] \/ enc_pad bs = ["="]%char \/ enc_pad bs = ["="; "="]%char.
Proof.
  induction bs as [| a | a b | a b c r IH] using list_ind3; cbn [enc_pad]; auto.
Qed.

Lemma filter_keep_all {A : Type} (f : A -> bool) (l : list A) :
  Forall (fun x => f x = true) l -> filter f l = l.
Proof.
  induction 1 as [| x l Hx _ IH]; cbn [filter]; [reflexivity|].
  now rewrite Hx, IH.
Qed.

Lemma strip_padding_body (body pad : list ascii) :
  Forall (fun c => Ascii.eqb c "=" = false) body ->
  pad = [] \/ pad = ["="]%char \/ pad = ["="; "="]%char ->
  strip_padding (body ++ pad) = body.
Proof.
  intros Hbody Hpad. apply Forall_rev in Hbody.
  unfold strip_padding. rewrite rev_app_distr.
  destruct Hpad as [-> | [-> | ->]]; cbn [rev app].
  - rewrite app_nil_r.
    destruct (rev body) as [| c1 [| c2 r]]; [reflexivity | |];
      inversion_clear Hbody as [| ? ? Hc _]; now rewrite Hc.
  - destruct (rev body) as [| c2 r] eqn:E.
    + cbn. apply (f_equal (@rev ascii)) in E. rewrite rev_involutive in E.
      now subst.
    + inversion_clear Hbody as [| ? ? Hc _]. cbn [app].
      rewrite Ascii.eqb_refl, Hc.
      change (rev r ++ [c2]) with (rev (c2 :: r)). rewrite <- E.
      apply rev_involutive.
  - cbn [app]. rewrite Ascii.eqb_refl. apply rev_involutive.
Qed.

(** [atob] undoes [btoa] on every binary string. *)
Lemma atob_btoa (binary : string) : atob (btoa binary) = Some binary.
Proof.
  unfold atob, btoa.
  set (bs := map charCodeAt (list_ascii_of_string binary)).
  assert (Hbs : Forall is_byte bs).
  { apply Forall_forall. intros b Hb. apply in_map_iff in Hb.
    destruct Hb as [c [<- _]]. apply charCodeAt_byte. }
  pose proof (enc_sextets_range Hbs) as Hss.
  rewrite list_ascii_of_string_of_list_ascii, btoa_groups_split.
  assert (Hpad : Forall (fun c => is_whitespace c = false) (enc_pad bs)).
  { destruct (enc_pad_cases bs) as [-> | [-> | ->]]; repeat constructor. }
  rewrite filter_keep_all.
  2:{ apply Forall_app. split.
      - apply Forall_forall. intros c Hc. apply in_map_iff in Hc.
        destruct Hc as [n [<- Hn]]. rewrite b64char_not_whitespace; [reflexivity|].
        now apply (proj1 (Forall_forall _ _) Hss).
      - apply Forall_forall. intros c Hc.
        now rewrite (proj1 (Forall_forall _ _) Hpad c Hc). }
  destruct (enc_length bs) as [L1 L2].
  rewrite length_app, length_map, L2. cbn [Nat.eqb].
  rewrite strip_padding_body.
  2:{ apply Forall_forall. intros c Hc. apply in_map_iff in Hc.
      destruct Hc as [n [<- Hn]]. apply b64char_not_pad.
      now apply (proj1 (Forall_forall _ _) Hss). }
  2:{ apply enc_pad_cases. }
  rewrite length_map.
  destruct (Nat.eqb_spec (List.length (enc_sextets bs) mod 4) 1) as [E|_];
    [contradiction|].
  rewrite (sextets_map_b64char Hss), (atob_groups_enc Hbs).
  unfold bs. rewrite map_map.
  rewrite (map_ext _ (fun c => c) fromCharCode_charCodeAt), map_id.
  now rewrite string_of_list_ascii_of_string.
Qed.

End Base64Facts.

(* ================================================================== *)
(** ** The PCM round trip *)
(* ================================================================== *)

Lemma append_empty_r (s : string) : (s ++ "")%string = s.
Proof. induction s as [| c s IH]; cbn; [reflexivity | now rewrite IH]. Qed.

Lemma append_snoc (s t : string) (c : ascii) :
  ((s ++ String c "") ++ t)%string = (s ++ String c t)%string.
Proof. induction s as [| d s IH]; cbn; [reflexivity | now rewrite IH]. Qed.

Lemma binary_of_bytes_spec (bytes : list Z) :
  binary_of_bytes bytes = string_of_list_ascii (map Base64.fromCharCode bytes).
Proof.
  unfold binary_of_bytes.
  enough (G : forall acc,
             fold_left (fun binary b => (binary ++ String (Base64.fromCharCode b) "")%string)
                       bytes acc
             = (acc ++ string_of_list_ascii (map Base64.fromCharCode bytes))%string)
    by apply (G ""%string).
  induction bytes as [| b r IH]; intros acc; cbn [fold_left map string_of_list_ascii].
  - now rewrite append_empty_r.
  - now rewrite IH, append_snoc.
Qed.

Lemma bytes_of_int16_bytes (vs : list Z) : Forall is_byte (bytes_of_int16 vs).
Proof.
  unfold is_byte.
  induction vs as [| v vs IH]; cbn [bytes_of_int16 flat_map app]; [constructor|].
  repeat (constructor; [Z.div_mod_to_equations; lia|]). exact IH.
Qed.

Lemma int16_of_pair_bytes (v : Z) :
  is_int16 v -> int16_of_pair (v mod 256) ((v / 256) mod 256) = v.
Proof.
  unfold is_int16, int16_of_pair. intros H.
  destruct (Z.ltb_spec (v mod 256 + 256 * ((v / 256) mod 256)) 32768);
    Z.div_mod_to_equations; lia.
Qed.

Lemma int16_of_bytes_of_int16 (vs : list Z) :
  Forall is_int16 vs -> int16_of_bytes (bytes_of_int16 vs) = Some vs.
Proof.
  induction 1 as [| v vs Hv _ IH]; [reflexivity|].
  cbn [bytes_of_int16 flat_map app int16_of_bytes].
  fold (bytes_of_int16 vs). now rewrite IH, (int16_of_pair_bytes Hv).
Qed.

Lemma wrap16_int16 (z : Z) : is_int16 (wrap16 z).
Proof. unfold is_int16, wrap16. Z.div_mod_to_equations; lia. Qed.

Lemma wrap16_id (z : Z) : is_int16 z -> wrap16 z = z.
Proof. unfold is_int16, wrap16. intros H. Z.div_mod_to_equations; lia. Qed.

Lemma ToInt16_int16 (x : number) : is_int16 (ToInt16 x).
Proof.
  destruct x; cbn [ToInt16]; try apply wrap16_int16; unfold is_int16; lia.
Qed.

(** Truncation stays within one unit of its argument, on the side of zero. *)
Lemma Qtrunc_spec (v : Q) :
  (0 <= v /\ inject_Z (Qtrunc v) <= v /\ v < inject_Z (Qtrunc v) + 1) \/
  (v < 0 /\ inject_Z (Qtrunc v) - 1 < v /\ v <= inject_Z (Qtrunc v)).
Proof.
  unfold Qtrunc. destruct (Qle_bool 0 v) eqn:E.
  - left. apply Qle_bool_iff in E. split; [exact E|]. split.
    + apply Qfloor_le.
    + pose proof (Qlt_floor v) as H. now rewrite inject_Z_plus in H.
  - right. assert (Hv : v < 0).
    { apply Qnot_le_lt. intros H. apply Qle_bool_iff in H. congruence. }
    split; [exact Hv|]. split.
    + pose proof (Qceiling_lt v) as H.
      unfold Z.sub in H. now rewrite inject_Z_plus in H.
    + apply Qle_ceiling.
Qed.

Lemma Qtrunc_between (a b : Z) (v : Q) :
  (a <= 0 <= b)%Z -> inject_Z a <= v -> v <= inject_Z b ->
  (a <= Qtrunc v <= b)%Z.
Proof.
  intros Hab Ha Hb. unfold Qtrunc. destruct (Qle_bool 0 v) eqn:E.
  - apply Qle_bool_iff in E.
    pose proof (Qfloor_resp_le _ _ E) as H0. pose proof (Qfloor_resp_le _ _ Hb) as H1.
    rewrite Qfloor_Z in H1. change (Qfloor 0) with 0%Z in H0. lia.
  - assert (Hv : v <= 0).
    { apply Qlt_le_weak, Qnot_le_lt. intros H. apply Qle_bool_iff in H. congruence. }
    pose proof (Qceiling_resp_le _ _ Hv) as H0. pose proof (Qceiling_resp_le _ _ Ha) as H1.
    rewrite Qceiling_Z in H1. change (Qceiling 0) with 0%Z in H0. lia.
Qed.

(** The clamped, scaled value of a sample in [-1, 1]. *)
Lemma clamp_spec (q : Q) :
  -1 <= q -> q <= 1 ->
  let v := Qmax (-32768) (Qmin 32767 (q * 32768)) in
  -32768 <= v /\ v <= 32767 /\
  (v == q * 32768 \/ (v == 32767 /\ 32767 < q * 32768)).
Proof.
  intros H0 H1 v. subst v.
  destruct (Q.max_spec (-32768) (Qmin 32767 (q * 32768))) as [[A ->] | [A ->]];
    destruct (Q.min_spec 32767 (q * 32768)) as [[B E] | [B E]];
    rewrite ?E in *; repeat split; lra.
Qed.

Lemma Qtrunc_resp_le (v w : Q) : v <= w -> (Qtrunc v <= Qtrunc w)%Z.
Proof.
  intros H. unfold Qtrunc.
  destruct (Qle_bool 0 v) eqn:Ev; destruct (Qle_bool 0 w) eqn:Ew.
  - now apply Qfloor_resp_le.
  - apply Qle_bool_iff in Ev.
    assert (K : 0 <= w) by lra. apply Qle_bool_iff in K. congruence.
  - apply Qle_bool_iff in Ew.
    assert (Hv : v <= 0).
    { apply Qlt_le_weak, Qnot_le_lt. intros K. apply Qle_bool_iff in K. congruence. }
    pose proof (Qceiling_resp_le _ _ Hv) as H0.
    pose proof (Qfloor_resp_le _ _ Ew) as H1.
    change (Qceiling 0) with 0%Z in H0. change (Qfloor 0) with 0%Z in H1. lia.
  - now apply Qceiling_resp_le.
Qed.

Lemma quantize_error (q : Q) :
  -1 <= q -> q <= 1 ->
  within_quantum (Fin q) (sample_of_int16 (quantize (Fin q))).
Proof.
  intros H0 H1.
  unfold within_quantum, sample_of_int16, quantize.
  cbn [times32768 Math_min Math_max ToInt16].
  destruct (clamp_spec H0 H1) as [A [B C]].
  set (v := Qmax (-32768) (Qmin 32767 (q * 32768))) in *.
  assert (R : is_int16 (Qtrunc v)).
  { apply (@Qtrunc_between (-32768) 32767 v); [lia | exact A | exact B]. }
  rewrite (wrap16_id R). clearbody v.
  apply Qabs_Qle_condition.
  unfold Qdiv. change (/ 32768) with (1 # 32768).
  destruct C as [E | [E G]].
  - destruct (Qtrunc_spec v) as [[P1 [P2 P3]] | [P1 [P2 P3]]]; split; lra.
  - assert (L : Qtrunc v = 32767%Z).
    { assert (L1 : v <= 32767) by lra. assert (L2 : 32767 <= v) by lra.
      apply Qtrunc_resp_le in L1, L2.
      change (Qtrunc 32767) with 32767%Z in L1, L2. lia. }
    rewrite L. change (inject_Z 32767) with 32767. split; lra.
Qed.

Lemma quantize_int16 (x : number) : is_int16 (quantize x).
Proof. apply ToInt16_int16. Qed.

Lemma map_fixed {A : Type} (f : A -> A) (l : list A) :
  Forall (fun x => f x = x) l -> map f l = l.
Proof.
  induction 1 as [| x l Hx _ IH]; cbn [map]; [reflexivity | now rewrite Hx, IH].
Qed.

(** The 16-bit data [playAudio] reads back is the data [encodeAudio] wrote. *)
Lemma decodeInt16_encodeAudio (inputData : list number) :
  decodeInt16 (encodeAudio inputData) = Some (map quantize inputData).
Proof.
  unfold decodeInt16, encodeAudio. fold quantize.
  rewrite Base64Facts.atob_btoa, binary_of_bytes_spec.
  rewrite list_ascii_of_string_of_list_ascii, map_map.
  rewrite map_fixed.
  - apply int16_of_bytes_of_int16, Forall_forall. intros v Hv.
    apply in_map_iff in Hv. destruct Hv as [x [<- _]]. apply quantize_int16.
  - eapply Forall_impl; [|apply bytes_of_int16_bytes].
    intros b Hb. now apply Base64Facts.charCodeAt_fromCharCode.
Qed.

Lemma decodeAudio_encodeAudio (x : list number) :
  x <> [] ->
  decodeAudio (encodeAudio x) = Some (map sample_of_int16 (map quantize x)).
Proof.
  intros Hx. unfold decodeAudio. rewrite decodeInt16_encodeAudio, length_map.
  destruct x as [| a r]; [congruence | reflexivity].
Qed.

(** C1, as stated, fails on the empty sequence: [encodeAudio] gives the
    empty text, and for it the decoding half of [playAudio] gives no
    sequence at all, [createBuffer] refusing the length 0; [playAudio]
    logs the error and schedules nothing, and [handleMessage] does not
    even call it on an empty text. *)
Lemma pcm_round_trip_empty_counterexample :
  Forall in_unit_range [] /\
  ~ (exists y : list number,
        decodeAudio (encodeAudio []) = Some y /\ List.length y = 0%nat) /\
  encodeAudio [] = "" /\
  log (playAudio (fst chunk1) (encodeAudio []) connected)
  = [console_error "Error playing audio chunk"] /\
  log (handleMessage (fst chunk1) (audioMessage (encodeAudio [])) connected) = [].
Proof.
  split; [apply Forall_nil | split].
  - intros [y [H _]]. vm_compute in H. discriminate H.
  - repeat split; vm_compute; reflexivity.
Qed.

(** C1 (amended).  For every sequence of floats in [-1, 1] that is not
    empty, decoding the text [encodeAudio] produces gives a sequence of
    the same length, and its i-th sample differs from the i-th input
    sample by at most 1/32768. *)
Theorem pcm_round_trip (x : list number) :
  x <> [] ->
  Forall in_unit_range x ->
  exists y : list number,
    decodeAudio (encodeAudio x) = Some y /\
    List.length y = List.length x /\
    forall (i : nat) (xi yi : number),
      nth_error x i = Some xi -> nth_error y i = Some yi ->
      within_quantum xi yi.
Proof.
  intros Hne Hx.
  exists (map sample_of_int16 (map quantize x)).
  split; [| split].
  - now apply decodeAudio_encodeAudio.
  - now rewrite !length_map.
  - intros i xi yi Hxi Hyi.
    rewrite map_map, nth_error_map, Hxi in Hyi. cbn in Hyi.
    injection Hyi as <-.
    apply nth_error_In in Hxi.
    pose proof (proj1 (Forall_forall _ _) Hx xi Hxi) as R.
    destruct xi as [| | q |]; try contradiction.
    destruct R as [R0 R1]. now apply quantize_error.
Qed.

Lemma pcm_round_trip_witness :
  [Fin 1; Fin (-1); Fin (1 # 3); Fin 0] <> [] /\
  Forall in_unit_range [Fin 1; Fin (-1); Fin (1 # 3); Fin 0] /\
  exists y : list number,
    decodeAudio (encodeAudio [Fin 1; Fin (-1); Fin (1 # 3); Fin 0]) = Some y /\
    List.length y = 4%nat /\
    forall (i : nat) (xi yi : number),
      nth_error [Fin 1; Fin (-1); Fin (1 # 3); Fin 0] i = Some xi ->
      nth_error y i = Some yi ->
      within_quantum xi yi.
Proof.
  assert (N : [Fin 1; Fin (-1); Fin (1 # 3); Fin 0] <> []) by discriminate.
  assert (H : Forall in_unit_range [Fin 1; Fin (-1); Fin (1 # 3); Fin 0]).
  { repeat (apply Forall_cons; [split; unfold Qle; simpl; lia |]).
    apply Forall_nil. }
  split; [exact N | split; [exact H | exact (pcm_round_trip N H)]].
Defined.

(* ================================================================== *)
(** ** Playback scheduling *)
(* ================================================================== *)

Unset Implicit Arguments.

Lemma forEach_emit {A : Type} (f : A -> Effect) (xs : list A) (this : GeminiLive) :
  forEach xs (fun x => emit (f x)) this
  = {| value := tt; final := this; log := map f xs |}.
Proof.
  induction xs as [| x r IH]; [reflexivity|].
  cbn [forEach]. unfold bind. cbn [emit final value log]. rewrite IH. reflexivity.
Qed.

(** What [playAudio] does with a chunk it can decode. *)
Lemma playAudio_decoded (this : GeminiLive) (env : MsgEnv) (d : string)
      (buffer : AudioBuffer) :
  audioContext this <> None -> audio_buffer d = Some buffer ->
  let start := Qmax (currentTime env) (nextStartTime this) in
  let r := playAudio env d this in
  log r = [source_start (createBufferSource env) buffer start] /\
  nextStartTime (final r) = start + duration buffer /\
  audioContext (final r) = audioContext this /\
  sources (final r) = set_add Nat.eq_dec (createBufferSource env) (sources this).
Proof.
  intros Hctx Hbuf. unfold audio_buffer in Hbuf. unfold playAudio.
  cbn [bind get value final log].
  destruct (audioContext this) as [ctx|] eqn:E; [|congruence].
  destruct (decodeInt16 d) as [dataInt16|]; [|discriminate].
  destruct (createBuffer 1 (List.length dataInt16) 24000) as [b|]; [|discriminate].
  injection Hbuf as <-. cbn. now rewrite E.
Qed.

(** A chunk [playAudio] cannot decode is logged and skipped. *)
Lemma playAudio_skipped (this : GeminiLive) (env : MsgEnv) (d : string) :
  audio_buffer d = None -> final (playAudio env d this) = this.
Proof.
  intros Hbuf. unfold audio_buffer in Hbuf. unfold playAudio.
  cbn [bind get value final log].
  destruct (audioContext this) as [ctx|]; [|reflexivity].
  destruct (decodeInt16 d) as [dataInt16|]; [|reflexivity].
  destruct (createBuffer 1 (List.length dataInt16) 24000) as [b|];
    [discriminate | reflexivity].
Qed.

Lemma scheduled_app (l1 l2 : list Effect) :
  scheduled (l1 ++ l2) = scheduled l1 ++ scheduled l2.
Proof. apply flat_map_app. Qed.

Lemma enqueue_keeping_up (chunks : list (MsgEnv * string)) :
  forall this : GeminiLive,
    audioContext this <> None -> Forall decodes chunks -> keeps_up chunks this ->
    let units := scheduled (log (enqueue_all chunks this)) in
    map unit_source units = map (fun c => createBufferSource (fst c)) chunks /\
    gapless units /\
    match units with
    | u :: _ => unit_start u == nextStartTime this
    | [] => True
    end.
Proof.
  induction chunks as [| c r IH]; intros this Hctx Hdec Hup.
  - cbn. auto.
  - inversion_clear Hdec as [| ? ? Hc Hr]. destruct Hup as [Hnow Hup].
    unfold decodes in Hc.
    destruct (audio_buffer (snd c)) as [buffer|] eqn:Hbuf; [|congruence].
    destruct (playAudio_decoded this (fst c) (snd c) buffer Hctx Hbuf) as [L [T [C _]]].
    assert (Hctx1 : audioContext (final (playAudio (fst c) (snd c) this)) <> None)
      by now rewrite C.
    specialize (IH _ Hctx1 Hr Hup). cbv zeta in IH.
    destruct IH as [I1 [I2 I3]].
    unfold enqueue_all in *. cbn [forEach bind log value final].
    rewrite scheduled_app, L. cbn [scheduled flat_map app map].
    fold (scheduled (log (forEach r (fun c0 => playAudio (fst c0) (snd c0))
                                  (final (playAudio (fst c) (snd c) this))))).
    split; [now rewrite I1 | split].
    + cbn [gapless unit_start unit_duration]. split; [| exact I2].
      destruct (scheduled _) as [| u2 us]; [exact I|].
      rewrite I3, T. reflexivity.
    + cbn [unit_start]. now apply Q.max_r.
Qed.

(** C2 (gapless scheduling).  Every enqueue of a chunk that decodes
    starts its unit at [max(currentTime, nextStartTime)], never before the
    clock reading, and leaves [nextStartTime] at that start plus the
    duration of the chunk; and when N chunks are enqueued with the clock
    not overtaking the cursor, the units are scheduled in enqueue order,
    each starting when the one before it ends. *)
Theorem playback_gapless :
  (forall (this : GeminiLive) (env : MsgEnv) (d : string) (buffer : AudioBuffer),
      audioContext this <> None -> audio_buffer d = Some buffer ->
      let start := Qmax (currentTime env) (nextStartTime this) in
      let r := playAudio env d this in
      log r = [source_start (createBufferSource env) buffer start] /\
      currentTime env <= start /\
      nextStartTime (final r) = start + duration buffer) /\
  (forall (this : GeminiLive) (c : MsgEnv * string) (chunks : list (MsgEnv * string)),
      audioContext this <> None -> Forall decodes (c :: chunks) ->
      keeps_up chunks (final (playAudio (fst c) (snd c) this)) ->
      let units := scheduled (log (enqueue_all (c :: chunks) this)) in
      map unit_source units = map (fun c => createBufferSource (fst c)) (c :: chunks) /\
      gapless units).
Proof.
  split.
  - intros this env d buffer Hctx Hbuf start r.
    destruct (playAudio_decoded this env d buffer Hctx Hbuf) as [L [T _]].
    split; [exact L | split; [apply Q.le_max_l | exact T]].
  - intros this c chunks Hctx Hdec Hup.
    inversion_clear Hdec as [| ? ? Hc Hr]. unfold decodes in Hc.
    destruct (audio_buffer (snd c)) as [buffer|] eqn:Hbuf; [|congruence].
    destruct (playAudio_decoded this (fst c) (snd c) buffer Hctx Hbuf) as [L [T [C _]]].
    assert (Hctx1 : audioContext (final (playAudio (fst c) (snd c) this)) <> None)
      by now rewrite C.
    destruct (enqueue_keeping_up chunks _ Hctx1 Hr Hup) as [I1 [I2 I3]].
    unfold enqueue_all in *. cbn [forEach bind log value final].
    rewrite scheduled_app, L. cbn [scheduled flat_map app map].
    fold (scheduled (log (forEach chunks (fun c0 => playAudio (fst c0) (snd c0))
                                  (final (playAudio (fst c) (snd c) this))))).
    split; [now rewrite I1|].
    cbn [gapless unit_start unit_duration]. split; [| exact I2].
    destruct (scheduled _) as [| u2 us]; [exact I|].
    rewrite I3, T. reflexivity.
Qed.

Lemma playback_gapless_witness :
  audioContext connected <> None /\
  audio_buffer (snd chunk1) = Some buffer1 /\
  Forall decodes [chunk1; chunk2; chunk3] /\
  keeps_up [chunk2; chunk3] (final (playAudio (fst chunk1) (snd chunk1) connected)) /\
  nextStartTime (final (playAudio (fst chunk1) (snd chunk1) connected))
  = Qmax (currentTime (fst chunk1)) (nextStartTime connected) + duration buffer1 /\
  gapless (scheduled (log (enqueue_all [chunk1; chunk2; chunk3] connected))).
Proof.
  assert (H1 : audioContext connected <> None) by (vm_compute; discriminate).
  assert (H2 : audio_buffer (snd chunk1) = Some buffer1) by (vm_compute; reflexivity).
  assert (H3 : Forall decodes [chunk1; chunk2; chunk3])
    by (repeat constructor; vm_compute; discriminate).
  assert (H4 : keeps_up [chunk2; chunk3]
                 (final (playAudio (fst chunk1) (snd chunk1) connected)))
    by (vm_compute; repeat split; discriminate).
  split; [exact H1 | split; [exact H2 | split; [exact H3 | split; [exact H4 |]]]].
  split.
  - apply (proj1 playback_gapless connected (fst chunk1) (snd chunk1) buffer1 H1 H2).
  - apply (proj2 playback_gapless connected chunk1 [chunk2; chunk3] H1 H3 H4).
Defined.

(** The samples of the buffer [playAudio] schedules are the decoded
    samples of the chunk. *)
Lemma audio_buffer_samples (d : string) (buffer : AudioBuffer) :
  audio_buffer d = Some buffer -> decodeAudio d = Some (channelData buffer).
Proof.
  unfold audio_buffer, decodeAudio.
  destruct (decodeInt16 d) as [dataInt16|]; [|discriminate].
  destruct (createBuffer 1 (List.length dataInt16) 24000); [|discriminate].
  intros H. injection H as <-. reflexivity.
Qed.

(* ================================================================== *)
(** ** Interruption and the transcript buffers *)
(* ================================================================== *)

Lemma stopAudio_result (this : GeminiLive) :
  stopAudio this
  = {| value := tt; final := set_sources [] this;
       log := map source_stop (sources this) |}.
Proof.
  unfold stopAudio, bind. cbn [get value final log].
  rewrite forEach_emit. cbn. now rewrite app_nil_r.
Qed.

Lemma stopped_sources_map (l : list Handle) :
  stopped_sources (map source_stop l) = l.
Proof.
  induction l as [| s l IH]; [reflexivity|].
  cbn [map stopped_sources flat_map app]. fold (stopped_sources (map source_stop l)).
  now rewrite IH.
Qed.

Section ObjectKept.
Context {A B : Type}.

Lemma keeps_ret (a : A) : keeps_object (ret a).
Proof. intro; reflexivity. Qed.

Lemma keeps_emit (e : Effect) : keeps_object (emit e).
Proof. intro; reflexivity. Qed.

Lemma keeps_bind (m : M A) (k : A -> M B) :
  keeps_object m -> (forall a, keeps_object (k a)) -> keeps_object (bind m k).
Proof.
  intros Hm Hk this. unfold bind. cbn [final]. now rewrite Hm, Hk.
Qed.
End ObjectKept.

Lemma keeps_get : keeps_object get.
Proof. intro; reflexivity. Qed.

Lemma keeps_then (p : Promise) (f : Handle -> M unit) :
  (forall s, keeps_object (f s)) -> keeps_object (then_ p f).
Proof. intros H. destruct p; cbn [then_]; [apply keeps_ret | apply H | apply keeps_ret]. Qed.

Lemma keeps_generateImage (o : ApiOutcome) : keeps_object (generateImage o).
Proof.
  destruct o as [b | m]; cbn [generateImage].
  - destruct (truthy_opt b); apply keeps_ret.
  - apply keeps_bind; [apply keeps_emit | intro; apply keeps_ret].
Qed.

Create HintDb frame discriminated.
#[local] Hint Resolve keeps_get keeps_then keeps_generateImage : frame.
#[local] Hint Extern 1 (keeps_object (ret _)) => apply keeps_ret : frame.
#[local] Hint Extern 1 (keeps_object (emit _)) => apply keeps_emit : frame.
#[local] Hint Extern 2 (keeps_object (bind _ _)) => apply keeps_bind; [| intro] : frame.
#[local] Hint Extern 3 (keeps_object (match ?x with _ => _ end)) => destruct x : frame.

(** [handleToolCall] reads the object and writes none of its fields. *)
Lemma keeps_handleToolCall_loop (env : MsgEnv) (calls : list FunctionCall) :
  forall i, keeps_object (handleToolCall_loop env i calls).
Proof.
  induction calls as [| call rest IH]; intro i; cbn [handleToolCall_loop].
  - apply keeps_ret.
  - destruct (String.eqb (name call) "create_image"); [| apply IH].
    destruct (args call) as [prompt|]; [| apply keeps_ret].
    apply keeps_bind; [apply keeps_generateImage | intro result].
    apply keeps_bind; [| intro content].
    { destruct (success result && truthy_opt (data result)); auto 6 with frame. }
    apply keeps_bind; [apply keeps_get | intro this'].
    apply keeps_bind; [| intro; apply IH].
    destruct (sessionPromise this'); auto 6 with frame.
Qed.

Lemma keeps_handleToolCall (env : MsgEnv) (tc : ToolCall) :
  keeps_object (handleToolCall env tc).
Proof.
  unfold handleToolCall. destruct (functionCalls tc) as [[| c r] |];
    try apply keeps_ret. apply keeps_handleToolCall_loop.
Qed.

Lemma keeps_tool_part (env : MsgEnv) (m : LiveServerMessage) :
  keeps_object (match toolCall m with
                | Some tc => _ <- handleToolCall env tc ;; ret tt
                | None => ret tt
                end).
Proof.
  destruct (toolCall m) as [tc|]; [| apply keeps_ret].
  apply keeps_bind; [apply keeps_handleToolCall | intro; apply keeps_ret].
Qed.

Lemma log_bind {A B : Type} (m : M A) (k : A -> M B) (this : GeminiLive) :
  log (bind m k this) = log (m this) ++ log (k (value (m this)) (final (m this))).
Proof. reflexivity. Qed.

Lemma final_bind {A B : Type} (m : M A) (k : A -> M B) (this : GeminiLive) :
  final (bind m k this) = final (k (value (m this)) (final (m this))).
Proof. reflexivity. Qed.

Section Preserved.
Context {A B : Type} (P : GeminiLive -> Prop).

Lemma preserves_kept (m : M A) : keeps_object m -> preserves P m.
Proof. intros H this Hp. now rewrite H. Qed.

Lemma preserves_bind (m : M A) (k : A -> M B) :
  preserves P m -> (forall a, preserves P (k a)) -> preserves P (bind m k).
Proof. intros Hm Hk this Hp. unfold bind. cbn [final]. apply Hk, Hm, Hp. Qed.
End Preserved.

Lemma preserves_modify (P : GeminiLive -> Prop) (f : GeminiLive -> GeminiLive) :
  (forall this, P this -> P (f this)) -> preserves P (modify f).
Proof. intros H this Hp. cbn [modify final]. now apply H. Qed.

Lemma preserves_forEach {A : Type} (P : GeminiLive -> Prop) (xs : list A)
      (f : A -> M unit) :
  (forall x, preserves P (f x)) -> preserves P (forEach xs f).
Proof.
  intros H. induction xs as [| x r IH]; cbn [forEach].
  - apply preserves_kept, keeps_ret.
  - apply preserves_bind; [apply H | intro; exact IH].
Qed.

(** One step of a proof that a method keeps a property; [side] settles
    what a field update has to show. *)
Ltac preserve_step side :=
  first
    [ apply preserves_bind; [| intro]
    | apply preserves_forEach; intro
    | apply preserves_modify; intros ? ?; side
    | apply preserves_kept;
      first [ apply keeps_ret | apply keeps_emit | apply keeps_get
            | apply keeps_tool_part | apply keeps_handleToolCall
            | apply keeps_then; intro; apply keeps_emit ]
    | match goal with
      | |- preserves _ (match ?x with _ => _ end) => destruct x
      end ].

Ltac field_kept := assumption.

(** What a message that carries the interruption flag leaves behind. *)
Lemma handleMessage_interrupted (env : MsgEnv) (m : LiveServerMessage)
      (this : GeminiLive) :
  interrupted m = true ->
  let r := handleMessage env m this in
  sources (final r) = [] /\
  currentOutputTranscription (final r) = "" /\
  nextStartTime (final r) = 0.
Proof.
  intros H. unfold handleMessage. cbn [bind final value get].
  rewrite H, !(keeps_tool_part env m).
  match goal with
  | |- context [bind stopAudio ?k ?s] => generalize s; intro s0
  end.
  unfold bind. rewrite stopAudio_result. cbn. auto.
Qed.

Lemma stopped_sources_app (l1 l2 : list Effect) :
  stopped_sources (l1 ++ l2) = stopped_sources l1 ++ stopped_sources l2.
Proof. apply flat_map_app. Qed.

Lemma quiet_ret {A : Type} (a : A) : stops_nothing (ret a).
Proof. intro; reflexivity. Qed.

Lemma quiet_bind {A B : Type} (m : M A) (k : A -> M B) :
  stops_nothing m -> (forall a, stops_nothing (k a)) -> stops_nothing (bind m k).
Proof.
  intros Hm Hk this. unfold bind. cbn [log].
  now rewrite stopped_sources_app, Hm, Hk.
Qed.

Lemma quiet_forEach {A : Type} (xs : list A) (f : A -> M unit) :
  (forall x, stops_nothing (f x)) -> stops_nothing (forEach xs f).
Proof.
  intros H. induction xs as [| x r IH]; cbn [forEach].
  - apply quiet_ret.
  - apply quiet_bind; [apply H | intro; exact IH].
Qed.

(** One step of a proof that a method stops no source. *)
Ltac quiet_step :=
  first
    [ apply quiet_bind; [| intro]
    | apply quiet_forEach; intro
    | (intro; reflexivity)
    | match goal with
      | |- stops_nothing (match ?x with _ => _ end) => destruct x
      end ].

Lemma quiet_playAudio (env : MsgEnv) (d : string) : stops_nothing (playAudio env d).
Proof. unfold playAudio. repeat quiet_step. Qed.

Lemma quiet_handleToolCall_loop (env : MsgEnv) (calls : list FunctionCall) :
  forall i, stops_nothing (handleToolCall_loop env i calls).
Proof.
  induction calls as [| call rest IH]; intro i; cbn [handleToolCall_loop].
  - apply quiet_ret.
  - destruct (String.eqb (name call) "create_image"); [| apply IH].
    destruct (args call) as [prompt|]; [| apply quiet_ret].
    unfold generateImage, then_.
    repeat first [ apply IH | quiet_step ].
Qed.

Lemma quiet_disconnect : stops_nothing disconnect.
Proof. unfold disconnect. repeat quiet_step. Qed.

Lemma quiet_connect (env : ConnectEnv) (voiceName : string) :
  stops_nothing (connect env voiceName).
Proof.
  unfold connect, connect_catch.
  repeat first [ apply quiet_disconnect | quiet_step ].
Qed.

(** The only operation that stops a source is the handling of a message
    that carries the interruption flag. *)
Lemma quiet_step_op (op : Op) : is_interruption op = false -> stops_nothing (step op).
Proof.
  destruct op as [env v | | | env m | | | s | d | p]; cbn [is_interruption step]; intros H.
  - repeat first [ apply quiet_connect | quiet_step ].
  - apply quiet_disconnect.
  - unfold handleOpen. repeat quiet_step.
  - unfold handleMessage, handleToolCall. rewrite H.
    repeat first [ apply quiet_playAudio | apply quiet_handleToolCall_loop
                 | quiet_step ].
  - repeat first [ apply quiet_disconnect | quiet_step ].
  - repeat first [ apply quiet_disconnect | quiet_step ].
  - unfold onended. repeat quiet_step.
  - unfold onaudioprocess, then_. repeat quiet_step.
  - intro; reflexivity.
Qed.

Lemma sources_grow_playAudio (l : list Handle) (env : MsgEnv) (d : string) :
  preserves (fun this => incl l (sources this)) (playAudio env d).
Proof.
  unfold playAudio.
  repeat preserve_step
    ltac:(first [ assumption
                | cbn [sources set_sources]; intros y Hy;
                  apply set_add_intro1;
                  match goal with K : incl _ _ |- _ => now apply K end ]).
Qed.

(** One stage of [handleMessage] before the interruption branch: it
    stops nothing that matters here and forgets no active source. *)
Ltac stage_keeps_sources :=
  match goal with
  | |- incl _ (stopped_sources (log (bind stopAudio _ _))) => fail 1
  | P0 : incl ?l (sources ?s)
    |- incl ?l (stopped_sources (log (bind ?stage _ ?s))) =>
      rewrite log_bind, stopped_sources_app; apply incl_appr;
      let P1 := fresh "P" in
      assert (P1 : incl l (sources (final (stage s))))
        by (revert P0; generalize s;
            change (preserves (fun this => incl l (sources this)) stage);
            repeat first [ apply sources_grow_playAudio
                         | preserve_step ltac:(assumption) ]);
      clear P0; generalize dependent (final (stage s)); intros ? ?
  end.

(** What was active when a message with the interruption flag arrived
    is stopped by [stopAudio]. *)
Lemma interrupted_stops_all (env : MsgEnv) (m : LiveServerMessage) (this : GeminiLive) :
  interrupted m = true ->
  incl (sources this) (stopped_sources (log (handleMessage env m this))).
Proof.
  intros H. unfold handleMessage. rewrite H.
  rewrite log_bind. cbn [get value final log app].
  assert (P0 : incl (sources this) (sources this)) by apply incl_refl.
  revert P0. generalize (sources this) at 1 3. intros l P0.
  destruct (truthy_opt (audioData m) && not_null (audioContext this));
    revert P0; generalize this; clear this; intros this P0;
    repeat stage_keeps_sources;
    rewrite log_bind, stopped_sources_app; apply incl_appl;
    rewrite log_bind, stopped_sources_app; apply incl_appl;
    rewrite stopAudio_result; cbn [log]; now rewrite stopped_sources_map.
Qed.

(** C3 (stop all).  [stopAudio] stops every source of the active set,
    in insertion order, and empties the set; it is called in one place,
    the interruption branch of [handleMessage], which sets
    [nextStartTime] to 0 right after it.  So after the handling of any
    message that carries the interruption flag every source that was
    active has been stopped, the active set is empty and [nextStartTime]
    is 0, and the next chunk that decodes is started at the reading of
    the clock; and no operation on the object stops a source without
    ending in that state. *)
Theorem stop_all_resets (this : GeminiLive) :
  (let r := stopAudio this in
   stopped_sources (log r) = sources this /\ sources (final r) = []) /\
  (forall (env : MsgEnv) (m : LiveServerMessage),
      interrupted m = true ->
      let r := handleMessage env m this in
      incl (sources this) (stopped_sources (log r)) /\
      sources (final r) = [] /\
      nextStartTime (final r) = 0 /\
      forall (env' : MsgEnv) (d : string) (buffer : AudioBuffer),
        audioContext (final r) <> None -> audio_buffer d = Some buffer ->
        0 <= currentTime env' ->
        exists start : Q,
          log (playAudio env' d (final r))
          = [source_start (createBufferSource env') buffer start] /\
          start == currentTime env') /\
  (forall op : Op,
      stopped_sources (log (step op this)) <> [] ->
      is_interruption op = true /\
      sources (final (step op this)) = [] /\
      nextStartTime (final (step op this)) = 0).
Proof.
  split; [| split].
  - rewrite stopAudio_result. cbn [log final].
    split; [apply stopped_sources_map | reflexivity].
  - intros env m H.
    destruct (handleMessage_interrupted env m this H) as [A [_ B]].
    cbv zeta in *.
    split; [now apply interrupted_stops_all | split; [exact A | split; [exact B |]]].
    intros env' d buffer Hctx Hbuf Hclock.
    destruct (playAudio_decoded _ env' d buffer Hctx Hbuf) as [L _].
    cbv zeta in L. rewrite B in L.
    eexists. split; [exact L | now apply Q.max_l].
  - intros op S.
    destruct (is_interruption op) eqn:E.
    + split; [reflexivity |].
      destruct op as [env v | | | env m | | | s | d | p];
        cbn [is_interruption] in E; try discriminate E.
      cbn [step].
      destruct (handleMessage_interrupted env m this E) as [A [_ B]].
      now split.
    + contradiction S. now apply quiet_step_op.
Qed.

Lemma stop_all_resets_witness :
  interrupted interruptionMessage = true /\
  sources playing = [7%nat] /\
  incl [7%nat]
       (stopped_sources
          (log (handleMessage (msgEnv 1 8%nat (Failed None))
                              interruptionMessage playing))) /\
  sources (final (handleMessage (msgEnv 1 8%nat (Failed None))
                                interruptionMessage playing)) = [] /\
  nextStartTime (final (handleMessage (msgEnv 1 8%nat (Failed None))
                                      interruptionMessage playing)) = 0.
Proof.
  split; [reflexivity | split; [reflexivity |]].
  destruct (proj1 (proj2 (stop_all_resets playing)) (msgEnv 1 8%nat (Failed None))
                  interruptionMessage eq_refl) as [K1 [K2 [K3 _]]].
  split; [exact K1 | split; [exact K2 | exact K3]].
Defined.

(** C4 (interruption).  In every state of the session, handling an
    interruption event stops every scheduled source and empties the
    active set, empties the output transcript buffer, leaves the input
    transcript buffer as it was, and leaves [nextStartTime] at 0. *)
Theorem interruption_resets (env : MsgEnv) (this : GeminiLive) :
  let r := handleMessage env interruptionMessage this in
  log r = map source_stop (sources this) /\
  sources (final r) = [] /\
  currentOutputTranscription (final r) = "" /\
  currentInputTranscription (final r) = currentInputTranscription this /\
  nextStartTime (final r) = 0.
Proof.
  unfold handleMessage, interruptionMessage.
  cbn [audioData outputTranscription inputTranscription turnComplete interrupted
       toolCall truthy_opt andb].
  unfold bind. cbn [get ret modify value final log].
  rewrite stopAudio_result. cbn. rewrite !app_nil_r. repeat split; reflexivity.
Qed.

(* ================================================================== *)
(** ** Transcript accumulation *)
(* ================================================================== *)

Lemma append_assoc (a b c : string) : ((a ++ b) ++ c)%string = (a ++ (b ++ c))%string.
Proof. induction a as [| x a IH]; cbn; [reflexivity | now rewrite IH]. Qed.

Lemma handle_partial (env : MsgEnv) (p : Partial) (this : GeminiLive) :
  let r := handleMessage env (partialMessage p) this in
  currentInputTranscription (final r)
  = (currentInputTranscription this
     ++ match p with InputPartial t => t | OutputPartial _ => "" end)%string /\
  currentOutputTranscription (final r)
  = (currentOutputTranscription this
     ++ match p with OutputPartial t => t | InputPartial _ => "" end)%string.
Proof.
  destruct p as [t | t]; cbn; rewrite append_empty_r; split; reflexivity.
Qed.

Lemma run_partials (ps : list (MsgEnv * Partial)) :
  forall this : GeminiLive,
    let this' := final (run (partial_ops ps) this) in
    currentInputTranscription this'
    = (currentInputTranscription this ++ input_text ps)%string /\
    currentOutputTranscription this'
    = (currentOutputTranscription this ++ output_text ps)%string.
Proof.
  induction ps as [| [env p] r IH]; intro this.
  - cbn. now rewrite !append_empty_r.
  - cbn [partial_ops map run step fst snd]. unfold bind. cbn [final].
    fold (partial_ops r).
    destruct (IH (final (handleMessage env (partialMessage p) this))) as [I O].
    destruct (handle_partial env p this) as [HI HO].
    cbv zeta in I, O, HI, HO. rewrite I, O, HI, HO.
    destruct p as [t | t]; cbn [input_text output_text];
      rewrite ?append_assoc; cbn [append]; split; reflexivity.
Qed.

(** C5 (turn complete).  After any sequence of input- and
    output-transcript partials, the handler of the turn-complete event
    calls the transcript callback once, with [isFinal = true] and with
    each buffer holding what it held before the sequence followed by the
    texts of its direction in arrival order; right after it both buffers
    are empty.  In a turn that starts with empty buffers the callback
    carries exactly the two concatenations. *)
Theorem turn_complete_flushes (ps : list (MsgEnv * Partial)) (env : MsgEnv)
        (this : GeminiLive) :
  let this' := final (run (partial_ops ps) this) in
  let r := handleMessage env turnCompleteMessage this' in
  log r = [onTranscriptUpdate
             (currentInputTranscription this ++ input_text ps)
             (currentOutputTranscription this ++ output_text ps) true] /\
  currentInputTranscription (final r) = "" /\
  currentOutputTranscription (final r) = "".
Proof.
  destruct (run_partials ps this) as [I O]. cbv zeta in *.
  cbn. rewrite I, O. repeat split; reflexivity.
Qed.

(* ================================================================== *)
(** ** The playback cursor over runs *)
(* ================================================================== *)

Section CursorAdvances.
Context {A B : Type}.

Lemma advances_kept (m : M A) : keeps_object m -> cursor_advances m.
Proof. intros H this. rewrite H. apply Qle_refl. Qed.

Lemma advances_bind (m : M A) (k : A -> M B) :
  cursor_advances m -> (forall a, cursor_advances (k a)) ->
  cursor_advances (bind m k).
Proof.
  intros Hm Hk this. unfold bind. cbn [final].
  eapply Qle_trans; [apply Hm | apply Hk].
Qed.
End CursorAdvances.

Lemma advances_modify (f : GeminiLive -> GeminiLive) :
  (forall this, nextStartTime (f this) = nextStartTime this) ->
  cursor_advances (modify f).
Proof. intros H this. cbn [modify final]. rewrite H. apply Qle_refl. Qed.

Lemma advances_forEach {A : Type} (xs : list A) (f : A -> M unit) :
  (forall x, cursor_advances (f x)) -> cursor_advances (forEach xs f).
Proof.
  intros H. induction xs as [| x r IH]; cbn [forEach].
  - apply advances_kept, keeps_ret.
  - apply advances_bind; [apply H | intro; exact IH].
Qed.

Lemma duration_nonneg (n : nat) (rate : Z) (data : list number) :
  (0 < rate)%Z ->
  0 <= duration {| frames := n; sampleRate := rate; channelData := data |}.
Proof.
  intros H. unfold duration. cbn [frames sampleRate].
  apply Qle_shift_div_l.
  - change 0 with (inject_Z 0). rewrite <- Zlt_Qlt. exact H.
  - rewrite Qmult_0_l. change 0 with (inject_Z 0). rewrite <- Zle_Qle. lia.
Qed.

Lemma advances_playAudio (env : MsgEnv) (d : string) :
  cursor_advances (playAudio env d).
Proof.
  intro this. unfold playAudio. cbn [bind get value final].
  destruct (audioContext this) as [ctx|]; [| apply Qle_refl].
  destruct (decodeInt16 d) as [dataInt16|]; [| apply Qle_refl].
  destruct (createBuffer 1 (List.length dataInt16) 24000) as [b|] eqn:E;
    [| apply Qle_refl].
  cbn.
  assert (D : 0 <= duration (fill b (map sample_of_int16 dataInt16))).
  { unfold createBuffer in E. destruct (List.length dataInt16); [discriminate|].
    injection E as <-. apply duration_nonneg. cbn. lia. }
  pose proof (Q.le_max_r (currentTime env) (nextStartTime this)). lra.
Qed.

Ltac frame_step :=
  first
    [ apply advances_playAudio
    | apply advances_bind; [| intro]
    | apply advances_forEach; intro
    | apply advances_modify; intro; reflexivity
    | apply advances_kept;
      first [ apply keeps_ret | apply keeps_emit | apply keeps_get
            | apply keeps_tool_part | apply keeps_handleToolCall ]
    | match goal with
      | |- cursor_advances (match ?x with _ => _ end) => destruct x
      end ].

Lemma advances_disconnect : cursor_advances disconnect.
Proof. unfold disconnect. repeat frame_step. Qed.

Lemma advances_connect (env : ConnectEnv) (voiceName : string) :
  cursor_advances (connect env voiceName).
Proof.
  unfold connect, connect_catch.
  repeat first [ apply advances_disconnect | frame_step ].
Qed.

Lemma advances_handleMessage (env : MsgEnv) (m : LiveServerMessage) :
  interrupted m = false -> cursor_advances (handleMessage env m).
Proof.
  intros H. unfold handleMessage. rewrite H. repeat frame_step.
Qed.

Lemma advances_step (op : Op) :
  is_interruption op = false -> cursor_advances (step op).
Proof.
  destruct op; cbn [is_interruption step]; intros H.
  - apply advances_bind; [apply advances_connect | intro; frame_step].
  - apply advances_disconnect.
  - unfold handleOpen. repeat frame_step.
  - now apply advances_handleMessage.
  - apply advances_bind; [frame_step | intro; apply advances_disconnect].
  - apply advances_bind; [frame_step | intro; apply advances_disconnect].
  - unfold onended. frame_step.
  - unfold onaudioprocess. repeat frame_step.
    apply advances_kept, keeps_then. intro. apply keeps_emit.
  - intro this. cbn [modify final].
    destruct (sessionPromise this) as [[| |]|]; apply Qle_refl.
Qed.

(** C9 (cursor monotonicity).  Over every sequence of operations on a
    session none of which handles an interruption, [nextStartTime] never
    decreases; the handling of a message that carries the interruption
    flag is the one operation that lowers it, and it sets it to 0. *)
Theorem cursor_monotone :
  (forall (ops : list Op) (this : GeminiLive),
      Forall (fun op => is_interruption op = false) ops ->
      nextStartTime this <= nextStartTime (final (run ops this))) /\
  (forall (op : Op) (this : GeminiLive),
      is_interruption op = true ->
      nextStartTime (final (step op this)) = 0).
Proof.
  split.
  - intros ops. induction ops as [| op rest IH]; intros this H.
    + apply Qle_refl.
    + inversion_clear H as [| ? ? Hop Hrest].
      cbn [run]. unfold bind. cbn [final].
      eapply Qle_trans; [apply (advances_step op Hop) | apply IH, Hrest].
  - intros op this H. destruct op; try discriminate H.
    cbn [is_interruption] in H. cbn [step].
    now destruct (handleMessage_interrupted env message this H) as [_ [_ K]].
Qed.

Lemma cursor_monotone_witness :
  Forall (fun op => is_interruption op = false) sampleRun /\
  nextStartTime new_GeminiLive <= nextStartTime (final (run sampleRun new_GeminiLive)) /\
  is_interruption (OnMessage (fst chunk2) interruptionMessage) = true /\
  nextStartTime (final (step (OnMessage (fst chunk2) interruptionMessage) playing)) = 0.
Proof.
  assert (H : Forall (fun op => is_interruption op = false) sampleRun)
    by (repeat constructor).
  split; [exact H | split; [| split; [reflexivity |]]].
  - exact (proj1 cursor_monotone sampleRun new_GeminiLive H).
  - exact (proj2 cursor_monotone (OnMessage (fst chunk2) interruptionMessage)
                 playing eq_refl).
Defined.

(* ================================================================== *)
(** ** Disconnect *)
(* ================================================================== *)

Lemma disconnect_result (this : GeminiLive) :
  disconnect this
  = {| value := tt;
       final := {| audioContext := None; inputAudioContext := None;
                   stream := None; nextStartTime := nextStartTime this;
                   sources := sources this; sessionPromise := None;
                   currentInputTranscription := "";
                   currentOutputTranscription := "" |};
       log := onStatusChange false
              :: match stream this with
                 | Some s => map track_stop (getTracks s)
                 | None => []
                 end
              ++ match inputAudioContext this with
                 | Some c => [context_close c]
                 | None => []
                 end
              ++ match audioContext this with
                 | Some c => [context_close c]
                 | None => []
                 end |}.
Proof.
  destruct this as [oc ic s t srcs p cin cout].
  unfold disconnect, bind. cbn [emit get value final log stream].
  destruct s as [s|]; destruct ic as [ic|]; destruct oc as [oc|];
    rewrite ?forEach_emit; cbn; rewrite ?app_nil_r; reflexivity.
Qed.

(** A successful [connect] leaves the cursor alone and holds an output
    context. *)
Lemma connect_normal (env : ConnectEnv) (voiceName : string) (this : GeminiLive) :
  value (connect env voiceName this) = Normal ->
  nextStartTime (final (connect env voiceName this)) = nextStartTime this /\
  audioContext (final (connect env voiceName this)) <> None /\
  log (connect env voiceName this) = [onStatusChange true; live_connect voiceName].
Proof.
  unfold connect, connect_catch.
  destruct (newInputContext env) as [e | ic]; [discriminate|].
  destruct (newOutputContext env) as [e | oc]; [discriminate|].
  destruct (getUserMedia env) as [e | s]; [discriminate|].
  destruct (liveConnect env) as [e | p]; [discriminate|].
  intros _. cbn. repeat split; discriminate.
Qed.

(** C10 (stale cursor across sessions).  [disconnect] leaves
    [nextStartTime] unchanged while it empties both transcript buffers and
    nulls the stream, both audio contexts and the session handle; so after
    a [disconnect] and a [connect] that succeeds, the first chunk is
    scheduled at the maximum of the clock and the cursor left by the
    previous session, which is that stale cursor whenever the clock of the
    new context reads less. *)
Theorem disconnect_keeps_cursor (this : GeminiLive) :
  (let r := disconnect this in
   nextStartTime (final r) = nextStartTime this /\
   currentInputTranscription (final r) = "" /\
   currentOutputTranscription (final r) = "" /\
   stream (final r) = None /\
   inputAudioContext (final r) = None /\
   audioContext (final r) = None /\
   sessionPromise (final r) = None) /\
  (forall (cenv : ConnectEnv) (voiceName : string) (env : MsgEnv) (d : string)
          (buffer : AudioBuffer),
      let reconnect := connect cenv voiceName (final (disconnect this)) in
      value reconnect = Normal ->
      audio_buffer d = Some buffer ->
      let r := playAudio env d (final reconnect) in
      log r = [source_start (createBufferSource env) buffer
                 (Qmax (currentTime env) (nextStartTime this))] /\
      (currentTime env < nextStartTime this ->
       scheduled (log r)
       = [{| unit_source := createBufferSource env;
             unit_start := Qmax (currentTime env) (nextStartTime this);
             unit_duration := duration buffer |}] /\
       Qmax (currentTime env) (nextStartTime this) == nextStartTime this /\
       ~ Qmax (currentTime env) (nextStartTime this) == currentTime env)).
Proof.
  split.
  - rewrite disconnect_result. cbn. repeat split; reflexivity.
  - intros cenv voiceName env d buffer reconnect Hok Hbuf r.
    destruct (connect_normal cenv voiceName (final (disconnect this)) Hok)
      as [C1 [C2 _]].
    destruct (playAudio_decoded (final reconnect) env d buffer C2 Hbuf) as [L _].
    fold reconnect in C1. cbv zeta in L. rewrite C1 in L.
    rewrite disconnect_result in L. cbn [final nextStartTime] in L.
    split; [exact L|]. intros Hlt.
    assert (E : Qmax (currentTime env) (nextStartTime this) == nextStartTime this)
      by (apply Q.max_r; lra).
    subst r. rewrite L. cbn [scheduled flat_map app].
    split; [reflexivity | split; [exact E | lra]].
Qed.

Lemma disconnect_keeps_cursor_witness :
  value (connect okEnv "Kore" (final (disconnect playing))) = Normal /\
  audio_buffer (snd chunk2) = Some
    {| frames := 3; sampleRate := 24000;
       channelData := [Fin (0 # 32768); Fin (0 # 32768); Fin (0 # 32768)] |} /\
  currentTime (fst chunk2) < nextStartTime playing /\
  log (playAudio (fst chunk2) (snd chunk2)
         (final (connect okEnv "Kore" (final (disconnect playing)))))
  = [source_start (createBufferSource (fst chunk2))
       {| frames := 3; sampleRate := 24000;
          channelData := [Fin (0 # 32768); Fin (0 # 32768); Fin (0 # 32768)] |}
       (Qmax (currentTime (fst chunk2)) (nextStartTime playing))] /\
  Qmax (currentTime (fst chunk2)) (nextStartTime playing) == nextStartTime playing.
Proof.
  assert (H1 : value (connect okEnv "Kore" (final (disconnect playing))) = Normal)
    by reflexivity.
  assert (H2 : audio_buffer (snd chunk2) = Some
            {| frames := 3; sampleRate := 24000;
               channelData := [Fin (0 # 32768); Fin (0 # 32768); Fin (0 # 32768)] |})
    by (vm_compute; reflexivity).
  assert (H3 : currentTime (fst chunk2) < nextStartTime playing) by reflexivity.
  split; [exact H1 | split; [exact H2 | split; [exact H3 |]]].
  pose proof (proj2 (disconnect_keeps_cursor playing) okEnv "Kore" (fst chunk2)
                    (snd chunk2) _ H1 H2) as K.
  cbv zeta in K. destruct K as [K1 K2]. split; [exact K1|].
  exact (proj1 (proj2 (K2 H3))).
Defined.

Lemma statuses_app (l1 l2 : list Effect) :
  statuses (l1 ++ l2) = statuses l1 ++ statuses l2.
Proof. apply flat_map_app. Qed.

Lemma closed_contexts_app (l1 l2 : list Effect) :
  closed_contexts (l1 ++ l2) = closed_contexts l1 ++ closed_contexts l2.
Proof. apply flat_map_app. Qed.

Lemma stopped_tracks_app (l1 l2 : list Effect) :
  stopped_tracks (l1 ++ l2) = stopped_tracks l1 ++ stopped_tracks l2.
Proof. apply flat_map_app. Qed.

Lemma readings_of_track_stops (ts : list Handle) :
  statuses (map track_stop ts) = [] /\
  closed_contexts (map track_stop ts) = [] /\
  stopped_tracks (map track_stop ts) = ts.
Proof.
  induction ts as [| t ts [I1 [I2 I3]]]; [repeat split|].
  cbn [map statuses closed_contexts stopped_tracks flat_map app].
  fold (statuses (map track_stop ts)) (closed_contexts (map track_stop ts))
       (stopped_tracks (map track_stop ts)).
  now rewrite I1, I2, I3.
Qed.

(** The log of two calls of [disconnect] on a session that holds its
    three device handles. *)
Lemma disconnect_twice_log (this : GeminiLive) (s : MediaStream) (ic oc : Handle) :
  stream this = Some s -> inputAudioContext this = Some ic ->
  audioContext this = Some oc ->
  log (disconnect_twice this)
  = onStatusChange false :: map track_stop (getTracks s)
    ++ [context_close ic; context_close oc; onStatusChange false].
Proof.
  intros Hs Hi Ho. unfold disconnect_twice, bind.
  rewrite !disconnect_result. cbn [final log value stream inputAudioContext audioContext].
  rewrite Hs, Hi, Ho. cbn [app]. now rewrite <- app_assoc.
Qed.

(** C6, as stated, fails: the second call reports [false] once more. *)
Lemma disconnect_twice_counterexample :
  status_calls false (log (disconnect_twice connected)) <> 1%nat.
Proof. vm_compute. discriminate. Qed.

(** C6 (amended).  Two calls of [disconnect] in succession on a session
    that holds its stream and both audio contexts call the status callback
    with [false] twice, once per call, and never with [true]; each device
    handle (every track of the capture stream, the input context, the
    output context) is released exactly once, the second call releasing
    nothing; [disconnect] has no throwing path. *)
Theorem disconnect_twice_spec (this : GeminiLive) (s : MediaStream) (ic oc : Handle) :
  stream this = Some s -> inputAudioContext this = Some ic ->
  audioContext this = Some oc ->
  NoDup (ic :: oc :: getTracks s) ->
  let l := log (disconnect_twice this) in
  status_calls false l = 2%nat /\
  status_calls true l = 0%nat /\
  (forall h, In h (ic :: oc :: getTracks s) -> releases h l = 1%nat) /\
  log (disconnect (final (disconnect this))) = [onStatusChange false].
Proof.
  intros Hs Hi Ho Hnd l. subst l.
  rewrite (disconnect_twice_log this s ic oc Hs Hi Ho).
  destruct (readings_of_track_stops (getTracks s)) as [R1 [R2 R3]].
  unfold status_calls, releases.
  change (onStatusChange false :: map track_stop (getTracks s)
          ++ [context_close ic; context_close oc; onStatusChange false])
    with ([onStatusChange false] ++ map track_stop (getTracks s)
          ++ [context_close ic; context_close oc; onStatusChange false]).
  rewrite !statuses_app, !closed_contexts_app, !stopped_tracks_app, R1, R2, R3.
  cbn [statuses closed_contexts stopped_tracks flat_map app].
  split; [reflexivity | split; [reflexivity | split]].
  - intros h Hh. rewrite app_nil_r.
    change (ic :: oc :: getTracks s) with ([ic; oc] ++ getTracks s) in Hh, Hnd.
    apply (NoDup_count_occ' Nat.eq_dec); [| exact Hh].
    exact Hnd.
  - rewrite !disconnect_result. reflexivity.
Qed.

Lemma disconnect_twice_spec_witness :
  NoDup [1%nat; 2%nat; 3%nat] /\
  status_calls false (log (disconnect_twice connected)) = 2%nat /\
  releases 1%nat (log (disconnect_twice connected)) = 1%nat.
Proof.
  assert (H : NoDup (1%nat :: 2%nat :: getTracks {| getTracks := [3%nat] |})).
  { repeat constructor; cbn; lia. }
  split; [exact H|].
  pose proof (disconnect_twice_spec connected {| getTracks := [3%nat] |} 1%nat 2%nat
                eq_refl eq_refl eq_refl H) as K.
  cbv zeta in K. destruct K as [K1 [_ [K3 _]]].
  split; [exact K1 | apply K3; left; reflexivity].
Defined.

(* ================================================================== *)
(** ** Connect and the status callback *)
(* ================================================================== *)

(** C7, as stated, fails twice.  [connect] reports [true] by itself,
    before any open confirmation is handled.  And a failure of the
    transport that shows in the promise of [ai.live.connect], which
    [connect] does not await, is reported nowhere: [connect] has returned
    normally, and no status callback with [false] follows. *)
Lemma connect_status_counterexample :
  ~ status_true_only_after_open [Connect okEnv "Kore"; OnOpen] new_GeminiLive /\
  value (connect okEnv "Kore" new_GeminiLive) = Normal /\
  ~ failure_reported [Connect okEnv "Kore"; OnSettled Rejected] new_GeminiLive.
Proof.
  split; [| split; [reflexivity |]].
  - intros H.
    specialize (H [] (Connect okEnv "Kore") [OnOpen] eq_refl).
    cbn in H. assert (K : false = true) by (apply H; left; reflexivity).
    discriminate K.
  - intros H. unfold failure_reported in H.
    assert (K : In false (statuses (log (run [Connect okEnv "Kore"; OnSettled Rejected]
                                             new_GeminiLive))))
      by (apply H; right; left; reflexivity).
    vm_compute in K. destruct K as [K | []]. discriminate K.
Qed.

Lemma statuses_disconnect (this : GeminiLive) :
  statuses (log (disconnect this)) = [false].
Proof.
  rewrite disconnect_result. cbn [log].
  match goal with
  | |- context [onStatusChange false :: ?l] =>
      change (onStatusChange false :: l) with ([onStatusChange false] ++ l)
  end.
  rewrite !statuses_app.
  destruct (stream this), (inputAudioContext this), (audioContext this);
    rewrite ?(proj1 (readings_of_track_stops _)); reflexivity.
Qed.

Lemma statuses_status (b : bool) (l : list Effect) :
  statuses (onStatusChange b :: l) = b :: statuses l.
Proof. reflexivity. Qed.

Lemma statuses_console (t : string) (l : list Effect) :
  statuses (console_error t :: l) = statuses l.
Proof. reflexivity. Qed.

Lemma connect_throws (env : ConnectEnv) (voiceName e : string) (this : GeminiLive) :
  fails_with env e ->
  value (connect env voiceName this) = Throw e /\
  (statuses (log (connect env voiceName this)) = [false] \/
   statuses (log (connect env voiceName this)) = [true; false]).
Proof.
  intros [H1 | ic H1 H2 | ic oc H1 H2 H3 | ic oc s H1 H2 H3 H4];
    unfold connect, connect_catch; rewrite H1, ?H2, ?H3, ?H4;
    unfold bind; cbn [value final log modify emit ret app];
    (split; [reflexivity|]);
    rewrite app_nil_r, ?statuses_status, statuses_console, statuses_disconnect;
    [left | left | left | right]; reflexivity.
Qed.

(** C7 (amended).  [connect] calls the status callback with [true] as
    soon as the microphone stream is there, before it asks for the
    transport, hence before any open confirmation, and [handleOpen] calls
    no status callback at all; when a step of [connect] throws (either
    audio context, [getUserMedia], or [ai.live.connect] itself), the last
    call of the status callback is with [false] and the error is thrown on
    to the caller.  The settling of the transport promise, a rejection
    included, calls nothing; it is the error and the close event of the
    transport that report [false], each once. *)
Theorem connect_status (env : ConnectEnv) (voiceName : string) (this : GeminiLive) :
  let r := connect env voiceName this in
  (value r = Normal -> log r = [onStatusChange true; live_connect voiceName]) /\
  (forall this', statuses (log (handleOpen this')) = []) /\
  (forall e, fails_with env e ->
             value r = Throw e /\
             last (statuses (log r)) true = false /\
             status_calls false (log r) = 1%nat) /\
  (forall p this', log (step (OnSettled p) this') = []) /\
  (forall this', statuses (log (step OnError this')) = [false] /\
                 statuses (log (step OnClose this')) = [false]).
Proof.
  cbv zeta. split; [| split; [| split; [| split]]].
  - intros H. now destruct (connect_normal env voiceName this H) as [_ [_ L]].
  - intros this'. unfold handleOpen, bind. cbn [get value final log].
    destruct (stream this'); [destruct (inputAudioContext this') |]; reflexivity.
  - intros e F. destruct (connect_throws env voiceName e this F) as [V [S | S]];
      unfold status_calls; rewrite S; repeat split; assumption || reflexivity.
  - intros p this'. reflexivity.
  - intros this'. cbn [step]. rewrite !log_bind. cbn [emit log app].
    split; (etransitivity; [| apply (statuses_disconnect this')]); reflexivity.
Qed.

Lemma connect_status_witness :
  value (connect okEnv "Kore" new_GeminiLive) = Normal /\
  log (connect okEnv "Kore" new_GeminiLive)
  = [onStatusChange true; live_connect "Kore"] /\
  fails_with deniedEnv "NotAllowedError" /\
  value (connect deniedEnv "Kore" new_GeminiLive) = Throw "NotAllowedError" /\
  last (statuses (log (connect deniedEnv "Kore" new_GeminiLive))) true = false.
Proof.
  assert (F : fails_with deniedEnv "NotAllowedError")
    by (apply (@fails_getUserMedia deniedEnv "NotAllowedError" 1%nat 2%nat); reflexivity).
  split; [reflexivity | split; [| split; [exact F |]]].
  - exact (proj1 (connect_status okEnv "Kore" new_GeminiLive) eq_refl).
  - pose proof (proj1 (proj2 (proj2 (connect_status deniedEnv "Kore" new_GeminiLive)))
                      "NotAllowedError" F) as K.
    destruct K as [K1 [K2 _]]. split; [exact K1 | exact K2].
Defined.

(* ================================================================== *)
(** ** Tool dispatch *)
(* ================================================================== *)

Lemma loop_skips (env : MsgEnv) (calls : list FunctionCall) :
  Forall other_tool calls ->
  forall i this,
    handleToolCall_loop env i calls this
    = {| value := Normal; final := this; log := [] |}.
Proof.
  induction 1 as [| c r Hc _ IH]; intros i this; cbn [handleToolCall_loop].
  - reflexivity.
  - apply String.eqb_neq in Hc. rewrite Hc. apply IH.
Qed.

Lemma loop_prefix (env : MsgEnv) (pre rest : list FunctionCall) :
  Forall other_tool pre ->
  forall i this,
    handleToolCall_loop env i (pre ++ rest) this
    = handleToolCall_loop env (i + List.length pre) rest this.
Proof.
  induction 1 as [| c r Hc _ IH]; intros i this; cbn [app List.length handleToolCall_loop].
  - now rewrite Nat.add_0_r.
  - apply String.eqb_neq in Hc. rewrite Hc, IH. f_equal. lia.
Qed.

Lemma error_marker (x : string) : String.prefix "Error: " ("Error: " ++ x) = true.
Proof. apply String.prefix_correct. cbn. destruct x; reflexivity. Qed.

(** Running something that changes nothing before a computation
    changes nothing of it. *)
Lemma bind_modify_id {A : Type} (k : unit -> M A) (this : GeminiLive) :
  bind (modify (fun s => s)) k this = k tt this.
Proof. unfold bind. cbn [modify value final log app]. now destruct (k tt this). Qed.

Lemma bind_ext {A B : Type} (m : M A) (k k' : A -> M B) (this : GeminiLive) :
  (forall a s, k a s = k' a s) -> bind m k this = bind m k' this.
Proof. intros H. unfold bind. now rewrite H. Qed.

(** [handleToolCall_loop] is [handleToolCall_loopAsync] with nothing
    called meanwhile. *)
Lemma handleToolCall_atomic (env : MsgEnv) (calls : list FunctionCall) :
  forall (i : nat) (this : GeminiLive),
    handleToolCall_loopAsync (fun _ s => s) env i calls this
    = handleToolCall_loop env i calls this.
Proof.
  induction calls as [| call rest IH]; intros i this;
    cbn [handleToolCall_loopAsync handleToolCall_loop]; [reflexivity |].
  destruct (String.eqb (name call) "create_image"); [| apply IH].
  destruct (args call) as [prompt |]; [| reflexivity].
  rewrite bind_modify_id.
  repeat (apply bind_ext; intros). apply IH.
Qed.

(** One turn of the loop on a [create_image] call that has its
    arguments: what was called on the object while the request was under
    way has had its effect when the handle is read. *)
Lemma loopAsync_step (meanwhile : nat -> GeminiLive -> GeminiLive) (env : MsgEnv)
      (i : nat) (c : FunctionCall) (r : list FunctionCall) (this : GeminiLive) :
  name c = "create_image" -> args c <> None ->
  let rest := handleToolCall_loopAsync meanwhile env (S i) r (meanwhile i this) in
  handleToolCall_loopAsync meanwhile env i (c :: r) this
  = {| value := value rest; final := final rest;
       log := call_log (sessionPromise (meanwhile i this)) env (i, c) ++ log rest |}.
Proof.
  intros Hn Ha. destruct (args c) as [prompt|] eqn:Ea; [| congruence].
  cbv zeta. cbn [handleToolCall_loopAsync]. unfold call_log. cbn [fst snd].
  rewrite Hn, Ea. cbn [String.eqb Ascii.eqb Bool.eqb].
  set (rest := handleToolCall_loopAsync meanwhile env (S i) r).
  unfold bind at 1. cbn [modify value final log app].
  generalize (meanwhile i this). intros s.
  unfold bind.
  destruct (generateImages env i prompt) as [[bytes|] | message];
    cbn [generateImage truthy_opt responseText];
    [destruct (truthy bytes) eqn:T | |];
    cbn [ret value final log success data error andb truthy_opt bind get emit
         js_string];
    rewrite ?T; cbn [ret value final log bind get emit];
    (destruct (sessionPromise s) as [[| session |] |];
     cbn [then_ emit ret value final log app]; reflexivity).
Qed.

Lemma loopAsync_skip (meanwhile : nat -> GeminiLive -> GeminiLive) (env : MsgEnv)
      (i : nat) (c : FunctionCall) (r : list FunctionCall) (this : GeminiLive) :
  name c <> "create_image" ->
  handleToolCall_loopAsync meanwhile env i (c :: r) this
  = handleToolCall_loopAsync meanwhile env (S i) r this.
Proof.
  intros N. cbn [handleToolCall_loopAsync]. apply String.eqb_neq in N. now rewrite N.
Qed.

(** The log of the dispatcher while the handle stays held. *)
Lemma loopAsync_log (meanwhile : nat -> GeminiLive -> GeminiLive) (session : Handle)
      (env : MsgEnv) (calls : list FunctionCall) :
  Forall has_args calls ->
  (forall i s, sessionPromise s = Some (Fulfilled session) ->
               sessionPromise (meanwhile i s) = Some (Fulfilled session)) ->
  forall (i : nat) (this : GeminiLive),
    sessionPromise this = Some (Fulfilled session) ->
    value (handleToolCall_loopAsync meanwhile env i calls this) = Normal /\
    log (handleToolCall_loopAsync meanwhile env i calls this)
    = flat_map (call_log (Some (Fulfilled session)) env) (image_calls i calls).
Proof.
  intros Hargs Hkeep.
  induction Hargs as [| c r Hc _ IH]; intros i this Hs; [split; reflexivity |].
  cbn [image_calls].
  destruct (String.eqb_spec (name c) "create_image") as [E | N].
  - pose proof (loopAsync_step meanwhile env i c r this E (Hc E)) as K.
    cbv zeta in K. rewrite K. cbn [value log flat_map].
    rewrite (Hkeep i this Hs).
    destruct (IH (S i) (meanwhile i this) (Hkeep i this Hs)) as [V L].
    now rewrite V, L.
  - rewrite (loopAsync_skip meanwhile env i c r this N). now apply IH.
Qed.

(** What is logged for one call, read as the round trip of that call. *)
Lemma call_round_trip (session : Handle) (env : MsgEnv) (i : nat) (call : FunctionCall)
      (prompt : string) (this : GeminiLive) :
  args call = Some prompt ->
  let o := generateImages env i prompt in
  let result := value (generateImage o this) in
  let l := call_log (Some (Fulfilled session)) env (i, call) in
  responses l = [(id call, name call, responseText o)] /\
  (success result = true ->
   images l = [js_string (data result)] /\ responseText o = successText) /\
  (success result = false ->
   images l = [] /\ String.prefix "Error: " (responseText o) = true).
Proof.
  intros Ha. cbv zeta. unfold call_log. cbn [fst snd]. rewrite Ha.
  destruct (generateImages env i prompt) as [[bytes|] | message];
    cbn [generateImage truthy_opt responseText];
    [destruct (truthy bytes) eqn:T | |];
    cbn [ret bind emit value success data js_string app responses images flat_map];
    (split; [reflexivity | split; intros K; try discriminate K]);
    split; try reflexivity; apply error_marker.
Qed.

(** C8, as stated, fails twice.  In an event whose first [create_image]
    call comes without [args] the dispatcher throws, and the call with a
    valid prompt that follows gets no response.  And when [disconnect] is
    called while the image request is under way, the handle is gone when
    the dispatcher reads it: the image is shown and no response is
    sent. *)
Lemma tool_round_trip_counterexample :
  ~ every_call_answered (fun _ s => s) imageEnv [badCall; imageCall] connected /\
  ~ every_call_answered (fun _ s => final (disconnect s)) imageEnv [imageCall] connected /\
  images (log (handleToolCallAsync (fun _ s => final (disconnect s)) imageEnv
                 {| functionCalls := Some [imageCall] |} connected)) = ["abc"].
Proof.
  split; [| split; [| vm_compute; reflexivity]].
  - intros [V _]. vm_compute in V. discriminate V.
  - intros [_ K].
    specialize (K imageCall "a red kite" (or_introl eq_refl) eq_refl eq_refl).
    vm_compute in K. discriminate K.
Qed.

(** C8 (amended).  For a tool-call event in which every [create_image]
    call carries its arguments, and when the session handle is held and
    fulfilled as the event arrives and is neither dropped nor replaced
    while an image request is under way: the dispatcher completes
    normally, and what it does is, for each [create_image] call in turn,
    the round trip of that call: exactly one tool response, with the
    identifier and name of the call; when [generateImage] succeeds,
    [onImageGenerated] once, with the image data, and the success text;
    when it fails, no [onImageGenerated] and a text that starts with the
    error marker. *)
Theorem tool_round_trip (meanwhile : nat -> GeminiLive -> GeminiLive)
        (this : GeminiLive) (session : Handle) (env : MsgEnv)
        (calls : list FunctionCall) :
  Forall has_args calls -> handle_held session meanwhile this ->
  let r := handleToolCallAsync meanwhile env {| functionCalls := Some calls |} this in
  value r = Normal /\
  log r = flat_map (call_log (Some (Fulfilled session)) env) (image_calls 0 calls) /\
  forall (i : nat) (call : FunctionCall) (prompt : string),
    In (i, call) (image_calls 0 calls) -> args call = Some prompt ->
    let o := generateImages env i prompt in
    let result := value (generateImage o this) in
    let l := call_log (Some (Fulfilled session)) env (i, call) in
    responses l = [(id call, name call, responseText o)] /\
    (success result = true ->
     images l = [js_string (data result)] /\ responseText o = successText) /\
    (success result = false ->
     images l = [] /\ String.prefix "Error: " (responseText o) = true).
Proof.
  intros Hargs [Hs Hkeep]. cbv zeta.
  assert (E : handleToolCallAsync meanwhile env {| functionCalls := Some calls |} this
              = handleToolCall_loopAsync meanwhile env 0 calls this)
    by (unfold handleToolCallAsync; cbn [functionCalls]; destruct calls; reflexivity).
  rewrite E.
  destruct (loopAsync_log meanwhile session env calls Hargs Hkeep 0 this Hs) as [V L].
  split; [exact V | split; [exact L |]].
  intros i call prompt _ Ha.
  exact (call_round_trip session env i call prompt this Ha).
Qed.

Lemma tool_round_trip_witness :
  Forall has_args [imageCall] /\
  handle_held 9%nat (fun _ s => s) connected /\
  log (handleToolCallAsync (fun _ s => s) imageEnv
         {| functionCalls := Some [imageCall] |} connected)
  = [onImageGenerated "abc";
     sendToolResponse 9%nat "call-1" "create_image" "Image generated successfully."].
Proof.
  assert (A : Forall has_args [imageCall])
    by (repeat constructor; intros _; discriminate).
  assert (H : handle_held 9%nat (fun _ s => s) connected)
    by (split; [reflexivity | intros i s K; exact K]).
  split; [exact A | split; [exact H |]].
  exact (proj1 (proj2 (tool_round_trip (fun _ s => s) connected 9%nat imageEnv
                         [imageCall] A H))).
Defined.

(** When the handle is gone as the dispatcher reads it, after
    [disconnect] for one, the response of the call has nowhere to go. *)
Lemma tool_response_dropped (meanwhile : nat -> GeminiLive -> GeminiLive)
      (this : GeminiLive) (env : MsgEnv) (call : FunctionCall) (prompt : string) :
  sessionPromise (meanwhile 0%nat this) = None ->
  name call = "create_image" -> args call = Some prompt ->
  responses (log (handleToolCallAsync meanwhile env
                    {| functionCalls := Some [call] |} this)) = [].
Proof.
  intros Hs Hn Ha. unfold handleToolCallAsync. cbn [functionCalls].
  assert (A : args call <> None) by congruence.
  pose proof (loopAsync_step meanwhile env 0 call [] this Hn A) as K.
  cbv zeta in K. rewrite K. cbn [log handleToolCall_loopAsync ret].
  rewrite Hs, app_nil_r. unfold call_log. cbn [fst snd]. rewrite Ha.
  destruct (generateImages env 0 prompt) as [[bytes|] | message];
    [destruct (truthy bytes) | |]; reflexivity.
Qed.

(* ================================================================== *)
(** ** Further properties: the PCM framer *)
(* ================================================================== *)

Lemma Qtrunc_Z (z : Z) : Qtrunc (inject_Z z) = z.
Proof.
  unfold Qtrunc. destruct (Qle_bool 0 (inject_Z z));
    [apply Qfloor_Z | apply Qceiling_Z].
Qed.

Lemma Qtrunc_of_Z (z : Z) (v : Q) : v == inject_Z z -> Qtrunc v = z.
Proof.
  intros E.
  assert (L1 : v <= inject_Z z) by (rewrite E; apply Qle_refl).
  assert (L2 : inject_Z z <= v) by (rewrite E; apply Qle_refl).
  apply Qtrunc_resp_le in L1, L2. rewrite Qtrunc_Z in L1, L2. lia.
Qed.

(** The clamped, scaled value of any finite sample. *)
Lemma clamp_range (w : Q) :
  -32768 <= Qmax (-32768) (Qmin 32767 w) /\ Qmax (-32768) (Qmin 32767 w) <= 32767.
Proof.
  split.
  - apply Q.le_max_l.
  - apply Q.max_lub; [discriminate | apply Q.le_min_l].
Qed.

Lemma quantize_Fin (q : Q) :
  quantize (Fin q) = Qtrunc (Qmax (-32768) (Qmin 32767 (q * 32768))).
Proof.
  unfold quantize. cbn [times32768 Math_min Math_max ToInt16].
  apply wrap16_id.
  destruct (clamp_range (q * 32768)) as [A B].
  apply (@Qtrunc_between (-32768) 32767); [lia | exact A | exact B].
Qed.

(** X1 (saturation).  Whatever the sample, the stored value is a signed
    16-bit integer; a finite sample of 1 or more is stored as 32767 and
    one of -1 or less as -32768 (nothing wraps around), the infinities are
    stored as the two bounds and [NaN] as 0. *)
Theorem quantize_saturates :
  (forall x : number, is_int16 (quantize x)) /\
  (forall q : Q, 1 <= q -> quantize (Fin q) = 32767%Z) /\
  (forall q : Q, q <= -1 -> quantize (Fin q) = (-32768)%Z) /\
  quantize PosInf = 32767%Z /\ quantize NegInf = (-32768)%Z /\ quantize NaN = 0%Z.
Proof.
  split; [exact quantize_int16 | split; [| split]].
  - intros q H. rewrite quantize_Fin. apply Qtrunc_of_Z.
    change (inject_Z 32767) with 32767.
    rewrite Q.min_l by lra. apply Q.max_r. discriminate.
  - intros q H. rewrite quantize_Fin. apply Qtrunc_of_Z.
    change (inject_Z (-32768)) with (-32768).
    rewrite Q.min_r by lra. apply Q.max_l. lra.
  - repeat split; reflexivity.
Qed.

Lemma quantize_saturates_witness :
  1 <= 3 # 2 /\ quantize (Fin (3 # 2)) = 32767%Z /\
  -2 <= -1 /\ quantize (Fin (-2)) = (-32768)%Z.
Proof.
  assert (H1 : 1 <= 3 # 2) by (unfold Qle; simpl; lia).
  assert (H2 : -2 <= -1) by (unfold Qle; simpl; lia).
  split; [exact H1 | split; [| split; [exact H2 |]]].
  - exact (proj1 (proj2 quantize_saturates) (3 # 2) H1).
  - exact (proj1 (proj2 (proj2 quantize_saturates)) (-2) H2).
Defined.

(** X2 (monotone quantizer).  A larger finite sample is never stored as
    a smaller 16-bit value. *)
Theorem quantize_monotone (q1 q2 : Q) :
  q1 <= q2 -> (quantize (Fin q1) <= quantize (Fin q2))%Z.
Proof.
  intros H. rewrite !quantize_Fin. apply Qtrunc_resp_le.
  apply Q.max_le_compat_l, Q.min_le_compat_l.
  apply Qmult_le_compat_r; [exact H | discriminate].
Qed.

Lemma quantize_monotone_witness :
  1 # 3 <= 1 # 2 /\ (quantize (Fin (1 # 3)) <= quantize (Fin (1 # 2)))%Z.
Proof.
  assert (H : 1 # 3 <= 1 # 2) by (unfold Qle; simpl; lia).
  split; [exact H | exact (quantize_monotone (1 # 3) (1 # 2) H)].
Defined.

Lemma btoa_groups_length (bs : list Z) :
  List.length (Base64.btoa_groups bs) = (4 * ((List.length bs + 2) / 3))%nat.
Proof.
  induction bs as [| a | a b | a b c r IH] using list_ind3; try reflexivity.
  cbn [Base64.btoa_groups List.length]. rewrite IH.
  replace (S (S (S (List.length r))) + 2)%nat with (1 * 3 + (List.length r + 2))%nat
    by lia.
  rewrite Nat.div_add_l by discriminate. lia.
Qed.

Lemma btoa_groups_chars (bs : list Z) :
  Forall is_byte bs -> Forall is_base64_char (Base64.btoa_groups bs).
Proof.
  intros H. rewrite Base64Facts.btoa_groups_split. apply Forall_app. split.
  - pose proof (Base64Facts.enc_sextets_range H) as S.
    apply Forall_forall. intros c Hc. apply in_map_iff in Hc.
    destruct Hc as [n [<- Hn]]. left.
    rewrite Base64Facts.b64value_b64char; [discriminate|].
    exact (proj1 (Forall_forall _ _) S n Hn).
  - destruct (Base64Facts.enc_pad_cases bs) as [-> | [-> | ->]];
      repeat constructor; right; reflexivity.
Qed.

Lemma length_string_of_list_ascii (l : list ascii) :
  String.length (string_of_list_ascii l) = List.length l.
Proof. induction l as [| c l IH]; cbn; [reflexivity | now rewrite IH]. Qed.

Lemma bytes_of_int16_length (vs : list Z) :
  List.length (bytes_of_int16 vs) = (2 * List.length vs)%nat.
Proof.
  induction vs as [| v vs IH]; [reflexivity|].
  cbn [bytes_of_int16 flat_map app List.length]. fold (bytes_of_int16 vs).
  rewrite IH. lia.
Qed.

(** The text of [encodeAudio] as the groups of its bytes. *)
Lemma encodeAudio_chars (inputData : list number) :
  list_ascii_of_string (encodeAudio inputData)
  = Base64.btoa_groups (bytes_of_int16 (map quantize inputData)).
Proof.
  unfold encodeAudio, Base64.btoa. fold quantize.
  rewrite binary_of_bytes_spec, !list_ascii_of_string_of_list_ascii, map_map.
  rewrite map_fixed; [reflexivity|].
  eapply Forall_impl; [| apply bytes_of_int16_bytes].
  intros b Hb. now apply Base64Facts.charCodeAt_fromCharCode.
Qed.

(** X3 (frame size and alphabet).  A window of n samples is encoded as
    4 * ceil(2n / 3) characters, each of the base64 alphabet or the
    padding sign, whatever the samples are. *)
Theorem encodeAudio_text (inputData : list number) :
  String.length (encodeAudio inputData)
  = (4 * ((2 * List.length inputData + 2) / 3))%nat /\
  Forall is_base64_char (list_ascii_of_string (encodeAudio inputData)).
Proof.
  split.
  - rewrite <- (string_of_list_ascii_of_string (encodeAudio inputData)).
    rewrite length_string_of_list_ascii, encodeAudio_chars.
    now rewrite btoa_groups_length, bytes_of_int16_length, length_map.
  - rewrite encodeAudio_chars. apply btoa_groups_chars, bytes_of_int16_bytes.
Qed.

Section Pairs.
Variable A : Type.
Variable P : list A -> Prop.
Hypothesis P0 : P [].
Hypothesis P1 : forall a, P [a].
Hypothesis P2 : forall a b r, P r -> P (a :: b :: r).

Fixpoint list_ind2 (l : list A) : P l :=
  match l with
  | [] => P0
  | [a] => P1 a
  | a :: b :: r => P2 a b r (list_ind2 r)
  end.
End Pairs.

Lemma int16_of_pair_range (lo hi : Z) :
  is_byte lo -> is_byte hi ->
  is_int16 (int16_of_pair lo hi) /\
  (int16_of_pair lo hi mod 256 = lo /\ (int16_of_pair lo hi / 256) mod 256 = hi)%Z.
Proof.
  unfold is_byte, is_int16, int16_of_pair. intros Hlo Hhi.
  destruct (Z.ltb_spec (lo + 256 * hi) 32768);
    repeat split; Z.div_mod_to_equations; lia.
Qed.

Lemma int16_of_bytes_odd (bytes : list Z) :
  Nat.even (List.length bytes) = false -> int16_of_bytes bytes = None.
Proof.
  induction bytes as [| a | lo hi r IH] using list_ind2; intros H.
  - discriminate H.
  - reflexivity.
  - cbn [List.length] in H. rewrite Nat.even_succ_succ in H.
    cbn [int16_of_bytes]. now rewrite (IH H).
Qed.

(** X4 (16-bit view of a byte buffer).  A buffer of an odd number of
    bytes has no 16-bit view; a buffer of an even number of bytes has one,
    of half as many elements, all signed 16-bit values, whose bytes are
    the bytes of the buffer. *)
Theorem int16_view (bytes : list Z) :
  Forall is_byte bytes ->
  (Nat.even (List.length bytes) = false -> int16_of_bytes bytes = None) /\
  (Nat.even (List.length bytes) = true ->
   exists dataInt16,
     int16_of_bytes bytes = Some dataInt16 /\
     List.length bytes = (2 * List.length dataInt16)%nat /\
     Forall is_int16 dataInt16 /\
     bytes_of_int16 dataInt16 = bytes).
Proof.
  induction bytes as [| a | lo hi r IH] using list_ind2; intros H.
  - split; [discriminate|]. intros _. exists []. repeat split. constructor.
  - split; [reflexivity | discriminate].
  - inversion_clear H as [| ? ? Hlo H']. inversion_clear H' as [| ? ? Hhi Hr].
    destruct (IH Hr) as [Iodd Ieven].
    destruct (int16_of_pair_range lo hi Hlo Hhi) as [R [B1 B2]].
    cbn [List.length int16_of_bytes]. rewrite Nat.even_succ_succ. split.
    + intros E. now rewrite (Iodd E).
    + intros E. destruct (Ieven E) as [vs [V1 [V2 [V3 V4]]]].
      exists (int16_of_pair lo hi :: vs). rewrite V1.
      split; [reflexivity | split; [cbn [List.length]; lia | split]].
      * now constructor.
      * cbn [bytes_of_int16 flat_map app]. fold (bytes_of_int16 vs).
        now rewrite V4, B1, B2.
Qed.

Lemma int16_view_witness :
  Forall is_byte [255; 127; 0; 128; 7]%Z /\
  Nat.even (List.length [255; 127; 0; 128; 7]%Z) = false /\
  int16_of_bytes [255; 127; 0; 128; 7]%Z = None /\
  Forall is_byte [255; 127; 0; 128]%Z /\
  Nat.even (List.length [255; 127; 0; 128]%Z) = true /\
  exists dataInt16,
    int16_of_bytes [255; 127; 0; 128]%Z = Some dataInt16 /\
    List.length [255; 127; 0; 128]%Z = (2 * List.length dataInt16)%nat /\
    Forall is_int16 dataInt16 /\
    bytes_of_int16 dataInt16 = [255; 127; 0; 128]%Z.
Proof.
  assert (H5 : Forall is_byte [255; 127; 0; 128; 7]%Z)
    by (repeat constructor; unfold is_byte; lia).
  assert (H4 : Forall is_byte [255; 127; 0; 128]%Z)
    by (repeat constructor; unfold is_byte; lia).
  split; [exact H5 | split; [reflexivity | split]].
  - exact (proj1 (int16_view _ H5) eq_refl).
  - split; [exact H4 | split; [reflexivity |]].
    exact (proj2 (int16_view _ H4) eq_refl).
Defined.

(* ================================================================== *)
(** ** Further properties: playback *)
(* ================================================================== *)

Lemma playAudio_undecodable (this : GeminiLive) (env : MsgEnv) (d : string) :
  audioContext this <> None -> audio_buffer d = None ->
  playAudio env d this
  = {| value := tt; final := this;
       log := [console_error "Error playing audio chunk"] |}.
Proof.
  intros Hctx Hbuf. unfold audio_buffer in Hbuf. unfold playAudio.
  unfold bind. cbn [get value final log].
  destruct (audioContext this) as [ctx|]; [| congruence].
  destruct (decodeInt16 d) as [dataInt16|]; [| reflexivity].
  destruct (createBuffer 1 (List.length dataInt16) 24000) as [b|];
    [discriminate | reflexivity].
Qed.

(** X5 (a bad chunk is skipped).  On a session that holds its output
    context, a chunk that does not decode to a buffer makes [playAudio] log
    one error and change nothing; the chunk enqueued after it is scheduled
    exactly as if the bad one had never arrived. *)
Theorem playAudio_skips_bad_chunk (this : GeminiLive) (env env' : MsgEnv)
        (d d' : string) :
  audioContext this <> None -> audio_buffer d = None ->
  log (playAudio env d this) = [console_error "Error playing audio chunk"] /\
  final (playAudio env d this) = this /\
  let r := enqueue_all [(env, d); (env', d')] this in
  final r = final (playAudio env' d' this) /\
  scheduled (log r) = scheduled (log (playAudio env' d' this)).
Proof.
  intros Hctx Hbuf.
  rewrite (playAudio_undecodable this env d Hctx Hbuf). cbn [log final].
  split; [reflexivity | split; [reflexivity |]].
  unfold enqueue_all. cbn [forEach fst snd]. unfold bind.
  rewrite (playAudio_undecodable this env d Hctx Hbuf).
  cbn [log final value ret]. rewrite app_nil_r. split; reflexivity.
Qed.

Lemma playAudio_skips_bad_chunk_witness :
  audioContext connected <> None /\ audio_buffer "AA" = None /\
  final (playAudio (fst chunk1) "AA" connected) = connected /\
  scheduled (log (enqueue_all [(fst chunk1, "AA"); chunk2] connected))
  = scheduled (log (playAudio (fst chunk2) (snd chunk2) connected)).
Proof.
  assert (H1 : audioContext connected <> None) by (vm_compute; discriminate).
  assert (H2 : audio_buffer "AA" = None) by (vm_compute; reflexivity).
  pose proof (playAudio_skips_bad_chunk connected (fst chunk1) (fst chunk2) "AA"
                (snd chunk2) H1 H2) as K.
  destruct K as [_ [K1 K2]]. cbv zeta in K2. destruct K2 as [_ K2].
  split; [exact H1 | split; [exact H2 | split; [exact K1 | exact K2]]].
Defined.

Lemma sextets_outside (c : ascii) (l : list ascii) :
  In c l -> Base64.b64value c = None -> Base64.sextets l = None.
Proof.
  intros Hin Hc. induction l as [| x l IH]; [contradiction|].
  cbn [Base64.sextets]. destruct Hin as [-> | Hin].
  - now rewrite Hc.
  - rewrite (IH Hin). now destruct (Base64.b64value x).
Qed.

Lemma strip_padding_keeps (c : ascii) (l : list ascii) :
  In c l -> c <> "="%char -> In c (Base64.strip_padding l).
Proof.
  intros Hin Hc. unfold Base64.strip_padding.
  assert (Hrev : In c (rev l)) by now apply in_rev in Hin.
  destruct (rev l) as [| c1 [| c2 r]]; [exact Hin | |].
  - destruct (Ascii.eqb_spec c1 "="); [| exact Hin].
    destruct Hrev as [-> | []]. contradiction.
  - destruct (Ascii.eqb_spec c1 "="); [| exact Hin].
    destruct Hrev as [-> | Hrev]; [contradiction|].
    destruct (Ascii.eqb_spec c2 "=").
    + destruct Hrev as [-> | Hrev]; [contradiction|]. now apply in_rev in Hrev.
    + now apply in_rev in Hrev.
Qed.

Lemma atob_outside (d : string) (c : ascii) :
  In c (list_ascii_of_string d) -> Base64.is_whitespace c = false ->
  c <> "="%char -> Base64.b64value c = None -> Base64.atob d = None.
Proof.
  intros Hin Hws Hpad Hval. unfold Base64.atob.
  set (d0 := filter _ _).
  assert (H0 : In c d0).
  { apply filter_In. split; [exact Hin | now rewrite Hws]. }
  set (d1 := if (List.length d0 mod 4 =? 0)%nat then _ else _).
  assert (H1 : In c d1).
  { subst d1. destruct (List.length d0 mod 4 =? 0)%nat;
      [now apply strip_padding_keeps | exact H0]. }
  rewrite (sextets_outside c d1 H1 Hval).
  now destruct (List.length d1 mod 4 =? 1)%nat.
Qed.

(** X6 (chunks that cannot be played).  [playAudio] builds no buffer
    from a chunk that holds a character outside the base64 alphabet (other
    than white space and the padding sign), from one whose bytes are odd
    in number, or from one that holds no byte at all, the empty text
    included. *)
Theorem undecodable_chunks (d : string) :
  (forall c : ascii,
      In c (list_ascii_of_string d) -> Base64.is_whitespace c = false ->
      c <> "="%char -> Base64.b64value c = None -> audio_buffer d = None) /\
  (forall binaryString : string,
      Base64.atob d = Some binaryString ->
      Nat.even (String.length binaryString) = false -> audio_buffer d = None) /\
  (Base64.atob d = Some "" -> audio_buffer d = None).
Proof.
  split; [| split].
  - intros c H1 H2 H3 H4. unfold audio_buffer, decodeInt16.
    now rewrite (atob_outside d c H1 H2 H3 H4).
  - intros b Hb Hodd. unfold audio_buffer, decodeInt16. rewrite Hb.
    rewrite int16_of_bytes_odd; [reflexivity|].
    rewrite length_map, <- length_string_of_list_ascii.
    now rewrite string_of_list_ascii_of_string.
  - intros Hb. unfold audio_buffer, decodeInt16. now rewrite Hb.
Qed.

Lemma undecodable_chunks_witness :
  In "*"%char (list_ascii_of_string "AA*A") /\ audio_buffer "AA*A" = None /\
  Base64.atob "AA==" = Some (String (ascii_of_N 0) "") /\ audio_buffer "AA==" = None /\
  Base64.atob " " = Some "" /\ audio_buffer " " = None.
Proof.
  assert (H1 : In "*"%char (list_ascii_of_string "AA*A"))
    by (right; right; left; reflexivity).
  assert (H2 : Base64.atob "AA==" = Some (String (ascii_of_N 0) ""))
    by (vm_compute; reflexivity).
  assert (H3 : Base64.atob " " = Some "") by (vm_compute; reflexivity).
  split; [exact H1 | split; [| split; [exact H2 | split; [| split; [exact H3 |]]]]].
  - apply (proj1 (undecodable_chunks "AA*A") "*"%char H1); try reflexivity.
    discriminate.
  - exact (proj1 (proj2 (undecodable_chunks "AA==")) _ H2 eq_refl).
  - exact (proj2 (proj2 (undecodable_chunks " ")) H3).
Defined.

Lemma set_remove_add_fresh (s : Handle) (l : list Handle) :
  ~ In s l -> set_remove Nat.eq_dec s (set_add Nat.eq_dec s l) = l.
Proof.
  induction l as [| x l IH]; intros H; cbn [set_add set_remove].
  - destruct (Nat.eq_dec s s); [reflexivity | congruence].
  - destruct (Nat.eq_dec s x) as [-> | N].
    + exfalso. apply H. now left.
    + cbn [set_remove]. destruct (Nat.eq_dec s x); [contradiction|].
      rewrite IH; [reflexivity|]. intros K. apply H. now right.
Qed.

(** X7 (life of a playback unit).  The source of a chunk that decodes is
    in the active set once [playAudio] has scheduled it, and when its
    ended notification comes the active set is again what it was before
    the chunk, the node being a new one. *)
Theorem unit_lifecycle (this : GeminiLive) (env : MsgEnv) (d : string)
        (buffer : AudioBuffer) :
  audioContext this <> None -> audio_buffer d = Some buffer ->
  ~ In (createBufferSource env) (sources this) ->
  let scheduled_ := final (playAudio env d this) in
  In (createBufferSource env) (sources scheduled_) /\
  sources (final (onended (createBufferSource env) scheduled_)) = sources this.
Proof.
  intros Hctx Hbuf Hfresh.
  destruct (playAudio_decoded this env d buffer Hctx Hbuf) as [_ [_ [_ S]]].
  cbv zeta in *. split.
  - rewrite S. apply set_add_iff. now left.
  - unfold onended. cbn [modify final sources set_sources]. rewrite S.
    now apply set_remove_add_fresh.
Qed.

Lemma unit_lifecycle_witness :
  audioContext playing <> None /\
  audio_buffer (snd chunk2) <> None /\
  ~ In (createBufferSource (fst chunk2)) (sources playing) /\
  sources (final (onended (createBufferSource (fst chunk2))
                          (final (playAudio (fst chunk2) (snd chunk2) playing))))
  = sources playing.
Proof.
  assert (H1 : audioContext playing <> None) by (vm_compute; discriminate).
  assert (H2 : audio_buffer (snd chunk2) = Some
            {| frames := 3; sampleRate := 24000;
               channelData := [Fin (0 # 32768); Fin (0 # 32768); Fin (0 # 32768)] |})
    by (vm_compute; reflexivity).
  assert (H3 : ~ In (createBufferSource (fst chunk2)) (sources playing)).
  { vm_compute. intros [K | []]. discriminate K. }
  split; [exact H1 | split; [rewrite H2; discriminate | split; [exact H3 |]]].
  exact (proj2 (unit_lifecycle playing (fst chunk2) (snd chunk2) _ H1 H2 H3)).
Defined.

Lemma context_kept_playAudio (c : option Handle) (env : MsgEnv) (d : string) :
  preserves (fun this => audioContext this = c) (playAudio env d).
Proof. unfold playAudio. repeat preserve_step field_kept. Qed.

(** No message changes which output context the object holds. *)
Lemma context_kept_handleMessage (c : option Handle) (env : MsgEnv)
      (m : LiveServerMessage) :
  preserves (fun this => audioContext this = c) (handleMessage env m).
Proof.
  unfold handleMessage, stopAudio.
  repeat first [ apply context_kept_playAudio | preserve_step field_kept ].
Qed.

(** X8 (fresh start after an interruption).  After the handling of any
    message that carries the interruption flag, the next chunk that
    decodes is started at the reading of the clock itself, whatever the
    cursor was before. *)
Theorem restart_after_interruption (this : GeminiLive) (env env' : MsgEnv)
        (m : LiveServerMessage) (d : string) (buffer : AudioBuffer) :
  audioContext this <> None -> interrupted m = true ->
  audio_buffer d = Some buffer -> 0 <= currentTime env' ->
  exists start : Q,
    log (playAudio env' d (final (handleMessage env m this)))
    = [source_start (createBufferSource env') buffer start] /\
    start == currentTime env'.
Proof.
  intros Hctx Hint Hbuf Hnow.
  destruct (handleMessage_interrupted env m this Hint) as [_ [_ Z]].
  cbv zeta in Z.
  assert (C : audioContext (final (handleMessage env m this)) <> None).
  { now rewrite (context_kept_handleMessage (audioContext this) env m this eq_refl). }
  destruct (playAudio_decoded _ env' d buffer C Hbuf) as [L _]. cbv zeta in L.
  rewrite Z in L. eexists. split; [exact L|].
  apply Q.max_l. exact Hnow.
Qed.

Lemma restart_after_interruption_witness :
  audioContext playing <> None /\ interrupted interruptionMessage = true /\
  0 <= currentTime (fst chunk2) /\
  exists start : Q,
    log (playAudio (fst chunk2) (snd chunk2)
           (final (handleMessage (fst chunk1) interruptionMessage playing)))
    = [source_start (createBufferSource (fst chunk2))
         {| frames := 3; sampleRate := 24000;
            channelData := [Fin (0 # 32768); Fin (0 # 32768); Fin (0 # 32768)] |}
         start] /\
    start == currentTime (fst chunk2).
Proof.
  assert (H1 : audioContext playing <> None) by (vm_compute; discriminate).
  assert (H2 : audio_buffer (snd chunk2) = Some
            {| frames := 3; sampleRate := 24000;
               channelData := [Fin (0 # 32768); Fin (0 # 32768); Fin (0 # 32768)] |})
    by (vm_compute; reflexivity).
  assert (H3 : 0 <= currentTime (fst chunk2)) by (vm_compute; discriminate).
  split; [exact H1 | split; [reflexivity | split; [exact H3 |]]].
  exact (restart_after_interruption playing (fst chunk1) (fst chunk2)
           interruptionMessage (snd chunk2) _ H1 eq_refl H2 H3).
Defined.

Lemma audio_buffer_truthy (d : string) (buffer : AudioBuffer) :
  audio_buffer d = Some buffer -> truthy d = true.
Proof. destruct d; [vm_compute; discriminate | reflexivity]. Qed.

(** X9 (audio on an interruption message).  When one message carries
    both a chunk that decodes and the interruption flag, the source of the
    chunk is started and then stopped within the same handling, together
    with every source that was active; the active set ends empty and the
    cursor at 0. *)
Theorem interrupted_audio (this : GeminiLive) (env : MsgEnv) (d : string)
        (buffer : AudioBuffer) :
  audioContext this <> None -> audio_buffer d = Some buffer ->
  let r := handleMessage env (interruptedAudioMessage d) this in
  log r
  = source_start (createBufferSource env) buffer
      (Qmax (currentTime env) (nextStartTime this))
    :: map source_stop (set_add Nat.eq_dec (createBufferSource env) (sources this)) /\
  In (createBufferSource env) (stopped_sources (log r)) /\
  sources (final r) = [] /\ nextStartTime (final r) = 0.
Proof.
  intros Hctx Hbuf.
  destruct (playAudio_decoded this env d buffer Hctx Hbuf) as [L [_ [_ S]]].
  cbv zeta in L, S.
  assert (E : log (handleMessage env (interruptedAudioMessage d) this)
              = source_start (createBufferSource env) buffer
                  (Qmax (currentTime env) (nextStartTime this))
                :: map source_stop
                     (set_add Nat.eq_dec (createBufferSource env) (sources this))).
  { unfold handleMessage, interruptedAudioMessage.
    cbn [audioData outputTranscription inputTranscription turnComplete interrupted
         toolCall truthy_opt js_string].
    rewrite (audio_buffer_truthy d buffer Hbuf).
    destruct (audioContext this) as [ctx|] eqn:C; [| congruence].
    cbn [not_null andb]. unfold bind.
    cbn [get ret modify value final log]. rewrite stopAudio_result.
    cbn [value final log]. rewrite C. cbn [not_null].
    rewrite L, S, !app_nil_r. reflexivity. }
  cbv zeta. rewrite E. split; [reflexivity | split].
  - cbn [stopped_sources flat_map app].
    fold (stopped_sources (map source_stop
            (set_add Nat.eq_dec (createBufferSource env) (sources this)))).
    rewrite stopped_sources_map. apply set_add_iff. now left.
  - destruct (handleMessage_interrupted env (interruptedAudioMessage d) this eq_refl)
      as [A [_ B]]. now split.
Qed.

Lemma interrupted_audio_witness :
  audioContext playing <> None /\ audio_buffer (snd chunk2) <> None /\
  In (createBufferSource (fst chunk2))
     (stopped_sources
        (log (handleMessage (fst chunk2) (interruptedAudioMessage (snd chunk2))
                playing))).
Proof.
  assert (H1 : audioContext playing <> None) by (vm_compute; discriminate).
  assert (H2 : audio_buffer (snd chunk2) = Some
            {| frames := 3; sampleRate := 24000;
               channelData := [Fin (0 # 32768); Fin (0 # 32768); Fin (0 # 32768)] |})
    by (vm_compute; reflexivity).
  split; [exact H1 | split; [rewrite H2; discriminate |]].
  exact (proj1 (proj2 (interrupted_audio playing (fst chunk2) (snd chunk2) _ H1 H2))).
Defined.

(* ================================================================== *)
(** ** Further properties: the session after [disconnect] *)
(* ================================================================== *)

Ltac torn :=
  match goal with
  | T : torn_down _ |- torn_down _ =>
      let A := fresh in let B := fresh in let C := fresh in let D := fresh in
      destruct T as [A [B [C D]]]; unfold torn_down;
      cbn [audioContext inputAudioContext stream sessionPromise
           set_audioContext set_inputAudioContext set_stream set_nextStartTime
           set_sources set_sessionPromise set_currentInputTranscription
           set_currentOutputTranscription];
      repeat split; first [assumption | reflexivity]
  end.

Lemma silent_ret {A : Type} (a : A) : silent (ret a).
Proof. intros this T. split; [exact T | reflexivity]. Qed.

Lemma silent_emit (e : Effect) : reaches_out e = false -> silent (emit e).
Proof. intros H this T. split; [exact T | cbn; now rewrite H]. Qed.

Lemma silent_bind {A B : Type} (m : M A) (k : A -> M B) :
  silent m -> (forall a, silent (k a)) -> silent (bind m k).
Proof.
  intros Hm Hk this T. destruct (Hm this T) as [T1 Q1].
  destruct (Hk (value (m this)) (final (m this)) T1) as [T2 Q2].
  unfold bind. cbn [final log]. split; [exact T2|].
  now rewrite existsb_app, Q1, Q2.
Qed.

Lemma silent_bind_get {B : Type} (k : GeminiLive -> M B) :
  (forall this, silent_at this (k this)) -> silent (bind get k).
Proof.
  intros Hk this T. destruct (Hk this T) as [T2 Q2].
  unfold bind. cbn [get value final log app]. now split.
Qed.

Lemma silent_modify (f : GeminiLive -> GeminiLive) :
  (forall this, torn_down this -> torn_down (f this)) -> silent (modify f).
Proof. intros H this T. split; [now apply H | reflexivity]. Qed.

Lemma silent_forEach {A : Type} (xs : list A) (f : A -> M unit) :
  (forall x, silent (f x)) -> silent (forEach xs f).
Proof.
  intros H. induction xs as [| x r IH]; cbn [forEach].
  - apply silent_ret.
  - apply silent_bind; [apply H | intro; exact IH].
Qed.

Lemma silent_generateImage (o : ApiOutcome) : silent (generateImage o).
Proof.
  destruct o as [b | m]; cbn [generateImage].
  - destruct (truthy_opt b); apply silent_ret.
  - apply silent_bind; [now apply silent_emit | intro; apply silent_ret].
Qed.

Ltac silent_step :=
  first
    [ apply silent_ret
    | apply silent_generateImage
    | apply silent_emit; reflexivity
    | apply silent_modify; intros ? ?; torn
    | apply silent_forEach; intro
    | apply silent_bind; [| intro]
    | match goal with
      | |- silent (match ?x with _ => _ end) => destruct x
      end ].

Lemma silent_playAudio (env : MsgEnv) (d : string) : silent (playAudio env d).
Proof.
  unfold playAudio. apply silent_bind_get. intros this T.
  destruct T as [A T']. rewrite A. apply silent_ret. unfold torn_down. tauto.
Qed.

Lemma silent_handleToolCall_loop (env : MsgEnv) (calls : list FunctionCall) :
  forall i, silent (handleToolCall_loop env i calls).
Proof.
  induction calls as [| call rest IH]; intro i; cbn [handleToolCall_loop].
  - apply silent_ret.
  - destruct (String.eqb (name call) "create_image"); [| apply IH].
    destruct (args call) as [prompt|]; [| apply silent_ret].
    apply silent_bind; [apply silent_generateImage | intro result].
    apply silent_bind; [repeat silent_step | intro content].
    apply silent_bind_get. intros this T.
    assert (S : sessionPromise this = None) by apply T. rewrite S.
    revert T. apply silent_bind; [apply silent_ret | intro; apply IH].
Qed.

Lemma silent_disconnect : silent disconnect.
Proof.
  unfold disconnect.
  apply silent_bind; [now apply silent_emit | intro].
  apply silent_bind_get. intros this T.
  assert (S : stream this = None) by apply T. rewrite S. revert T.
  apply silent_bind; [apply silent_ret | intro].
  apply silent_bind_get. intros this' T.
  assert (S' : inputAudioContext this' = None) by apply T. rewrite S'. revert T.
  apply silent_bind; [apply silent_ret | intro].
  apply silent_bind_get. intros this'' T.
  assert (S'' : audioContext this'' = None) by apply T. rewrite S''. revert T.
  repeat silent_step.
Qed.

Lemma silent_handleMessage (env : MsgEnv) (m : LiveServerMessage) :
  silent (handleMessage env m).
Proof.
  unfold handleMessage, stopAudio, handleToolCall.
  repeat first [ apply silent_playAudio | apply silent_handleToolCall_loop
               | silent_step ].
Qed.

Lemma silent_step_op (op : Op) : is_handler op = true -> silent (step op).
Proof.
  destruct op; cbn [is_handler step]; intros H; try discriminate H.
  - apply silent_disconnect.
  - unfold handleOpen. apply silent_bind_get. intros this T.
    assert (S : stream this = None) by apply T. rewrite S. revert T.
    apply silent_ret.
  - apply silent_handleMessage.
  - apply silent_bind; [now apply silent_emit | intro; apply silent_disconnect].
  - apply silent_bind; [now apply silent_emit | intro; apply silent_disconnect].
  - unfold onended. repeat silent_step.
  - unfold onaudioprocess. apply silent_bind_get. intros this T.
    assert (S : sessionPromise this = None) by apply T. rewrite S. revert T.
    apply silent_ret.
Qed.

Lemma torn_down_disconnect (this : GeminiLive) : torn_down (final (disconnect this)).
Proof. rewrite disconnect_result. cbn [final]. unfold torn_down. cbn. tauto. Qed.

(** X10 (nothing leaves an object that holds nothing).  An object
    without stream, audio contexts and session handle, which is how
    [disconnect] leaves it, stays so under every handler that is run on
    it, and no such handler reaches out: whatever the transport and the
    devices still deliver (messages with audio or tool calls, capture
    windows, a late open confirmation, ended notifications, close and
    error events), no source is scheduled, no capture is started and
    neither an audio frame nor a tool response is sent.  This is about
    the handlers that start on such an object, each run to its end; not
    about a [connect] that is called or still under way, nor about what
    was queued on the transport promise before. *)
Theorem silent_when_torn_down (this : GeminiLive) (ops : list Op) :
  torn_down this ->
  Forall (fun op => is_handler op = true) ops ->
  existsb reaches_out (log (run ops this)) = false /\
  torn_down (final (run ops this)).
Proof.
  intros T H.
  enough (G : silent (run ops)) by (destruct (G this T) as [G1 G2]; now split).
  clear this T. induction H as [| op rest Hop _ IH]; cbn [run].
  - apply silent_ret.
  - apply silent_bind; [now apply silent_step_op | intro; exact IH].
Qed.

Lemma silent_when_torn_down_witness :
  torn_down (final (disconnect playing)) /\
  Forall (fun op => is_handler op = true) lateEvents /\
  existsb reaches_out (log (run lateEvents (final (disconnect playing)))) = false.
Proof.
  assert (T : torn_down (final (disconnect playing)))
    by (unfold torn_down; repeat split; vm_compute; reflexivity).
  assert (H : Forall (fun op => is_handler op = true) lateEvents)
    by (repeat constructor).
  split; [exact T | split; [exact H |]].
  exact (proj1 (silent_when_torn_down (final (disconnect playing)) lateEvents T H)).
Defined.

(* ================================================================== *)
(** ** Further properties: transcripts *)
(* ================================================================== *)

Lemma transcript_updates_app (l1 l2 : list Effect) :
  transcript_updates (l1 ++ l2) = transcript_updates l1 ++ transcript_updates l2.
Proof. apply flat_map_app. Qed.

Lemma mute_ret {A : Type} (a : A) : mute (ret a).
Proof. intro; reflexivity. Qed.

Lemma mute_bind {A B : Type} (m : M A) (k : A -> M B) :
  mute m -> (forall a, mute (k a)) -> mute (bind m k).
Proof.
  intros Hm Hk this. unfold bind. cbn [log].
  now rewrite transcript_updates_app, Hm, Hk.
Qed.

Lemma mute_forEach {A : Type} (xs : list A) (f : A -> M unit) :
  (forall x, mute (f x)) -> mute (forEach xs f).
Proof.
  intros H. induction xs as [| x r IH]; cbn [forEach].
  - apply mute_ret.
  - apply mute_bind; [apply H | intro; exact IH].
Qed.

Ltac mute_step :=
  first
    [ apply mute_bind; [| intro]
    | apply mute_forEach; intro
    | (intro; reflexivity)
    | match goal with
      | |- mute (match ?x with _ => _ end) => destruct x
      end ].

Lemma mute_playAudio (env : MsgEnv) (d : string) : mute (playAudio env d).
Proof. unfold playAudio. repeat mute_step. Qed.

Lemma mute_handleToolCall_loop (env : MsgEnv) (calls : list FunctionCall) :
  forall i, mute (handleToolCall_loop env i calls).
Proof.
  induction calls as [| call rest IH]; intro i; cbn [handleToolCall_loop].
  - apply mute_ret.
  - destruct (String.eqb (name call) "create_image"); [| apply IH].
    destruct (args call) as [prompt|]; [| apply mute_ret].
    unfold generateImage, then_.
    repeat first [ apply IH | mute_step ].
Qed.

Lemma mute_tool_part (env : MsgEnv) (m : LiveServerMessage) :
  mute (match toolCall m with
        | Some tc => _ <- handleToolCall env tc ;; ret tt
        | None => ret tt
        end).
Proof.
  unfold handleToolCall.
  repeat first [ apply mute_handleToolCall_loop | mute_step ].
Qed.

Lemma buffers_kept_playAudio (a b : string) (env : MsgEnv) (d : string) :
  preserves (fun this => currentInputTranscription this = a /\
                         currentOutputTranscription this = b)
            (playAudio env d).
Proof. unfold playAudio. repeat preserve_step field_kept. Qed.

(** The transcript part of [handleMessage], stage by stage: what is
    called back and what the buffers hold afterwards. *)
Lemma output_stage (m : LiveServerMessage) (s : GeminiLive) :
  let stage :=
    match outputTranscription m with
    | Some t =>
        modify (fun this => set_currentOutputTranscription
                  (currentOutputTranscription this ++ js_string (text t))%string this) ;;
        this <- get ;;
        emit (onTranscriptUpdate (currentInputTranscription this)
                                 (currentOutputTranscription this) false)
    | None => ret tt
    end in
  let modelText :=
    match outputTranscription m with
    | Some t => (currentOutputTranscription s ++ js_string (text t))%string
    | None => currentOutputTranscription s
    end in
  transcript_updates (log (stage s))
  = match outputTranscription m with
    | Some _ => [(currentInputTranscription s, modelText, false)]
    | None => []
    end /\
  currentInputTranscription (final (stage s)) = currentInputTranscription s /\
  currentOutputTranscription (final (stage s)) = modelText.
Proof. destruct (outputTranscription m); cbn; repeat split; reflexivity. Qed.

Lemma input_stage (m : LiveServerMessage) (s : GeminiLive) :
  let stage :=
    match inputTranscription m with
    | Some t =>
        modify (fun this => set_currentInputTranscription
                  (currentInputTranscription this ++ js_string (text t))%string this) ;;
        this <- get ;;
        emit (onTranscriptUpdate (currentInputTranscription this)
                                 (currentOutputTranscription this) false)
    | None => ret tt
    end in
  let userText :=
    match inputTranscription m with
    | Some t => (currentInputTranscription s ++ js_string (text t))%string
    | None => currentInputTranscription s
    end in
  transcript_updates (log (stage s))
  = match inputTranscription m with
    | Some _ => [(userText, currentOutputTranscription s, false)]
    | None => []
    end /\
  currentInputTranscription (final (stage s)) = userText /\
  currentOutputTranscription (final (stage s)) = currentOutputTranscription s.
Proof. destruct (inputTranscription m); cbn; repeat split; reflexivity. Qed.

Lemma complete_stage (m : LiveServerMessage) (s : GeminiLive) :
  let stage :=
    if turnComplete m then
      this <- get ;;
      emit (onTranscriptUpdate (currentInputTranscription this)
                               (currentOutputTranscription this) true) ;;
      modify (set_currentInputTranscription "") ;;
      modify (set_currentOutputTranscription "")
    else ret tt in
  transcript_updates (log (stage s))
  = if turnComplete m
    then [(currentInputTranscription s, currentOutputTranscription s, true)]
    else [].
Proof. destruct (turnComplete m); reflexivity. Qed.

Lemma mute_interrupt_stage (m : LiveServerMessage) :
  mute (if interrupted m then
          stopAudio ;;
          modify (set_currentOutputTranscription "") ;;
          modify (set_nextStartTime 0)
        else ret tt).
Proof. unfold stopAudio. repeat mute_step. Qed.

(** The transcript callbacks of one message, whatever else it carries. *)
Lemma handleMessage_updates (env : MsgEnv) (m : LiveServerMessage)
      (this : GeminiLive) :
  let userText :=
    match inputTranscription m with
    | Some t => (currentInputTranscription this ++ js_string (text t))%string
    | None => currentInputTranscription this
    end in
  let modelText :=
    match outputTranscription m with
    | Some t => (currentOutputTranscription this ++ js_string (text t))%string
    | None => currentOutputTranscription this
    end in
  transcript_updates (log (handleMessage env m this))
  = match outputTranscription m with
    | Some _ => [(currentInputTranscription this, modelText, false)]
    | None => []
    end
    ++ match inputTranscription m with
       | Some _ => [(userText, modelText, false)]
       | None => []
       end
    ++ (if turnComplete m then [(userText, modelText, true)] else []).
Proof.
  cbv zeta. unfold handleMessage.
  rewrite log_bind. cbn [get value final log app].
  (* the audio stage *)
  rewrite log_bind, transcript_updates_app.
  match goal with
  | |- context [log (?audio this)] =>
      assert (A1 : transcript_updates (log (audio this)) = [])
        by (destruct (truthy_opt (audioData m) && not_null (audioContext this));
            [apply mute_playAudio | reflexivity]);
      assert (A2 : currentInputTranscription (final (audio this))
                   = currentInputTranscription this /\
                   currentOutputTranscription (final (audio this))
                   = currentOutputTranscription this)
        by (destruct (truthy_opt (audioData m) && not_null (audioContext this));
            [now apply (buffers_kept_playAudio _ _ env (js_string (audioData m)) this)
            | split; reflexivity]);
      rewrite A1; destruct A2 as [AI AO];
      generalize dependent (final (audio this)); clear A1
  end.
  intros s1 AI AO. cbn [app].
  (* the output stage *)
  rewrite log_bind, transcript_updates_app.
  destruct (output_stage m s1) as [U1 [I1 O1]]. cbv zeta in U1, I1, O1.
  rewrite U1. rewrite AI, AO in *. clear U1.
  match goal with
  | H : currentInputTranscription (final ?st) = _ |- _ =>
      generalize dependent (final st)
  end.
  intros s2 I2 O2.
  (* the input stage *)
  rewrite log_bind, transcript_updates_app.
  destruct (input_stage m s2) as [U2 [I3 O3]]. cbv zeta in U2, I3, O3.
  rewrite U2. rewrite I2, O2 in *. clear U2.
  match goal with
  | H : currentInputTranscription (final ?st) = _ |- _ =>
      generalize dependent (final st)
  end.
  intros s3 I3 O3.
  (* the turn-complete stage, the interruption and the tool calls *)
  rewrite log_bind, transcript_updates_app, complete_stage, I3, O3.
  rewrite log_bind, transcript_updates_app.
  rewrite (mute_interrupt_stage m), (mute_tool_part env m), !app_nil_r.
  reflexivity.
Qed.

(** X11 (the final flag).  Whatever a message carries, the transcript
    callback is called once for each transcription it holds and once more
    when it completes the turn; only that last call has [isFinal = true],
    so there is none when the message does not complete the turn, and the
    final call carries the two buffers with the texts of this very message
    already appended (a text that is missing being appended as
    ["undefined"]). *)
Theorem final_flag_on_turn_complete (env : MsgEnv) (m : LiveServerMessage)
        (this : GeminiLive) :
  let userText :=
    match inputTranscription m with
    | Some t => (currentInputTranscription this ++ js_string (text t))%string
    | None => currentInputTranscription this
    end in
  let modelText :=
    match outputTranscription m with
    | Some t => (currentOutputTranscription this ++ js_string (text t))%string
    | None => currentOutputTranscription this
    end in
  let l := log (handleMessage env m this) in
  final_updates l = (if turnComplete m then [(userText, modelText, true)] else []) /\
  List.length (transcript_updates l)
  = (Nat.b2n (not_null (outputTranscription m))
     + Nat.b2n (not_null (inputTranscription m))
     + Nat.b2n (turnComplete m))%nat.
Proof.
  cbv zeta. unfold final_updates. rewrite handleMessage_updates. cbv zeta.
  destruct (outputTranscription m), (inputTranscription m), (turnComplete m);
    split; reflexivity.
Qed.

Lemma run_app (ops1 ops2 : list Op) (this : GeminiLive) :
  final (run (ops1 ++ ops2) this) = final (run ops2 (final (run ops1 this))).
Proof.
  revert this. induction ops1 as [| op r IH]; intro this; [reflexivity|].
  cbn [app run]. unfold bind. cbn [final]. apply IH.
Qed.

Lemma interruption_buffers (env : MsgEnv) (this : GeminiLive) :
  let r := handleMessage env interruptionMessage this in
  currentInputTranscription (final r) = currentInputTranscription this /\
  currentOutputTranscription (final r) = "".
Proof.
  unfold handleMessage, interruptionMessage.
  cbn [audioData outputTranscription inputTranscription turnComplete interrupted
       toolCall truthy_opt andb].
  unfold bind. cbn [get ret modify value final log].
  rewrite stopAudio_result. cbn. split; reflexivity.
Qed.

Lemma turn_complete_log (env : MsgEnv) (s : GeminiLive) :
  log (handleMessage env turnCompleteMessage s)
  = [onTranscriptUpdate (currentInputTranscription s)
                        (currentOutputTranscription s) true].
Proof. reflexivity. Qed.

(** X12 (interruption in the middle of a turn).  When an interruption
    event comes between the partials of a turn, the callback of the
    turn-complete event carries the user's text in full, from before and
    after the interruption, and of the model's text only what came after
    the interruption. *)
Theorem interruption_mid_turn (before after : list (MsgEnv * Partial))
        (env1 env2 : MsgEnv) (this : GeminiLive) :
  let ops := partial_ops before ++ OnMessage env1 interruptionMessage
                                   :: partial_ops after in
  log (handleMessage env2 turnCompleteMessage (final (run ops this)))
  = [onTranscriptUpdate
       (currentInputTranscription this ++ input_text before ++ input_text after)
       (output_text after) true].
Proof.
  cbv zeta. rewrite run_app. cbn [run step]. rewrite final_bind.
  set (s1 := final (run (partial_ops before) this)).
  set (s2 := final (handleMessage env1 interruptionMessage s1)).
  destruct (run_partials before this) as [I1 _]. cbv zeta in I1. fold s1 in I1.
  destruct (interruption_buffers env1 s1) as [I2 O2]. cbv zeta in I2, O2.
  fold s2 in I2, O2.
  destruct (run_partials after s2) as [I3 O3]. cbv zeta in I3, O3.
  rewrite turn_complete_log, I3, O3, I2, O2, I1, append_assoc. reflexivity.
Qed.

(* ================================================================== *)
(** ** Further properties: tool dispatch and [generateImage] *)
(* ================================================================== *)

Lemma responses_app (l1 l2 : list Effect) :
  responses (l1 ++ l2) = responses l1 ++ responses l2.
Proof. apply flat_map_app. Qed.

Lemma images_app (l1 l2 : list Effect) :
  images (l1 ++ l2) = images l1 ++ images l2.
Proof. apply flat_map_app. Qed.

(** X13 ([generateImage] never throws and says why it failed).  Whatever
    the image API does, [generateImage] returns a result and touches no
    field.  The result has [success = true] exactly when the API answered
    with image bytes that are not empty, and it is then these bytes as a
    JPEG, with nothing logged; in every other case it has
    [success = false], no data and an error text that is not empty. *)
Theorem generateImage_contract (o : ApiOutcome) (this : GeminiLive) :
  let r := generateImage o this in
  final r = this /\
  (success (value r) = true <->
   exists bytes, o = Responded (Some bytes) /\ bytes <> "") /\
  (forall bytes, o = Responded (Some bytes) -> bytes <> "" ->
     value r = {| success := true; data := Some bytes;
                  mimeType := Some "image/jpeg"; error := None |} /\
     log r = []) /\
  (success (value r) = false ->
   data (value r) = None /\
   exists message, error (value r) = Some message /\ message <> "").
Proof.
  cbv zeta. destruct o as [[bytes|] | message]; cbn [generateImage truthy_opt].
  - unfold truthy. destruct (String.eqb_spec bytes "") as [E | E]; cbn.
    + split; [reflexivity | split; [split |]].
      * discriminate.
      * intros [b [K N]]. injection K as <-. contradiction.
      * split; [intros b K N; injection K as <-; contradiction |].
        intros _. split; [reflexivity |].
        eexists. split; [reflexivity | discriminate].
    + split; [reflexivity | split; [split |]].
      * intros _. exists bytes. split; [reflexivity | exact E].
      * reflexivity.
      * split; [| discriminate].
        intros b K _. injection K as <-. split; reflexivity.
  - cbn. split; [reflexivity | split; [split |]].
    + discriminate.
    + intros [b [K _]]. discriminate K.
    + split; [intros b K; discriminate K |].
      intros _. split; [reflexivity |].
      eexists. split; [reflexivity | discriminate].
  - cbn. split; [reflexivity | split; [split |]].
    + discriminate.
    + intros [b [K _]]. discriminate K.
    + split; [intros b K; discriminate K |].
      intros _. split; [reflexivity |]. eexists. split; [reflexivity |].
      destruct message as [msg|]; cbn; [| discriminate].
      unfold truthy. destruct (String.eqb_spec msg ""); cbn; [discriminate | assumption].
Qed.

Lemma generateImage_contract_witness :
  "abc" <> "" /\
  value (generateImage (Responded (Some "abc")) playing)
  = {| success := true; data := Some "abc";
       mimeType := Some "image/jpeg"; error := None |} /\
  success (value (generateImage (Failed None) playing)) = false /\
  (exists message,
      error (value (generateImage (Failed None) playing)) = Some message /\
      message <> "").
Proof.
  assert (N : "abc" <> "") by discriminate.
  split; [exact N | split; [| split; [reflexivity |]]].
  - exact (proj1 (proj1 (proj2 (proj2 (generateImage_contract
                                         (Responded (Some "abc")) playing)))
                        "abc" eq_refl N)).
  - exact (proj2 (proj2 (proj2 (proj2 (generateImage_contract (Failed None) playing)))
                        eq_refl)).
Defined.

(** X14 (unknown tools).  A tool-call event that names no [create_image]
    call is dropped without a trace: no response is sent for any of its
    calls, no callback is called and no field changes. *)
Theorem unknown_tools_ignored (env : MsgEnv) (calls : list FunctionCall)
        (this : GeminiLive) :
  Forall other_tool calls ->
  handleMessage env (toolCallMessage calls) this
  = {| value := tt; final := this; log := [] |}.
Proof.
  intros H. unfold handleMessage, toolCallMessage, handleToolCall.
  cbn [audioData outputTranscription inputTranscription turnComplete interrupted
       toolCall functionCalls truthy_opt andb].
  unfold bind. cbn [get ret value final log].
  destruct calls as [| c r]; [reflexivity|].
  rewrite (loop_skips env (c :: r) H). reflexivity.
Qed.

Lemma unknown_tools_ignored_witness :
  Forall other_tool [{| id := "7"; name := "search"; args := None |}] /\
  log (handleMessage imageEnv
         (toolCallMessage [{| id := "7"; name := "search"; args := None |}])
         connected) = [].
Proof.
  assert (H : Forall other_tool [{| id := "7"; name := "search"; args := None |}])
    by (repeat constructor; discriminate).
  split; [exact H|].
  now rewrite (unknown_tools_ignored imageEnv _ connected H).
Defined.

(** X15 (a call without arguments).  When the first [create_image] call
    of an event comes without [args], the dispatcher throws on it before
    any request is made: neither this call nor any call after it in the
    event gets a response, whatever those calls are; the rejection stays
    inside the dispatcher's own promise. *)
Theorem missing_args_abort (this : GeminiLive) (env : MsgEnv)
        (pre post : list FunctionCall) (call : FunctionCall) :
  Forall other_tool pre -> name call = "create_image" -> args call = None ->
  let r := handleToolCall env {| functionCalls := Some (pre ++ call :: post) |} this in
  value r = Throw "TypeError" /\ log r = [] /\
  log (handleMessage env (toolCallMessage (pre ++ call :: post)) this) = [].
Proof.
  intros Hpre Hn Ha.
  assert (E : handleToolCall env {| functionCalls := Some (pre ++ call :: post) |} this
              = {| value := Throw "TypeError"; final := this; log := [] |}).
  { unfold handleToolCall. cbn [functionCalls].
    transitivity (handleToolCall_loop env 0 (pre ++ call :: post) this).
    - destruct pre; reflexivity.
    - rewrite (loop_prefix env pre (call :: post) Hpre 0 this).
      cbn [handleToolCall_loop]. now rewrite Hn, Ha. }
  cbv zeta. rewrite E. split; [reflexivity | split; [reflexivity |]].
  unfold handleMessage, toolCallMessage.
  cbn [audioData outputTranscription inputTranscription turnComplete interrupted
       toolCall truthy_opt andb].
  unfold bind. cbn [get ret value final log]. rewrite E. reflexivity.
Qed.

Lemma missing_args_abort_witness :
  name {| id := "1"; name := "create_image"; args := None |} = "create_image" /\
  responses (log (handleToolCall imageEnv
                    {| functionCalls :=
                         Some [{| id := "1"; name := "create_image"; args := None |};
                               imageCall] |} connected)) = [].
Proof.
  split; [reflexivity|].
  pose proof (missing_args_abort connected imageEnv []
                [imageCall] {| id := "1"; name := "create_image"; args := None |}
                (Forall_nil _) eq_refl eq_refl) as K.
  cbv zeta in K. destruct K as [_ [K _]]. cbn [app] in K. now rewrite K.
Defined.

(** One turn of the loop on a [create_image] call that has its
    arguments. *)
Lemma loop_step (env : MsgEnv) (i : nat) (c : FunctionCall) (r : list FunctionCall)
      (this : GeminiLive) :
  name c = "create_image" -> args c <> None ->
  handleToolCall_loop env i (c :: r) this
  = {| value := value (handleToolCall_loop env (S i) r this);
       final := final (handleToolCall_loop env (S i) r this);
       log := call_log (sessionPromise this) env (i, c)
              ++ log (handleToolCall_loop env (S i) r this) |}.
Proof.
  intros Hn Ha. destruct (args c) as [prompt|] eqn:Ea; [| congruence].
  cbn [handleToolCall_loop]. unfold call_log. cbn [fst snd].
  rewrite Hn, Ea. cbn [String.eqb Ascii.eqb Bool.eqb].
  set (rest := handleToolCall_loop env (S i) r).
  unfold bind.
  destruct (generateImages env i prompt) as [[bytes|] | message];
    cbn [generateImage truthy_opt responseText];
    [destruct (truthy bytes) eqn:T | |];
    cbn [ret value final log success data error andb truthy_opt bind get emit
         js_string];
    rewrite ?T; cbn [ret value final log bind get emit];
    (destruct (sessionPromise this) as [[| session |] |];
     cbn [then_ emit ret value final log app]; reflexivity).
Qed.

Lemma loop_skip (env : MsgEnv) (i : nat) (c : FunctionCall) (r : list FunctionCall)
      (this : GeminiLive) :
  name c <> "create_image" ->
  handleToolCall_loop env i (c :: r) this = handleToolCall_loop env (S i) r this.
Proof.
  intros N. cbn [handleToolCall_loop]. apply String.eqb_neq in N. now rewrite N.
Qed.

Lemma keeps_loop_promise (env : MsgEnv) (calls : list FunctionCall) (i : nat)
      (this : GeminiLive) :
  sessionPromise (final (handleToolCall_loop env i calls this)) = sessionPromise this.
Proof. now rewrite keeps_handleToolCall_loop. Qed.

(** The log of the loop when every [create_image] call has its
    arguments. *)
Lemma loop_log (env : MsgEnv) (calls : list FunctionCall) :
  Forall has_args calls ->
  forall (i : nat) (this : GeminiLive),
    value (handleToolCall_loop env i calls this) = Normal /\
    log (handleToolCall_loop env i calls this)
    = flat_map (call_log (sessionPromise this) env) (image_calls i calls).
Proof.
  induction 1 as [| c r Hc _ IH]; intros i this; [split; reflexivity|].
  cbn [image_calls].
  destruct (String.eqb_spec (name c) "create_image") as [E | N].
  - rewrite (loop_step env i c r this E (Hc E)). cbn [value log flat_map].
    destruct (IH (S i) this) as [V L]. now rewrite V, L.
  - rewrite (loop_skip env i c r this N). apply IH.
Qed.

Lemma call_readings (session : Handle) (env : MsgEnv) (p : nat * FunctionCall) :
  args (snd p) <> None ->
  map (fun x => (fst (fst x), snd (fst x)))
      (responses (call_log (Some (Fulfilled session)) env p))
  = [(id (snd p), name (snd p))] /\
  (List.length (images (call_log (Some (Fulfilled session)) env p)) <= 1)%nat.
Proof.
  intros Ha. unfold call_log.
  destruct (args (snd p)) as [prompt|]; [| congruence].
  destruct (generateImages env (fst p) prompt) as [[bytes|] | message];
    [destruct (truthy bytes) | |];
    cbn [app responses images flat_map map fst snd List.length];
    (split; [reflexivity | lia]).
Qed.

Lemma responses_dispatch (session : Handle) (env : MsgEnv) (calls : list FunctionCall) :
  Forall has_args calls ->
  forall i : nat,
    map (fun x => (fst (fst x), snd (fst x)))
        (responses (flat_map (call_log (Some (Fulfilled session)) env)
                             (image_calls i calls)))
    = map (fun c => (id c, name c)) (filter is_image_call calls) /\
    (List.length (images (flat_map (call_log (Some (Fulfilled session)) env)
                                   (image_calls i calls)))
     <= List.length (filter is_image_call calls))%nat.
Proof.
  induction 1 as [| c r Hc _ IH]; intros i;
    [split; [reflexivity | apply Nat.le_refl]|].
  change (filter is_image_call (c :: r))
    with (if is_image_call c then c :: filter is_image_call r
          else filter is_image_call r).
  cbn [image_calls].
  change (String.eqb (name c) "create_image") with (is_image_call c).
  destruct (is_image_call c) eqn:E; [| apply IH].
  apply String.eqb_eq in E.
  destruct (IH (S i)) as [I1 I2].
  destruct (call_readings session env (i, c) (Hc E)) as [C1 C2].
  cbn [flat_map]. rewrite responses_app, images_app, map_app, length_app, I1, C1.
  cbn [fst snd app List.length]. split; [reflexivity | lia].
Qed.

(** X16 (one response per call, in order).  For an event with any number
    of calls, each [create_image] call carrying its arguments, handled
    while the session handle is held and fulfilled: the dispatcher
    completes normally, the responses sent are one per [create_image]
    call, in the order of the calls and each with the identifier and name
    of its call, and [onImageGenerated] is called at most once per call. *)
Theorem responses_correlate (this : GeminiLive) (session : Handle) (env : MsgEnv)
        (calls : list FunctionCall) :
  sessionPromise this = Some (Fulfilled session) -> Forall has_args calls ->
  let r := handleToolCall env {| functionCalls := Some calls |} this in
  value r = Normal /\
  map (fun x => (fst (fst x), snd (fst x))) (responses (log r))
  = map (fun c => (id c, name c)) (filter is_image_call calls) /\
  (List.length (images (log r)) <= List.length (filter is_image_call calls))%nat.
Proof.
  intros Hs Hargs.
  assert (E : handleToolCall env {| functionCalls := Some calls |} this
              = handleToolCall_loop env 0 calls this)
    by (unfold handleToolCall; cbn [functionCalls]; destruct calls; reflexivity).
  cbv zeta. rewrite E. destruct (loop_log env calls Hargs 0 this) as [V L].
  rewrite V, L, Hs. split; [reflexivity|].
  apply responses_dispatch, Hargs.
Qed.

Lemma responses_correlate_witness :
  sessionPromise connected = Some (Fulfilled 9%nat) /\
  Forall has_args [imageCall; {| id := "7"; name := "search"; args := None |};
                   {| id := "call-2"; name := "create_image"; args := Some "a cat" |}] /\
  map (fun x => (fst (fst x), snd (fst x)))
      (responses
         (log (handleToolCall imageEnv
                 {| functionCalls :=
                      Some [imageCall; {| id := "7"; name := "search"; args := None |};
                            {| id := "call-2"; name := "create_image";
                               args := Some "a cat" |}] |} connected)))
  = [("call-1", "create_image"); ("call-2", "create_image")].
Proof.
  assert (H : Forall has_args
                [imageCall; {| id := "7"; name := "search"; args := None |};
                 {| id := "call-2"; name := "create_image"; args := Some "a cat" |}]).
  { repeat constructor; unfold has_args; cbn; intros; discriminate. }
  split; [reflexivity | split; [exact H |]].
  exact (proj1 (proj2 (responses_correlate connected 9%nat imageEnv _ eq_refl H))).
Defined.

Lemma successText_well_formed (i n : string) :
  well_formed_result (i, n, successText).
Proof. split; [now left | discriminate]. Qed.

Lemma errorText_well_formed (i n x : string) :
  well_formed_result (i, n, ("Error: " ++ x)%string).
Proof.
  split; [right; apply error_marker | discriminate].
Qed.

Lemma well_formed_call (sp : option Promise) (env : MsgEnv) (p : nat * FunctionCall) :
  Forall well_formed_result (responses (call_log sp env p)).
Proof.
  unfold call_log. destruct (args (snd p)) as [prompt|]; [| constructor].
  rewrite !responses_app.
  destruct sp as [[| session |] |];
    destruct (generateImages env (fst p) prompt) as [[bytes|] | message];
    cbn [responseText];
    try destruct (truthy bytes);
    cbn [responses flat_map app];
    repeat first [ apply Forall_nil | apply Forall_cons ];
    first [ apply successText_well_formed
          | apply errorText_well_formed
          | apply (errorText_well_formed _ _ "No image generated.") ].
Qed.

Lemma well_formed_loop (env : MsgEnv) (calls : list FunctionCall) :
  forall (i : nat) (this : GeminiLive),
    Forall well_formed_result (responses (log (handleToolCall_loop env i calls this))).
Proof.
  induction calls as [| c r IH]; intros i this; [constructor|].
  destruct (String.eqb_spec (name c) "create_image") as [E | N].
  - destruct (args c) as [prompt|] eqn:Ea.
    + rewrite (loop_step env i c r this E); [| congruence].
      cbn [log]. rewrite responses_app. apply Forall_app. split.
      * apply well_formed_call.
      * apply IH.
    + cbn [handleToolCall_loop]. rewrite E, Ea. constructor.
  - rewrite (loop_skip env i c r this N). apply IH.
Qed.

(** X17 (what a response says).  Every tool response the dispatcher
    sends, in any state and for any event, carries either the success text
    or a text that starts with [Error: ]; the text the code starts from,
    [Image generation failed.], is never sent. *)
Theorem responses_well_formed (env : MsgEnv) (tc : ToolCall) (this : GeminiLive) :
  Forall well_formed_result (responses (log (handleToolCall env tc this))).
Proof.
  unfold handleToolCall. destruct (functionCalls tc) as [[| c r] |];
    try constructor. apply well_formed_loop.
Qed.

(* ================================================================== *)
(** ** Further properties: capture and connect *)
(* ================================================================== *)

(** X18 (capture windows).  While the session handle is held and
    fulfilled, each capture window is sent as exactly one frame of type
    [audio/pcm;rate=16000] whose payload is the base64 text of the 16-bit
    values of the samples of the window, as many as the window holds;
    while no handle is held the window is dropped; in both cases no field
    changes. *)
Theorem capture_window (this : GeminiLive) (inputData : list number) :
  let r := onaudioprocess inputData this in
  final r = this /\
  (forall session, sessionPromise this = Some (Fulfilled session) ->
     exists payload dataInt16,
       log r = [sendRealtimeInput session "audio/pcm;rate=16000" payload] /\
       decodeInt16 payload = Some dataInt16 /\
       dataInt16 = map quantize inputData /\
       List.length dataInt16 = List.length inputData) /\
  (sessionPromise this = None -> log r = []).
Proof.
  cbv zeta. unfold onaudioprocess, bind. cbn [get value final log app].
  split; [| split].
  - destruct (sessionPromise this) as [[| s |] |]; reflexivity.
  - intros session Hs. rewrite Hs. cbn [then_ emit log].
    exists (encodeAudio inputData), (map quantize inputData).
    split; [reflexivity | split; [apply decodeInt16_encodeAudio | split]].
    + reflexivity.
    + apply length_map.
  - intros Hs. now rewrite Hs.
Qed.

Lemma capture_window_witness :
  sessionPromise connected = Some (Fulfilled 9%nat) /\
  (exists payload dataInt16,
      log (onaudioprocess [Fin 0; Fin (1 # 2)] connected)
      = [sendRealtimeInput 9%nat "audio/pcm;rate=16000" payload] /\
      decodeInt16 payload = Some dataInt16 /\
      dataInt16 = map quantize [Fin 0; Fin (1 # 2)] /\
      List.length dataInt16 = 2%nat) /\
  sessionPromise (final (disconnect connected)) = None /\
  log (onaudioprocess [Fin 0; Fin (1 # 2)] (final (disconnect connected))) = [].
Proof.
  split; [reflexivity | split; [| split; [reflexivity |]]].
  - exact (proj1 (proj2 (capture_window connected [Fin 0; Fin (1 # 2)]))
                 9%nat eq_refl).
  - exact (proj2 (proj2 (capture_window (final (disconnect connected))
                           [Fin 0; Fin (1 # 2)])) eq_refl).
Defined.

(** The object a [connect] that succeeds leaves. *)
Lemma connect_success (env : ConnectEnv) (voiceName : string) (this : GeminiLive)
      (ic oc : Handle) (s : MediaStream) (p : Promise) :
  newInputContext env = inr ic -> newOutputContext env = inr oc ->
  getUserMedia env = inr s -> liveConnect env = inr p ->
  connect env voiceName this
  = {| value := Normal;
       final := set_sessionPromise (Some p)
                  (set_stream (Some s)
                     (set_audioContext (Some oc)
                        (set_inputAudioContext (Some ic) this)));
       log := [onStatusChange true; live_connect voiceName] |}.
Proof.
  intros H1 H2 H3 H4. unfold connect. rewrite H1, H2, H3, H4. reflexivity.
Qed.

(** [connect] is [connectAsync] with nothing called meanwhile. *)
Lemma connect_atomic (env : ConnectEnv) (voiceName : string) (this : GeminiLive) :
  connectAsync (fun s => s) env voiceName this = connect env voiceName this.
Proof.
  unfold connectAsync, connect.
  destruct (newInputContext env) as [e | ic]; [reflexivity |].
  destruct (newOutputContext env) as [e | oc]; [reflexivity |].
  unfold bind at 1 2. unfold bind at 4 5. cbn [modify value final log app].
  now rewrite bind_modify_id.
Qed.

(** X19 (the open confirmation after [connect]).  A [connect] that
    returns normally has reported the status [true], has asked for the
    transport and holds the stream and the promise it was given, whatever
    was called on the object while it waited for the microphone.  The
    open confirmation then starts the capture on the input context and
    the stream this very [connect] acquired when that context is still
    held; when it has been dropped meanwhile, as a [disconnect] called
    during the wait does, the open confirmation starts nothing, although
    the stream is held and the status says [true]. *)
Theorem open_after_connect (meanwhile : GeminiLive -> GeminiLive) (env : ConnectEnv)
        (voiceName : string) (this : GeminiLive) :
  let r := connectAsync meanwhile env voiceName this in
  value r = Normal ->
  exists (ic oc : Handle) (s : MediaStream) (p : Promise),
    newInputContext env = inr ic /\ newOutputContext env = inr oc /\
    getUserMedia env = inr s /\ liveConnect env = inr p /\
    let waiting :=
      meanwhile (set_audioContext (Some oc) (set_inputAudioContext (Some ic) this)) in
    log r = [onStatusChange true; live_connect voiceName] /\
    stream (final r) = Some s /\ sessionPromise (final r) = Some p /\
    (inputAudioContext waiting = Some ic ->
     log (handleOpen (final r)) = [capture_start ic s]) /\
    (inputAudioContext waiting = None -> log (handleOpen (final r)) = []).
Proof.
  cbv zeta. unfold connectAsync. intros H.
  destruct (newInputContext env) as [e | ic] eqn:H1;
    [unfold connect_catch, bind in H; cbn [value ret] in H; discriminate H |].
  destruct (newOutputContext env) as [e | oc] eqn:H2;
    [unfold connect_catch, bind in H; cbn [value ret] in H; discriminate H |].
  destruct (getUserMedia env) as [e | s] eqn:H3;
    [unfold connect_catch, bind in H; cbn [value ret] in H; discriminate H |].
  destruct (liveConnect env) as [e | p] eqn:H4;
    [unfold connect_catch, bind in H; cbn [value ret] in H; discriminate H |].
  exists ic, oc, s, p. repeat (split; [reflexivity |]).
  unfold bind. cbn [modify emit ret value final log app].
  generalize (meanwhile (set_audioContext (Some oc) (set_inputAudioContext (Some ic) this))).
  intros w. repeat (split; [reflexivity |]).
  unfold handleOpen, bind.
  cbn [get value final log stream inputAudioContext set_sessionPromise set_stream app].
  split; intros K; rewrite K; reflexivity.
Qed.

Lemma open_after_connect_witness :
  value (connectAsync (fun s => s) okEnv "Kore" playing) = Normal /\
  log (handleOpen (final (connectAsync (fun s => s) okEnv "Kore" playing)))
  = [capture_start 1%nat {| getTracks := [3%nat] |}] /\
  value (connectAsync (fun s => final (disconnect s)) okEnv "Kore" playing) = Normal /\
  log (handleOpen (final (connectAsync (fun s => final (disconnect s)) okEnv "Kore"
                            playing))) = [] /\
  stream (final (connectAsync (fun s => final (disconnect s)) okEnv "Kore" playing))
  = Some {| getTracks := [3%nat] |}.
Proof.
  destruct (open_after_connect (fun s => s) okEnv "Kore" playing eq_refl)
    as [ic [oc [s [p [H1 [H2 [H3 [H4 [_ [_ [_ [K _]]]]]]]]]]]].
  destruct (open_after_connect (fun s => final (disconnect s)) okEnv "Kore" playing
              eq_refl)
    as [ic' [oc' [s' [p' [H1' [H2' [H3' [H4' [_ [S' [_ [_ K']]]]]]]]]]]].
  injection H1 as <-. injection H2 as <-. injection H3 as <-.
  injection H1' as <-. injection H2' as <-. injection H3' as <-.
  split; [reflexivity | split; [exact (K eq_refl) | split; [reflexivity |]]].
  split; [exact (K' eq_refl) | exact S'].
Defined.






(** X21 ([connect] releases nothing).  A [connect] that succeeds closes
    no context and stops no track: on an object that still holds the
    handles of an earlier session, these are overwritten by the new ones
    without having been released. *)
Theorem connect_overwrites (env : ConnectEnv) (voiceName : string)
        (this : GeminiLive) :
  value (connect env voiceName this) = Normal ->
  let r := connect env voiceName this in
  (forall h, releases h (log r) = 0%nat) /\
  exists (ic oc : Handle) (s : MediaStream),
    newInputContext env = inr ic /\ newOutputContext env = inr oc /\
    getUserMedia env = inr s /\
    inputAudioContext (final r) = Some ic /\ audioContext (final r) = Some oc /\
    stream (final r) = Some s.
Proof.
  intros H. cbv zeta.
  destruct (newInputContext env) as [e | ic] eqn:H1;
    [unfold connect in H; rewrite H1 in H; discriminate H|].
  destruct (newOutputContext env) as [e | oc] eqn:H2;
    [unfold connect in H; rewrite H1, H2 in H; discriminate H|].
  destruct (getUserMedia env) as [e | s] eqn:H3;
    [unfold connect in H; rewrite H1, H2, H3 in H; discriminate H|].
  destruct (liveConnect env) as [e | p] eqn:H4;
    [unfold connect in H; rewrite H1, H2, H3, H4 in H; discriminate H|].
  rewrite (connect_success env voiceName this ic oc s p H1 H2 H3 H4).
  cbn [log final]. split; [intro h; reflexivity|].
  exists ic, oc, s. repeat split; reflexivity.
Qed.

Lemma connect_overwrites_witness :
  value (connect okEnv "Kore" connected) = Normal /\
  releases 1%nat (log (connect okEnv "Kore" connected)) = 0%nat /\
  audioContext connected <> None.
Proof.
  split; [reflexivity | split; [| vm_compute; discriminate]].
  exact (proj1 (connect_overwrites okEnv "Kore" connected eq_refl) 1%nat).
Defined.
(* ================================================================== *)
(** ** Further properties: the text chat *)
(* ================================================================== *)

Lemma shown_images_app (l1 l2 : list ChatEffect) :
  shown_images (l1 ++ l2) = shown_images l1 ++ shown_images l2.
Proof. apply flat_map_app. Qed.

Lemma tool_responses_app (l1 l2 : list ChatEffect) :
  tool_responses (l1 ++ l2) = tool_responses l1 ++ tool_responses l2.
Proof. apply flat_map_app. Qed.

(** The console lines of [generateImage] show no image and answer no
    tool call. *)
Lemma imageConsole_quiet (o : ApiOutcome) :
  shown_images (imageConsole o) = [] /\ tool_responses (imageConsole o) = [].
Proof.
  unfold imageConsole.
  destruct o as [[bytes|] | message]; cbn [generateImage truthy_opt];
    try (destruct (truthy bytes)); split; reflexivity.
Qed.

(** What [generateImage] returns, by the outcome of the image request. *)
Lemma imageResult_shown (o : ApiOutcome) :
  (success (imageResult o) && truthy_opt (data (imageResult o)) = true /\
   exists bytes, o = Responded (Some bytes) /\ bytes <> "" /\
                 js_string (data (imageResult o)) = bytes) \/
  (success (imageResult o) && truthy_opt (data (imageResult o)) = false).
Proof.
  destruct o as [[bytes|] | message]; cbn; try (now right).
  unfold imageResult. cbn [generateImage truthy_opt].
  destruct (truthy bytes) eqn:T; cbn; [left | now right].
  rewrite T. split; [reflexivity|]. exists bytes. repeat split.
  intros ->. discriminate T.
Qed.

(** Once the session is there, [sendMessage] resolves, keeps the session
    and creates no other. *)
Lemma sendMessage_try_resolves (env : ChatEnv) (message : string) (s : Handle)
      (sofar : list ChatEffect) :
  let r := sendMessage_try env message s sofar in
  (exists text, settled r = Resolves text) /\ chatSession r = Some s /\
  exists l, chat_log r = sofar ++ chat_sendMessage s message :: l /\
            forall h, ~ In (chats_create h) l.
Proof.
  cbv zeta. unfold sendMessage_try, chat_catch.
  destruct (sendMessageAnswer env message) as [err | response];
    cbn [settled chatSession chat_log].
  - split; [eexists; reflexivity | split; [reflexivity |]].
    exists [chat_console_error "Chat Error:"]. rewrite <- app_assoc.
    split; [reflexivity |]. intros h [H | []]. discriminate H.
  - destruct (response_functionCalls response) as [[| call rest] |].
    1, 3: split; [eexists; reflexivity | split; [reflexivity |]];
          exists []; split; [reflexivity | intros h []].
    destruct (String.eqb (name call) "create_image").
    2: split; [eexists; reflexivity | split; [reflexivity |]];
       exists []; split; [reflexivity | intros h []].
    destruct (args call) as [prompt |]; cbn [settled chatSession chat_log].
    2: { split; [eexists; reflexivity | split; [reflexivity |]].
         exists [chat_console_error "Chat Error:"]. rewrite <- app_assoc.
         split; [reflexivity |]. intros h [H | []]. discriminate H. }
    assert (C : forall h, ~ In (chats_create h) (imageConsole (imageOutcome env prompt))).
    { intros h. unfold imageConsole.
      destruct (imageOutcome env prompt) as [[bytes|] | msg];
        cbn [generateImage truthy_opt];
        try (destruct (truthy bytes)); cbn; intuition discriminate. }
    destruct (success (imageResult (imageOutcome env prompt))
              && truthy_opt (data (imageResult (imageOutcome env prompt))));
      destruct (sendToolResponseAnswer env (name call) (id call) _) as [err | followUp];
      cbn [settled chatSession chat_log];
      (split; [eexists; reflexivity | split; [reflexivity |]]);
      eexists; rewrite <- ?app_assoc; cbn [app];
      (split; [reflexivity |]);
      intros h H; rewrite ?in_app_iff in H; cbn [In] in H;
      specialize (C h); intuition discriminate.
Qed.

(** X22 (when [sendMessage] rejects).  The promise of [sendMessage] is
    rejected only when there is no chat session and [ai.chats.create]
    throws, and then nothing has been sent; in every other case it
    resolves with a text, whatever the chat API, the image request or the
    tool response do.  A session that is there is kept and no other is
    created. *)
Theorem sendMessage_settles (env : ChatEnv) (message : string)
        (session : option Handle) :
  let r := sendMessage env message session in
  ((exists e, settled r = Rejects e) <->
   session = None /\ exists e, chatsCreate env = inl e) /\
  ((exists e, settled r = Rejects e) -> chatSession r = None /\ chat_log r = []) /\
  (forall s, session = Some s ->
             chatSession r = Some s /\ forall h, ~ In (chats_create h) (chat_log r)).
Proof.
  cbv zeta. unfold sendMessage.
  destruct session as [s |]; [| destruct (chatsCreate env) as [e | s] eqn:E].
  - destruct (sendMessage_try_resolves env message s []) as [[text T] [S [l [L C]]]].
    cbv zeta in *. rewrite T, S, L. cbn [app].
    split; [split; [intros [e H]; discriminate H | intros [H _]; discriminate H] |].
    split; [intros [e H]; discriminate H |].
    intros s' H. injection H as <-. split; [reflexivity |].
    intros h [H | H]; [discriminate H | exact (C h H)].
  - cbn [settled chatSession chat_log].
    split; [split; [intros _; split; [reflexivity | now exists e] | now exists e] |].
    split; [intros _; split; reflexivity | intros s H; discriminate H].
  - destruct (sendMessage_try_resolves env message s [chats_create s])
      as [[text T] [S [l [L C]]]].
    cbv zeta in *. rewrite T.
    split; [split; [intros [e H]; discriminate H
                   | intros [_ [e H]]; discriminate H] |].
    split; [intros [e H]; discriminate H | intros s' H; discriminate H].
Qed.

Lemma sendMessage_settles_witness :
  (exists text, settled (sendMessage brokenChatEnv "hello" (Some 5%nat)) = Resolves text) /\
  chatSession (sendMessage brokenChatEnv "hello" (Some 5%nat)) = Some 5%nat /\
  forall h, ~ In (chats_create h) (chat_log (sendMessage brokenChatEnv "hello" (Some 5%nat))).
Proof.
  split; [eexists; reflexivity |].
  exact (proj2 (proj2 (sendMessage_settles brokenChatEnv "hello" (Some 5%nat)))
               5%nat eq_refl).
Defined.

(** The image and the tool response of one run of the [try] block. *)
Lemma sendMessage_try_tools (env : ChatEnv) (message : string) (s : Handle)
      (sofar : list ChatEffect) :
  shown_images sofar = [] -> tool_responses sofar = [] ->
  let r := sendMessage_try env message s sofar in
  (shown_images (chat_log r) = [] /\ tool_responses (chat_log r) = []) \/
  (exists response call rest prompt,
      sendMessageAnswer env message = inr response /\
      response_functionCalls response = Some (call :: rest) /\
      name call = "create_image" /\ args call = Some prompt /\
      ((exists bytes, imageOutcome env prompt = Responded (Some bytes) /\
                      bytes <> "" /\
                      shown_images (chat_log r) = [bytes] /\
                      tool_responses (chat_log r)
                      = [(name call, id call,
                          "Image generated successfully and displayed to the user.")]) \/
       (exists reason,
           shown_images (chat_log r) = [] /\
           tool_responses (chat_log r)
           = [(name call, id call, ("Error: " ++ reason)%string)]))).
Proof.
  intros S0 T0. cbv zeta. unfold sendMessage_try, chat_catch.
  destruct (sendMessageAnswer env message) as [err | response] eqn:A;
    cbn [settled chatSession chat_log].
  { left. rewrite !shown_images_app, !tool_responses_app, S0, T0. split; reflexivity. }
  destruct (response_functionCalls response) as [[| call rest] |] eqn:F.
  1, 3: left; cbn [chat_log];
        rewrite !shown_images_app, !tool_responses_app, S0, T0; split; reflexivity.
  destruct (String.eqb_spec (name call) "create_image") as [N | N].
  2: left; cbn [chat_log];
     rewrite !shown_images_app, !tool_responses_app, S0, T0; split; reflexivity.
  destruct (args call) as [prompt |] eqn:G; cbn [settled chatSession chat_log].
  { right. exists response, call, rest, prompt.
    repeat (split; [first [reflexivity | assumption] |]).
    destruct (imageConsole_quiet (imageOutcome env prompt)) as [Q1 Q2].
    destruct (imageResult_shown (imageOutcome env prompt))
      as [[E [bytes [O [B D]]]] | E]; rewrite E.
    - left. exists bytes. split; [exact O | split; [exact B |]].
      destruct (sendToolResponseAnswer env (name call) (id call) _);
        cbn [chat_log];
        rewrite !shown_images_app, !tool_responses_app, S0, T0, Q1, Q2, D;
        split; reflexivity.
    - right. exists (js_string (error (imageResult (imageOutcome env prompt)))).
      destruct (sendToolResponseAnswer env (name call) (id call) _);
        cbn [chat_log];
        rewrite !shown_images_app, !tool_responses_app, S0, T0, Q1, Q2;
        split; reflexivity. }
  left. rewrite !shown_images_app, !tool_responses_app, S0, T0. split; reflexivity.
Qed.

Lemma sendMessage_tools (env : ChatEnv) (message : string) (session : option Handle) :
  let r := sendMessage env message session in
  (shown_images (chat_log r) = [] /\ tool_responses (chat_log r) = []) \/
  (exists response call rest prompt,
      sendMessageAnswer env message = inr response /\
      response_functionCalls response = Some (call :: rest) /\
      name call = "create_image" /\ args call = Some prompt /\
      ((exists bytes, imageOutcome env prompt = Responded (Some bytes) /\
                      bytes <> "" /\
                      shown_images (chat_log r) = [bytes] /\
                      tool_responses (chat_log r)
                      = [(name call, id call,
                          "Image generated successfully and displayed to the user.")]) \/
       (exists reason,
           shown_images (chat_log r) = [] /\
           tool_responses (chat_log r)
           = [(name call, id call, ("Error: " ++ reason)%string)]))).
Proof.
  cbv zeta. unfold sendMessage.
  destruct session as [s |]; [| destruct (chatsCreate env) as [e | s]].
  - now apply sendMessage_try_tools.
  - left. split; reflexivity.
  - now apply sendMessage_try_tools.
Qed.

(** X23 (one call, one answer).  Of the function calls of a chat
    response only the first is looked at.  A tool response is sent only
    for a first call that is [create_image], at most once, under the name
    and id of that call; its result is the success sentence exactly when an
    image was handed to the callback, these being the bytes the image
    request returned, not empty; otherwise it starts with [Error: ] and no
    image was shown. *)
Theorem chat_tool_response (env : ChatEnv) (message : string)
        (session : option Handle) :
  let r := sendMessage env message session in
  (List.length (shown_images (chat_log r)) <= 1)%nat /\
  (List.length (tool_responses (chat_log r)) <= 1)%nat /\
  (forall d, In d (shown_images (chat_log r)) ->
             d <> "" /\ exists prompt, imageOutcome env prompt = Responded (Some d)) /\
  (forall n i result, In (n, i, result) (tool_responses (chat_log r)) ->
     exists response call rest,
       sendMessageAnswer env message = inr response /\
       response_functionCalls response = Some (call :: rest) /\
       name call = "create_image" /\ n = name call /\ i = id call /\
       ((result = "Image generated successfully and displayed to the user." /\
         shown_images (chat_log r) <> []) \/
        (String.prefix "Error: " result = true /\ shown_images (chat_log r) = []))).
Proof.
  cbv zeta.
  destruct (sendMessage_tools env message session)
    as [[S T] | [response [call [rest [prompt [A [F [N [G [K | K]]]]]]]]]];
    cbv zeta in *.
  - rewrite S, T. cbn. repeat split; try lia; intros; contradiction.
  - destruct K as [bytes [O [B [S T]]]]. rewrite S, T. cbn [List.length In].
    split; [lia | split; [lia | split]].
    + intros d [<- | []]. split; [exact B | now exists prompt].
    + intros n i result [H | []]. injection H as <- <- <-.
      exists response, call, rest. repeat (split; [first [reflexivity | assumption] |]).
      left. split; [reflexivity | discriminate].
  - destruct K as [reason [S T]]. rewrite S, T. cbn [List.length In].
    split; [lia | split; [lia | split]].
    + intros d [].
    + intros n i result [H | []]. injection H as <- <- <-.
      exists response, call, rest. repeat (split; [first [reflexivity | assumption] |]).
      right. split; [apply error_marker | reflexivity].
Qed.

Lemma chat_tool_response_witness :
  In ("create_image", "call-1",
      "Image generated successfully and displayed to the user.")
     (tool_responses (chat_log (sendMessage chatEnv "draw" None))) /\
  exists response call rest,
    sendMessageAnswer chatEnv "draw" = inr response /\
    response_functionCalls response = Some (call :: rest) /\
    name call = "create_image" /\ "create_image" = name call /\ "call-1" = id call /\
    (("Image generated successfully and displayed to the user."
      = "Image generated successfully and displayed to the user." /\
      shown_images (chat_log (sendMessage chatEnv "draw" None)) <> []) \/
     (String.prefix "Error: " "Image generated successfully and displayed to the user."
      = true /\
      shown_images (chat_log (sendMessage chatEnv "draw" None)) = [])).
Proof.
  assert (H : In ("create_image", "call-1",
                  "Image generated successfully and displayed to the user.")
                 (tool_responses (chat_log (sendMessage chatEnv "draw" None))))
    by (left; reflexivity).
  split; [exact H |].
  exact (proj2 (proj2 (proj2 (chat_tool_response chatEnv "draw" None))) _ _ _ H).
Defined.

Lemma or_else_truthy (x : option string) (fallback : string) :
  fallback <> "" -> or_else x fallback <> "".
Proof.
  intros F. unfold or_else. destruct x as [t |]; cbn; [| exact F].
  unfold truthy. destruct (String.eqb_spec t ""); cbn; assumption.
Qed.

(** X24 (the reply after an image is never empty).  Once a tool response
    has been sent, the text [sendMessage] resolves with is not empty: it
    is the follow-up text, the sentence that stands in for a missing or
    empty one, or the error sentence; only the plain path can resolve with
    the empty text. *)
Theorem image_reply_not_empty (env : ChatEnv) (message : string)
        (session : option Handle) (text : string) :
  tool_responses (chat_log (sendMessage env message session)) <> [] ->
  settled (sendMessage env message session) = Resolves text ->
  text <> "".
Proof.
  unfold sendMessage.
  assert (K : forall s sofar, tool_responses sofar = [] ->
              tool_responses (chat_log (sendMessage_try env message s sofar)) <> [] ->
              settled (sendMessage_try env message s sofar) = Resolves text ->
              text <> "").
  { intros s sofar T0. unfold sendMessage_try, chat_catch.
    destruct (sendMessageAnswer env message) as [err | response];
      cbn [settled chatSession chat_log].
    { rewrite !tool_responses_app, T0. intros H. now contradiction H. }
    destruct (response_functionCalls response) as [[| call rest] |].
    1, 3: cbn [chat_log]; rewrite !tool_responses_app, T0;
          intros H; now contradiction H.
    destruct (String.eqb (name call) "create_image").
    2: cbn [chat_log]; rewrite !tool_responses_app, T0;
       intros H; now contradiction H.
    destruct (args call) as [prompt |]; cbn [settled chatSession chat_log].
    2: { rewrite !tool_responses_app, T0. intros H. now contradiction H. }
    intros _.
    destruct (sendToolResponseAnswer env (name call) (id call) _) as [err | followUp];
      cbn [settled]; intros H; injection H as <-.
    - discriminate.
    - apply or_else_truthy. discriminate. }
  destruct session as [s |]; [| destruct (chatsCreate env) as [e | s]].
  - now apply K.
  - intros _ H. discriminate H.
  - now apply K.
Qed.

Lemma image_reply_not_empty_witness :
  tool_responses (chat_log (sendMessage chatEnv "draw" None)) <> [] /\
  settled (sendMessage chatEnv "draw" None)
  = Resolves "Here is the image you requested." /\
  "Here is the image you requested." <> "".
Proof.
  assert (T : tool_responses (chat_log (sendMessage chatEnv "draw" None)) <> [])
    by (vm_compute; discriminate).
  split; [exact T | split; [reflexivity |]].
  exact (image_reply_not_empty chatEnv "draw" None _ T eq_refl).
Defined.
(* ================================================================== *)
(** ** Further properties: the transcript bubbles of the application *)
(* ================================================================== *)

Section Bubbles.
Import App.

Lemma lastMsg_app (l : list Message) (m : Message) : lastMsg (l ++ [m]) = Some m.
Proof.
  induction l as [| x l IH]; [reflexivity |].
  destruct l as [| y l]; [reflexivity | exact IH].
Qed.

Lemma lastMsg_write_last (text : string) (l : list Message) :
  lastMsg (write_last text l) = option_map (set_content text) (lastMsg l).
Proof.
  induction l as [| x [| y l] IH]; [reflexivity | reflexivity |].
  change (write_last text (x :: y :: l)) with (x :: write_last text (y :: l)).
  change (lastMsg (x :: y :: l)) with (lastMsg (y :: l)). rewrite <- IH.
  destruct (write_last text (y :: l)) eqn:E; [| reflexivity].
  destruct l; discriminate E.
Qed.

Lemma write_last_length (text : string) (l : list Message) :
  List.length (write_last text l) = List.length l.
Proof.
  induction l as [| x [| y l] IH]; [reflexivity | reflexivity |].
  change (write_last text (x :: y :: l)) with (x :: write_last text (y :: l)).
  cbn [List.length] in *. now rewrite IH.
Qed.

(** Writing the content of the last message changes no header, and no
    content but the last. *)
Lemma write_last_header (text : string) (l : list Message) :
  map header (write_last text l) = map header l.
Proof.
  induction l as [| x [| y l] IH]; [reflexivity | reflexivity |].
  change (write_last text (x :: y :: l)) with (x :: write_last text (y :: l)).
  cbn [map] in *. now rewrite IH.
Qed.

Lemma write_last_contents (text : string) (l : list Message) :
  removelast (map content (write_last text l)) = removelast (map content l).
Proof.
  induction l as [| x [| y l] IH]; [reflexivity | reflexivity |].
  change (write_last text (x :: y :: l)) with (x :: write_last text (y :: l)).
  destruct (write_last text (y :: l)) as [| z r] eqn:E.
  { pose proof (write_last_length text (y :: l)) as K. rewrite E in K.
    discriminate K. }
  change (removelast (map content (x :: z :: r)))
    with (content x :: removelast (map content (z :: r))).
  rewrite IH. reflexivity.
Qed.

(** The guard of the [else if] of the user block is the negation of the
    guard of its [if]: the branch is always taken. *)
Lemma handleUserText_cases (userText : string) (now : Z) (l : list Message) :
  truthy userText = true ->
  handleUserText userText now l
  = if id_is "live-user" (lastMsg l) then write_last userText l
    else l ++ [liveBubble "live-user" USER userText now].
Proof.
  intros T. unfold handleUserText. rewrite T.
  destruct (lastMsg l) as [x |]; cbn [not_null role_is id_is andb orb negb];
    [| reflexivity].
  destruct (is_USER (role x)); cbn [andb orb negb].
  - destruct (String.eqb_spec (id x) "live-user") as [E | E]; cbn [negb];
      [reflexivity |].
    destruct (String.eqb (id x) "live-model"); reflexivity.
  - destruct (String.eqb_spec (id x) "live-model") as [E | E]; [| reflexivity].
    rewrite E. reflexivity.
Qed.

(** After a user text that is not empty the last bubble is the live user
    bubble, and after a model text the live model bubble. *)
Lemma handleUserText_last (userText : string) (now : Z) (l : list Message) :
  truthy userText = true ->
  exists x, lastMsg (handleUserText userText now l) = Some x /\
            id x = "live-user" /\ content x = userText.
Proof.
  intros T. rewrite (handleUserText_cases _ now l T).
  destruct (lastMsg l) as [x |] eqn:L; cbn [id_is].
  - destruct (String.eqb_spec (id x) "live-user") as [E | E].
    + rewrite lastMsg_write_last, L. eexists. split; [reflexivity |].
      split; [exact E | reflexivity].
    + rewrite lastMsg_app. eexists. split; [reflexivity |]. split; reflexivity.
  - rewrite lastMsg_app. eexists. split; [reflexivity |]. split; reflexivity.
Qed.

Lemma handleModelText_last (modelText : string) (now : Z) (l : list Message) :
  truthy modelText = true ->
  exists x, lastMsg (handleModelText modelText now l) = Some x /\
            id x = "live-model" /\ role x = MODEL /\ content x = modelText.
Proof.
  intros T. unfold handleModelText. rewrite T.
  destruct (lastMsg l) as [x |] eqn:L; cbn [not_null role_is id_is andb].
  - destruct (role x) eqn:R; cbn [is_MODEL andb];
      try (rewrite lastMsg_app; eexists; split; [reflexivity |];
           repeat split; reflexivity).
    destruct (String.eqb_spec (id x) "live-model") as [E | E].
    + rewrite lastMsg_write_last, L. eexists. split; [reflexivity |].
      repeat split; assumption.
    + rewrite lastMsg_app. eexists. split; [reflexivity |]. repeat split; reflexivity.
  - rewrite lastMsg_app. eexists. split; [reflexivity |]. repeat split; reflexivity.
Qed.

Lemma finalize_settles (now : Z) (m : Message) : ~ live (finalize now m).
Proof.
  unfold finalize, live.
  destruct (String.eqb_spec (id m) "live-user") as [E1 | E1];
    [cbn; intros [H | H]; discriminate H |].
  destruct (String.eqb_spec (id m) "live-model") as [E2 | E2];
    [cbn; intros [H | H]; discriminate H |].
  tauto.
Qed.

Lemma showTranscripts_app (clock : nat -> Z) (l1 l2 : list (string * string * bool))
      (i : nat) (prev : list Message) :
  showTranscripts clock i (l1 ++ l2) prev
  = showTranscripts clock (i + List.length l1) l2 (showTranscripts clock i l1 prev).
Proof.
  revert i prev. induction l1 as [| [[u m] f] l1 IH]; intros i prev.
  - cbn. now rewrite Nat.add_0_r.
  - change (showTranscripts clock i (((u, m, f) :: l1) ++ l2) prev)
      with (showTranscripts clock (S i) (l1 ++ l2)
              (transcriptUpdater u m f (clock i) prev)).
    rewrite IH. cbn [List.length showTranscripts]. f_equal. lia.
Qed.

(** X25 (a completed turn leaves no live bubble).  Whatever a message
    with [turnComplete] carries besides, and whatever the list shows
    before, once the updaters of its transcript callbacks have run no
    message has the id [live-user] or [live-model]: the bubbles of the
    turn are out of reach of the next turn's updates. *)
Theorem turn_complete_settles_bubbles (env : MsgEnv) (m : LiveServerMessage)
        (this : GeminiLive) (clock : nat -> Z) (i : nat) (prev : list Message) :
  turnComplete m = true ->
  Forall (fun x => ~ live x)
         (showTranscripts clock i
            (transcript_updates (log (handleMessage env m this))) prev).
Proof.
  intros C. pose proof (handleMessage_updates env m this) as U. cbv zeta in U.
  rewrite U, C, app_assoc, showTranscripts_app. clear U.
  cbn [showTranscripts]. unfold transcriptUpdater.
  apply Forall_forall. intros x H. apply in_map_iff in H.
  destruct H as [y [<- _]]. apply finalize_settles.
Qed.

Lemma turn_complete_settles_bubbles_witness :
  Forall (fun x => ~ live x)
         (showTranscripts (fun n => Z.of_nat n) 0
            (transcript_updates
               (log (handleMessage (msgEnv 0 8%nat (Responded None))
                                   turnCompleteMessage connected)))
            [liveBubble "live-user" USER "hello" 3]).
Proof.
  exact (turn_complete_settles_bubbles (msgEnv 0 8%nat (Responded None))
           turnCompleteMessage connected (fun n => Z.of_nat n) 0
           [liveBubble "live-user" USER "hello" 3] eq_refl).
Defined.

Lemma finalize_fields (now : Z) (m : Message) :
  role (finalize now m) = role m /\ type (finalize now m) = type m /\
  timestamp (finalize now m) = timestamp m /\ content (finalize now m) = content m.
Proof.
  unfold finalize. destruct (String.eqb (id m) "live-user");
    [repeat split |].
  destruct (String.eqb (id m) "live-model"); repeat split.
Qed.

(** One block of the updater keeps the messages it finds, but for the
    content of the last, and appends at most one. *)
Lemma handleUserText_keeps (userText : string) (now : Z) (l : list Message) :
  exists kept added,
    handleUserText userText now l = kept ++ added /\
    (List.length added <= 1)%nat /\
    (added <> [] -> lastMsg (kept ++ added) = Some (liveBubble "live-user" USER userText now)) /\
    map header kept = map header l /\
    removelast (map content kept) = removelast (map content l).
Proof.
  destruct (truthy userText) eqn:T.
  - rewrite (handleUserText_cases _ now l T).
    destruct (id_is "live-user" (lastMsg l)).
    + exists (write_last userText l), []. rewrite app_nil_r.
      split; [reflexivity | split; [cbn; lia | split; [congruence |]]].
      split; [apply write_last_header | apply write_last_contents].
    + exists l, [liveBubble "live-user" USER userText now].
      split; [reflexivity | split; [cbn; lia | split; [intros _; apply lastMsg_app |]]].
      split; reflexivity.
  - exists l, []. rewrite app_nil_r. unfold handleUserText. rewrite T.
    split; [reflexivity | split; [cbn; lia | split; [congruence |]]].
    split; reflexivity.
Qed.

Lemma handleModelText_keeps (modelText : string) (now : Z) (l : list Message) :
  exists kept added,
    handleModelText modelText now l = kept ++ added /\
    (List.length added <= 1)%nat /\
    map header kept = map header l /\
    removelast (map content kept) = removelast (map content l).
Proof.
  unfold handleModelText. destruct (truthy modelText).
  - destruct (not_null (lastMsg l) && role_is is_MODEL (lastMsg l)
              && id_is "live-model" (lastMsg l)).
    + exists (write_last modelText l), []. rewrite app_nil_r.
      split; [reflexivity | split; [cbn; lia |]].
      split; [apply write_last_header | apply write_last_contents].
    + exists l, [liveBubble "live-model" MODEL modelText now].
      split; [reflexivity | split; [cbn; lia |]]. split; reflexivity.
  - exists l, []. rewrite app_nil_r.
    split; [reflexivity | split; [cbn; lia |]]. split; reflexivity.
Qed.

(** The model block leaves a user bubble that was just appended
    alone. *)
Lemma handleModelText_after_push (modelText userText : string) (now : Z)
      (l : list Message) :
  handleModelText modelText now (l ++ [liveBubble "live-user" USER userText now])
  = (l ++ [liveBubble "live-user" USER userText now])
    ++ (if truthy modelText then [liveBubble "live-model" MODEL modelText now] else []).
Proof.
  unfold handleModelText. rewrite lastMsg_app. cbn.
  destruct (truthy modelText); [reflexivity | now rewrite app_nil_r].
Qed.

(** X26 (an update keeps the history).  Every update of the transcript,
    final or not, keeps all messages it finds, in their order, with their
    role, type and time, and appends at most two; the only content it may
    change is that of the message it finds last, and the ids change only
    in a final update. *)
Theorem updater_keeps_history (userText modelText : string) (isFinal : bool)
        (now : Z) (prev : list Message) :
  exists kept added,
    transcriptUpdater userText modelText isFinal now prev = kept ++ added /\
    (List.length added <= 2)%nat /\
    map role kept = map role prev /\ map type kept = map type prev /\
    map timestamp kept = map timestamp prev /\
    removelast (map content kept) = removelast (map content prev) /\
    (isFinal = false -> map id kept = map id prev).
Proof.
  assert (K : exists kept added,
             handleModelText modelText now (handleUserText userText now prev)
             = kept ++ added /\ (List.length added <= 2)%nat /\
             map header kept = map header prev /\
             removelast (map content kept) = removelast (map content prev)).
  { destruct (handleUserText_keeps userText now prev)
      as [k1 [[| a1 r1] [E1 [L1 [P1 [H1 C1]]]]]].
    - rewrite app_nil_r in E1. rewrite E1.
      destruct (handleModelText_keeps modelText now k1) as [k2 [a2 [E2 [L2 [H2 C2]]]]].
      exists k2, a2. split; [exact E2 | split; [lia |]].
      split; congruence.
    - destruct r1; [| cbn in L1; lia].
      specialize (P1 ltac:(discriminate)). rewrite lastMsg_app in P1.
      injection P1 as ->. rewrite E1, handleModelText_after_push, <- app_assoc.
      exists k1. eexists. split; [reflexivity |].
      split; [destruct (truthy modelText); cbn; lia |]. split; assumption. }
  destruct K as [kept [added [E [L [H C]]]]].
  assert (R : map role kept = map role prev /\ map type kept = map type prev /\
              map timestamp kept = map timestamp prev /\ map id kept = map id prev).
  { pose proof (f_equal (map (fun h => snd (fst h))) H) as Hy.
    pose proof (f_equal (map (fun h => snd (fst (fst h)))) H) as Hr.
    pose proof (f_equal (map (fun h => snd h)) H) as Ht.
    pose proof (f_equal (map (fun h => fst (fst (fst h)))) H) as Hi.
    rewrite !map_map in Hy, Hr, Ht, Hi. cbn in Hy, Hr, Ht, Hi.
    repeat split; assumption. }
  destruct R as [Rr [Ry [Rt Ri]]].
  unfold transcriptUpdater. rewrite E. destruct isFinal.
  - exists (map (finalize now) kept), (map (finalize now) added).
    rewrite map_app, length_map, !map_map.
    split; [reflexivity | split; [exact L |]].
    rewrite (map_ext (fun x => role (finalize now x)) role)
      by (intro x; apply finalize_fields).
    rewrite (map_ext (fun x => type (finalize now x)) type)
      by (intro x; apply finalize_fields).
    rewrite (map_ext (fun x => timestamp (finalize now x)) timestamp)
      by (intro x; apply finalize_fields).
    rewrite (map_ext (fun x => content (finalize now x)) content)
      by (intro x; apply finalize_fields).
    repeat split; try assumption. discriminate.
  - exists kept, added. repeat split; intros; assumption.
Qed.

(** X27 (bubbles double while both sides have text).  Once an update
    has carried a user text and a model text, both not empty, every
    further such update of the same turn rewrites nothing: it appends a
    new user bubble and a new model bubble, so the two texts of the turn
    are shown again at every step. *)
Theorem both_texts_append_two (u m u' m' : string) (now now' : Z)
        (prev : list Message) :
  truthy u = true -> truthy m = true -> truthy u' = true -> truthy m' = true ->
  transcriptUpdater u' m' false now' (transcriptUpdater u m false now prev)
  = transcriptUpdater u m false now prev
    ++ [liveBubble "live-user" USER u' now'; liveBubble "live-model" MODEL m' now'].
Proof.
  intros Tu Tm Tu' Tm'. unfold transcriptUpdater.
  destruct (handleModelText_last m now (handleUserText u now prev) Tm)
    as [x [L [I [R _]]]].
  set (shown := handleModelText m now (handleUserText u now prev)) in *.
  rewrite (handleUserText_cases _ now' shown Tu'), L. cbn [id_is]. rewrite I.
  cbn [String.eqb Ascii.eqb Bool.eqb].
  rewrite handleModelText_after_push, Tm', <- app_assoc. reflexivity.
Qed.

Lemma both_texts_append_two_witness :
  transcriptUpdater "hello" "hi there" false 8
    (transcriptUpdater "hello" "hi" false 7 [])
  = [liveBubble "live-user" USER "hello" 7; liveBubble "live-model" MODEL "hi" 7;
     liveBubble "live-user" USER "hello" 8; liveBubble "live-model" MODEL "hi there" 8].
Proof.
  exact (both_texts_append_two "hello" "hi" "hello" "hi there" 7 8 []
           eq_refl eq_refl eq_refl eq_refl).
Defined.

(** X28 (one side streams in place).  While only the user text, or only
    the model text, is not empty, the second and every later update
    appends nothing: it rewrites the content of the last bubble, which
    then shows the newest text. *)
Theorem one_sided_stream_in_place (t t' : string) (now now' : Z)
        (prev : list Message) :
  truthy t = true -> truthy t' = true ->
  let user1 := transcriptUpdater t "" false now prev in
  let user2 := transcriptUpdater t' "" false now' user1 in
  let model1 := transcriptUpdater "" t false now prev in
  let model2 := transcriptUpdater "" t' false now' model1 in
  (user2 = write_last t' user1 /\ List.length user2 = List.length user1 /\
   option_map content (lastMsg user2) = Some t') /\
  (model2 = write_last t' model1 /\ List.length model2 = List.length model1 /\
   option_map content (lastMsg model2) = Some t').
Proof.
  intros T T'. cbv zeta. unfold transcriptUpdater.
  assert (N : forall now l, handleModelText "" now l = l) by reflexivity.
  assert (U : forall now l, handleUserText "" now l = l) by reflexivity.
  rewrite !N, !U. split.
  - destruct (handleUserText_last t now prev T) as [x [L [I _]]].
    set (user1 := handleUserText t now prev) in *.
    assert (E : handleUserText t' now' user1 = write_last t' user1).
    { rewrite (handleUserText_cases _ now' user1 T'), L. cbn [id_is].
      now rewrite I. }
    rewrite E. split; [reflexivity | split; [apply write_last_length |]].
    rewrite lastMsg_write_last, L. reflexivity.
  - destruct (handleModelText_last t now prev T) as [x [L [I [R _]]]].
    set (model1 := handleModelText t now prev) in *.
    assert (E : handleModelText t' now' model1 = write_last t' model1).
    { unfold handleModelText. rewrite T', L. cbn [not_null role_is id_is andb].
      now rewrite R, I. }
    rewrite E. split; [reflexivity | split; [apply write_last_length |]].
    rewrite lastMsg_write_last, L. reflexivity.
Qed.

Lemma one_sided_stream_in_place_witness :
  transcriptUpdater "hello there" "" false 8
    (transcriptUpdater "hello" "" false 7 [])
  = write_last "hello there" (transcriptUpdater "hello" "" false 7 []) /\
  List.length (transcriptUpdater "hello there" "" false 8
                 (transcriptUpdater "hello" "" false 7 [])) = 1%nat.
Proof.
  pose proof (one_sided_stream_in_place "hello" "hello there" 7 8 [] eq_refl eq_refl)
    as K.
  cbv zeta in K. destruct K as [[K1 [K2 _]] _].
  split; [exact K1 | rewrite K2; reflexivity].
Defined.

End Bubbles.
(* ================================================================== *)
(** ** Further properties: voice toggle and text send of the application *)
(* ================================================================== *)

Section Component.
Import App.

(** [connect] either gets all it asks for, or one step throws. *)
Lemma connect_cases (env : ConnectEnv) :
  (exists ic oc s p, newInputContext env = inr ic /\ newOutputContext env = inr oc /\
                     getUserMedia env = inr s /\ liveConnect env = inr p) \/
  (exists e, fails_with env e).
Proof.
  destruct (newInputContext env) as [e | ic] eqn:H1;
    [right; exists e; now apply fails_input_context |].
  destruct (newOutputContext env) as [e | oc] eqn:H2;
    [right; exists e; now apply (@fails_output_context env e ic) |].
  destruct (getUserMedia env) as [e | s] eqn:H3;
    [right; exists e; now apply (@fails_getUserMedia env e ic oc) |].
  destruct (liveConnect env) as [e | p] eqn:H4;
    [right; exists e; now apply (@fails_liveConnect env e ic oc s) |].
  left. exists ic, oc, s, p. repeat split.
Qed.

(** A [connect] that fails throws what the failing step threw and
    leaves the object torn down. *)
Lemma connect_failure (env : ConnectEnv) (voiceName e : string) (this : GeminiLive) :
  fails_with env e ->
  value (connect env voiceName this) = Throw e /\
  torn_down (final (connect env voiceName this)).
Proof.
  intros F.
  destruct F as [H1 | ic H1 H2 | ic oc H1 H2 H3 | ic oc s H1 H2 H3 H4];
    unfold connect, connect_catch; rewrite H1, ?H2, ?H3, ?H4;
    unfold bind; rewrite disconnect_result;
    cbn [value final log modify emit ret];
    (split; [reflexivity | unfold torn_down; cbn; tauto]).
Qed.

(** X29 (the voice toggle).  A toggle never touches the messages or the
    input.  From voice on, it leaves voice off and the client, if there is
    one, without devices and session but with its playback cursor.  From
    voice off, it leaves voice on exactly when [connect] succeeded, the
    client then holding the session; and when a step of [connect] threw,
    voice is off, the failure is reported, and the client is left without
    devices and session. *)
Theorem toggleVoiceMode_outcome (env : ConnectEnv) (st : AppState) :
  let t := toggleVoiceMode env st in
  messages (toggled t) = messages st /\ inputValue (toggled t) = inputValue st /\
  (isVoiceActive st = true ->
   isVoiceActive (toggled t) = false /\ failure t = None /\
   forall c, liveClientRef st = Some c ->
             exists c', liveClientRef (toggled t) = Some c' /\ torn_down c' /\
                        nextStartTime c' = nextStartTime c) /\
  (isVoiceActive st = false ->
   (isVoiceActive (toggled t) = true <-> failure t = None) /\
   (failure t = None ->
    exists c' p, liveClientRef (toggled t) = Some c' /\ liveConnect env = inr p /\
                 sessionPromise c' = Some p /\
                 In (live_connect (selectedVoice st)) (platform t)) /\
   (forall e, failure t = Some e ->
              fails_with env e /\
              exists c', liveClientRef (toggled t) = Some c' /\ torn_down c')).
Proof.
  cbv zeta. unfold toggleVoiceMode.
  destruct (isVoiceActive st) eqn:A.
  - destruct (liveClientRef st) as [client |] eqn:C;
      cbn [toggled failure platform set_voice messages inputValue isVoiceActive
           liveClientRef];
      (split; [reflexivity | split; [reflexivity | split; [| discriminate]]]);
      intros _; (split; [reflexivity | split; [reflexivity |]]).
    + intros c K. injection K as <-. eexists. split; [reflexivity |].
      rewrite disconnect_result. cbn [final nextStartTime].
      split; [unfold torn_down; cbn; tauto | reflexivity].
    + intros c K. discriminate K.
  - set (client := match liveClientRef st with Some c => c | None => new_GeminiLive end).
    destruct (connect_cases env) as [[ic [oc [s [p [H1 [H2 [H3 H4]]]]]]] | [e F]].
    + rewrite (connect_success env (selectedVoice st) client ic oc s p H1 H2 H3 H4).
      cbn [value final log toggled failure platform set_voice messages inputValue
           isVoiceActive liveClientRef].
      split; [reflexivity | split; [reflexivity | split; [discriminate |]]].
      intros _. split; [split; reflexivity | split].
      * intros _. eexists. exists p. split; [reflexivity |].
        split; [exact H4 | split; [reflexivity | right; now left]].
      * intros e K. discriminate K.
    + destruct (connect_failure env (selectedVoice st) e client F) as [V T].
      rewrite V.
      cbn [toggled failure platform set_voice messages inputValue isVoiceActive
           liveClientRef].
      split; [reflexivity | split; [reflexivity | split; [discriminate |]]].
      intros _. split; [split; discriminate | split; [discriminate |]].
      intros e' K. injection K as <-. split; [exact F |].
      eexists. split; [reflexivity | exact T].
Qed.

Lemma toggleVoiceMode_outcome_witness :
  isVoiceActive idle = false /\
  failure (toggleVoiceMode deniedEnv idle) = Some "NotAllowedError" /\
  fails_with deniedEnv "NotAllowedError" /\
  isVoiceActive (toggled (toggleVoiceMode okEnv idle)) = true /\
  isVoiceActive (toggled (toggleVoiceMode okEnv (toggled (toggleVoiceMode okEnv idle))))
  = false.
Proof.
  split; [reflexivity | split; [reflexivity | split; [| split]]].
  - exact (proj1 (proj2 (proj2 (proj2 (proj2 (proj2
             (toggleVoiceMode_outcome deniedEnv idle))) eq_refl))
             "NotAllowedError" eq_refl)).
  - exact (proj2 (proj1 (proj2 (proj2 (proj2
             (toggleVoiceMode_outcome okEnv idle))) eq_refl)) eq_refl).
  - exact (proj1 (proj1 (proj2 (proj2
             (toggleVoiceMode_outcome okEnv (toggled (toggleVoiceMode okEnv idle)))))
             eq_refl)).
Defined.

(** [trim] leaves a text that starts with a character that is no white
    space not empty. *)
Lemma trimEnd_keeps (c : ascii) (r : string) :
  isWhiteSpace c = false -> trimEnd (String c r) <> "".
Proof.
  intros W. cbn [trimEnd]. rewrite W. destruct (trimEnd r); discriminate.
Qed.

Lemma trim_keeps (c : ascii) (r : string) :
  isWhiteSpace c = false -> truthy (trim (String c r)) = true.
Proof.
  intros W. unfold trim. cbn [trimStart]. rewrite W.
  pose proof (trimEnd_keeps c r W) as K. unfold truthy.
  destruct (String.eqb_spec (trimEnd (String c r)) ""); [contradiction | reflexivity].
Qed.

Lemma imageMsgs_length (clock : nat -> Z) (images : list string) (i : nat) :
  List.length (imageMsgs clock i images) = List.length images.
Proof.
  revert i. induction images as [| d r IH]; intros i; [reflexivity |].
  cbn [imageMsgs List.length]. now rewrite IH.
Qed.

Lemma imageMsgs_bubbles (clock : nat -> Z) (images : list string) (i : nat) :
  Forall (fun d => d <> "") images ->
  Forall (fun x => role x = MODEL /\ type x = IMAGE /\ content x <> "")
         (imageMsgs clock i images).
Proof.
  intros H. revert i. induction H as [| d r D _ IH]; intros i; [constructor |].
  cbn [imageMsgs]. constructor; [| apply IH]. repeat split. exact D.
Qed.

(** The image of a run of [sendMessage]: at most one, not empty. *)
Lemma sendMessage_images (env : ChatEnv) (message : string) (session : option Handle) :
  (List.length (shown_images (chat_log (sendMessage env message session))) <= 1)%nat /\
  Forall (fun d => d <> "")
         (shown_images (chat_log (sendMessage env message session))).
Proof.
  destruct (sendMessage_tools env message session)
    as [[S _] | [response [call [rest [prompt [_ [_ [_ [_ [K | K]]]]]]]]]];
    cbv zeta in *.
  - rewrite S. split; [cbn; lia | constructor].
  - destruct K as [bytes [_ [B [S _]]]]. rewrite S.
    split; [cbn; lia | constructor; [exact B | constructor]].
  - destruct K as [reason [S _]]. rewrite S. split; [cbn; lia | constructor].
Qed.

(** X30 (what a send shows).  A send with input that is not blank, while
    none is under way, appends the trimmed input as a user message, then
    at most one image and at most one text of the model, none of them
    empty, and ends with the input cleared and the loading flag down.
    With a chat session in place a failure of the chat API is shown as the
    error sentence of [sendMessage]; the apology of [handleSendMessage] is
    shown when there is no session and none can be created. *)
Theorem handleSendMessage_bubbles (env : ChatEnv) (clock : nat -> Z)
        (session : option Handle) (st : AppState) :
  truthy (trim (inputValue st)) = true -> isLoading st = false ->
  let r := handleSendMessage env clock session st in
  exists userMsg shown answer,
    messages (appState r) = messages st ++ userMsg :: shown ++ answer /\
    role userMsg = USER /\ content userMsg = trim (inputValue st) /\
    (List.length shown <= 1)%nat /\
    Forall (fun x => role x = MODEL /\ type x = IMAGE /\ content x <> "") shown /\
    (List.length answer <= 1)%nat /\
    Forall (fun x => role x = MODEL /\ type x = TEXT /\ content x <> "") answer /\
    isLoading (appState r) = false /\ inputValue (appState r) = "" /\
    (forall s err,
        session = Some s -> sendMessageAnswer env (trim (inputValue st)) = inl err ->
        shown = [] /\
        map content answer
        = [("Sorry, I encountered an error: " ++ js_string err)%string]) /\
    (forall e, session = None -> chatsCreate env = inl e ->
               shown = [] /\ map content answer = [apology]).
Proof.
  intros T L. cbv zeta. unfold handleSendMessage. rewrite T, L. cbn [negb orb].
  cbn [appState messages isLoading inputValue].
  set (userText := trim (inputValue st)).
  set (run := sendMessage env userText session).
  destruct (sendMessage_images env userText session) as [I1 I2]. fold run in I1, I2.
  eexists. exists (imageMsgs clock 2 (shown_images (chat_log run))). eexists.
  split; [reflexivity |]. split; [reflexivity |]. split; [reflexivity |].
  split; [now rewrite imageMsgs_length |].
  split; [now apply imageMsgs_bubbles |].
  split; [destruct (settled run) as [text | e];
          [destruct (truthy text && truthy (trim text)) |]; cbn; lia |].
  split.
  { destruct (settled run) as [text | e].
    - destruct (truthy text) eqn:Tt; cbn [andb]; [| constructor].
      destruct (truthy (trim text)); constructor; [| constructor].
      repeat split. cbn [content]. intros ->. discriminate Tt.
    - constructor; [| constructor]. repeat split. discriminate. }
  split; [reflexivity |]. split; [reflexivity |]. split.
  - intros s err -> A. subst run. unfold sendMessage, sendMessage_try.
    rewrite A. unfold chat_catch. cbn [settled chat_log].
    rewrite !shown_images_app. cbn [shown_images flat_map app imageMsgs].
    split; [reflexivity |].
    change ("Sorry, I encountered an error: " ++ js_string err)%string
      with (String "S" ("orry, I encountered an error: " ++ js_string err)%string).
    rewrite trim_keeps by reflexivity. reflexivity.
  - intros e -> C. subst run. unfold sendMessage. rewrite C.
    cbn [settled chat_log shown_images flat_map imageMsgs]. split; reflexivity.
Qed.

Lemma handleSendMessage_bubbles_witness :
  truthy (trim (inputValue idle)) = true /\ isLoading idle = false /\
  exists userMsg shown answer,
    messages (appState (handleSendMessage brokenChatEnv (fun n => Z.of_nat n)
                     (Some 5%nat) idle))
    = messages idle ++ userMsg :: shown ++ answer /\
    content userMsg = "draw a kite" /\ shown = [] /\
    map content answer = ["Sorry, I encountered an error: quota exceeded"].
Proof.
  split; [reflexivity | split; [reflexivity |]].
  destruct (handleSendMessage_bubbles brokenChatEnv (fun n => Z.of_nat n)
              (Some 5%nat) idle eq_refl eq_refl)
    as [userMsg [shown [answer [M [_ [C [_ [_ [_ [_ [_ [_ [E _]]]]]]]]]]]]].
  exists userMsg, shown, answer.
  destruct (E 5%nat (Some "quota exceeded") eq_refl eq_refl) as [E1 E2].
  split; [exact M | split; [exact C | split; [exact E1 | exact E2]]].
Defined.

End Component.
